(** * Flag_LoadNumbers: load-number segmentation and outlier flagging

    A shallow embedding of the notebook [Flag_LoadNumbers.ipynb].  The
    notebook reads a CSV of telemetry points, orders them in time, cuts each
    contract's points into runs that share one reported load number, reduces
    every run to one interval row, flags the interval rows against a set of
    thresholds and joins the flags back onto the points.

    Conventions of the embedding:
    - a pandas DataFrame is a list of rows (a record per row, one field per
      column); a cell that can hold NaN / NaT / pd.NA is an [option];
    - timestamps and timedeltas are integers ([Z]), counted in nanoseconds as
      datetime64[ns] / timedelta64[ns] are;
    - Python floats are rationals ([Q]) and NaN is [None]: the embedding
      computes exactly where pandas rounds to double precision, which shows
      in the average time delta of an interval once the deltas it sums pass
      2^53 ns, and in the ping-rate test near its threshold;
    - a Python exception is a value of [error] in the [result] monad; the
      checks that raise stand in front of the column expressions, which
      say what the column holds when the cell returns;
    - [sort_values('msg_time')] puts tied rows in some order; the embedding
      keeps them in arrival order;
    - [groupby(...).apply(f)] stacks the results per group under the group
      key, which [reset_index(drop=True)] then removes, as the notebook's
      own comments describe. *)

From Stdlib Require Import String.
From Stdlib Require Import ZArith QArith Qabs List Bool Lia Permutation Sorted.
Import ListNotations.
Open Scope Z_scope.
Open Scope list_scope.

Set Implicit Arguments.

(* ================================================================== *)
(** * Exceptions *)

Inductive error : Type :=
| ParseError           (* cell 5: pd.to_datetime met a cell it cannot convert *)
| OverflowError        (* cell 6: a difference of timestamps beyond int64 *)
| KeyError             (* cell 9: no group_number column on an empty frame *)
| OutOfBoundsDatetime  (* cell 11: an interval longer than a Timedelta holds *)
| TypeError            (* cell 19: a column of NaT alone against a Timedelta *)
| ZeroDivisionError.   (* cell 20: division by a zero point count *)

Inductive result (A : Type) : Type :=
| Ok (a : A)
| Raised (e : error).

Arguments Ok {A} a.
Arguments Raised {A} e.

Definition bind {A B : Type} (m : result A) (k : A -> result B) : result B :=
  match m with
  | Ok a => k a
  | Raised e => Raised e
  end.

Notation "x <- m ;; k" := (bind m (fun x => k))
  (at level 61, m at next level, right associativity).

(** Run [f] on every element, front to back; the first exception ends the
    traversal. *)
Fixpoint mapM {A B : Type} (f : A -> result B) (l : list A) : result (list B) :=
  match l with
  | [] => Ok []
  | a :: l' =>
      b <- f a ;;
      bs <- mapM f l' ;;
      Ok (b :: bs)
  end.

(* ================================================================== *)
(** * User settings (cell 2) *)

Record Settings : Type := mkSettings {
  contract_gap_threshold : Z;   (* timedelta *)
  load_gap_threshold     : Z;   (* timedelta *)
  duration_threshold_min : Z;   (* timedelta *)
  duration_threshold_max : Z;   (* timedelta *)
  point_threshold_min    : Z;
  point_threshold_max    : Z;
  ping_rate_threshold    : Q    (* seconds *)
}.

Definition nanos_per_second : Z := 1000000000.

Definition seconds (n : Z) : Z := n * nanos_per_second.
Definition hours (n : Z) : Z := seconds (3600 * n).
Definition days (n : Z) : Z := hours (24 * n).

(** The values the notebook ships with. *)
Definition notebook_settings : Settings := {|
  contract_gap_threshold := days 5;
  load_gap_threshold     := seconds 20;
  duration_threshold_min := hours 1;
  duration_threshold_max := days 1;
  point_threshold_min    := 375;
  point_threshold_max    := 8750;
  ping_rate_threshold    := 1%Q
|}.

(* ================================================================== *)
(** * Generic DataFrame operations *)

Section Sorting.
Variable A : Type.

(** [sort_values]: stable insertion sort under a "not after" test. *)
Fixpoint insert_row (leb : A -> A -> bool) (x : A) (l : list A) : list A :=
  match l with
  | [] => [x]
  | y :: l' => if leb x y then x :: y :: l' else y :: insert_row leb x l'
  end.

Definition sort_rows (leb : A -> A -> bool) (l : list A) : list A :=
  fold_right (insert_row leb) [] l.

Definition sort_values (key : A -> Z) : list A -> list A :=
  sort_rows (fun x y => key x <=? key y).
End Sorting.

Section Frames.
Variable A : Type.

(** The row of the same group that stands nearest above the current one.
    [seen] holds the rows above, nearest first. *)
Definition prev_in_group (key : A -> Z) (seen : list A) (x : A) : option A :=
  find (fun y => key y =? key x) seen.

(** [df.groupby(key)[val].shift(1)]: one cell per row, holding [val] of the
    previous row with the same key, NaN where there is none. *)
Fixpoint groupby_shift_from (B : Type) (key : A -> Z) (val : A -> B)
    (seen rows : list A) : list (option B) :=
  match rows with
  | [] => []
  | r :: rest =>
      option_map val (prev_in_group key seen r)
        :: groupby_shift_from key val (r :: seen) rest
  end.

Definition groupby_shift (B : Type) (key : A -> Z) (val : A -> B)
    (rows : list A) : list (option B) :=
  groupby_shift_from key val [] rows.

Section Keys.
Variable K : Type.
Variable keqb : K -> K -> bool.
Variable kleb : K -> K -> bool.

(** The distinct values of a key column. *)
Fixpoint unique (l : list K) : list K :=
  match l with
  | [] => []
  | k :: l' => if existsb (keqb k) l' then unique l' else k :: unique l'
  end.

(** [df.groupby(key)]: the groups in ascending key order, every group
    keeping its rows in frame order. *)
Definition groupby (key : A -> K) (rows : list A) : list (K * list A) :=
  map (fun k => (k, filter (fun r => keqb (key r) k) rows))
      (sort_rows kleb (unique (map key rows))).
End Keys.
End Frames.

(** [Series.shift(1)] on a whole column. *)
Definition shift (A : Type) (col : list (option A)) : list (option A) :=
  firstn (length col) (None :: col).

(** [Series.ne]: elementwise "differs"; NaN differs from everything, NaN
    included. *)
Definition ne (a b : option Z) : bool :=
  match a, b with
  | Some x, Some y => negb (x =? y)
  | _, _ => true
  end.

(** [Series.cumsum] over booleans, started from [acc]. *)
Fixpoint cumsum_from (acc : Z) (col : list bool) : list Z :=
  match col with
  | [] => []
  | b :: col' =>
      let acc' := acc + (if b then 1 else 0) in
      acc' :: cumsum_from acc' col'
  end.

Definition cumsum (col : list bool) : list Z := cumsum_from 0 col.

(** [np.where(cond, 1, 0)] on one cell. *)
Definition np_where (cond : bool) : Z := if cond then 1 else 0.

(** [cell > threshold] for a nullable cell: NaT never compares greater. *)
Definition gt_cell (cell : option Z) (threshold : Z) : bool :=
  match cell with
  | Some x => threshold <? x
  | None => false
  end.

(** Elementwise combination of two aligned columns. *)
Definition zip_with (A B C : Type) (f : A -> B -> C) (l : list A) (m : list B)
    : list C :=
  map (fun p => f (fst p) (snd p)) (combine l m).

(* ================================================================== *)
(** * Step 1: data preprocessing (cells 4 to 7) *)

(** The largest value of an int64, which is the largest [Timestamp] and the
    largest [Timedelta] in nanoseconds; the smallest ones are its negative
    (the int64 below that is NaT). *)
Definition int64_max : Z := 9223372036854775807.

Definition fits_int64 (x : Z) : bool := (- int64_max <=? x) && (x <=? int64_max).

(** A [msg_time] cell of the CSV: text that names an instant (kept as that
    instant, after [tz_localize(None)]), or text that names none.  The
    input boundary has a timestamp text in every row, so an empty cell is
    not among the cases. *)
Inductive TimeCell : Type :=
| Stamp (t : Z)
| Garbage (text : string).

(** A row of the CSV as [pd.read_csv] delivers it.  [contract_id] is an
    integer in every row; [load_number] may be empty. *)
Record CsvRow : Type := mkCsvRow {
  csv_contract_id : Z;
  csv_msg_time    : TimeCell;
  csv_load_number : option Z;
  csv_payload     : list (string * string)   (* every other column: name, cell *)
}.

(** A row of [orig_df] once [msg_time] is a timestamp. *)
Record Rec : Type := mkRec {
  contract_id : Z;
  msg_time    : Z;
  load_number : option Z;
  payload     : list (string * string)
}.

(** [df[name] = ...] replaces a column of that name if the frame has one:
    the cell it held is gone. *)
Definition drop_cell (name : string) (cells : list (string * string))
    : list (string * string) :=
  filter (fun c => negb (String.eqb (fst c) name)) cells.

Definition overwrite (name : string) (r : Rec) : Rec :=
  mkRec (contract_id r) (msg_time r) (load_number r) (drop_cell name (payload r)).

(** [pd.to_datetime] with its default [errors='raise'] on one cell: it
    raises a ValueError on text that is no date and on a date that
    datetime64[ns] cannot hold. *)
Definition parse_time (c : TimeCell) : result Z :=
  match c with
  | Stamp t => if fits_int64 t then Ok t else Raised ParseError
  | Garbage _ => Raised ParseError
  end.

Definition parse_row (r : CsvRow) : result Rec :=
  t <- parse_time (csv_msg_time r) ;;
  Ok (mkRec (csv_contract_id r) t (csv_load_number r) (csv_payload r)).

(** Cell 5, first line: [orig_df['msg_time'] = pd.to_datetime(...)]. *)
Definition to_datetime (csv : list CsvRow) : result (list Rec) :=
  mapM parse_row csv.

(** [orig_df] with the [time_delta] column of cell 6. *)
Record Timed : Type := mkTimed {
  rec :> Rec;
  time_delta : option Z
}.

(** [orig_df.groupby('contract_id')['msg_time'].diff()], where it returns;
    [diff_overflows] below is the check that makes it raise. *)
Definition groupby_diff (rows : list Rec) : list (option Z) :=
  zip_with (fun r prev => option_map (fun p => msg_time r - p) prev)
           rows (groupby_shift contract_id msg_time rows).

(** [orig_df.loc[orig_df['time_delta'] > contract_gap_threshold,
    'time_delta'] = pd.NA] on one cell. *)
Definition null_outlier (s : Settings) (d : option Z) : option Z :=
  if gt_cell d (contract_gap_threshold s) then None else d.

(** The frame of cell 6, where the cell returns. *)
Definition add_time_delta (s : Settings) (rows : list Rec) : list Timed :=
  zip_with (fun r d => mkTimed (overwrite "time_delta" r) (null_outlier s d))
           rows (groupby_diff rows).

(** The subtraction inside [diff()] is checked: a difference that int64
    nanoseconds cannot hold raises OverflowError. *)
Definition diff_overflows (rows : list Rec) : bool :=
  existsb (fun d => match d with
                    | Some x => negb (fits_int64 x)
                    | None => false
                    end)
          (groupby_diff rows).

(** Cell 6. *)
Definition cell6 (s : Settings) (rows : list Rec) : result (list Timed) :=
  if diff_overflows rows then Raised OverflowError
  else Ok (add_time_delta s rows).

(** [orig_df] with the [group_number] column of cell 7. *)
Record Point : Type := mkPoint {
  timed :> Timed;
  group_number : Z
}.

(** [calculate_group_number]:
    [group['load_number'].ne(group['load_number'].shift()).cumsum()]. *)
Definition calculate_group_number (group : list Timed) : list Point :=
  let labels := map (fun r : Timed => load_number r) group in
  zip_with (fun (r : Timed) g =>
              mkPoint (mkTimed (overwrite "group_number" r) (time_delta r)) g)
           group (cumsum (zip_with ne labels (shift labels))).

(** [df.groupby('contract_id').apply(f).reset_index(drop=True)]: the results
    for the groups, stacked in ascending contract order. *)
Definition groupby_contract_apply (A B : Type) (contract_of : A -> Z)
    (f : list A -> list B) (rows : list A) : list B :=
  flat_map (fun g => f (snd g)) (groupby Z.eqb Z.leb contract_of rows).

(** Cell 7. *)
Definition assign_group_numbers (rows : list Timed) : list Point :=
  groupby_contract_apply (fun r : Timed => contract_id r) calculate_group_number
    (sort_values (fun r : Timed => msg_time r) rows).

(* ================================================================== *)
(** * Step 2: load group intervals (cells 9 and 11) *)

Record Interval : Type := mkInterval {
  contract       : Z;
  group          : Z;
  load           : option Z;
  msg_time_min   : Z;
  msg_time_max   : Z;
  time_delta_avg : option Z;
  total_points   : Z
}.

(** The non-null cells of a column. *)
Definition dropna (col : list (option Z)) : list Z :=
  flat_map (fun c => match c with Some x => [x] | None => [] end) col.

(** [Series.min()] / [Series.mean()] on the non-null cells;
    NaN when there is none.  The mean of timedeltas is again a timedelta, a
    whole number of nanoseconds: pandas divides in double precision and
    keeps the whole part, the embedding truncates the exact quotient. *)
Definition series_min (col : list Z) : option Z :=
  match col with
  | [] => None
  | x :: xs => Some (fold_left Z.min xs x)
  end.

Definition series_sum (col : list Z) : Z := fold_left Z.add col 0.

Definition series_mean (col : list Z) : option Z :=
  match col with
  | [] => None
  | _ :: _ => Some (Z.quot (series_sum col) (Z.of_nat (length col)))
  end.

Definition key_eqb (a b : Z * Z) : bool :=
  (fst a =? fst b) && (snd a =? snd b).

Definition key_leb (a b : Z * Z) : bool :=
  (fst a <? fst b) || ((fst a =? fst b) && (snd a <=? snd b)).

Definition point_key (p : Point) : Z * Z := (contract_id p, group_number p).

(** The body of the loop of cell 9 for one group [(idx, df)].  A group that
    [groupby] yields has a first row. *)
Definition interval_of_group (idx : Z * Z) (df : list Point) : list Interval :=
  match df with
  | [] => []
  | p :: ps =>
      [ {| contract       := fst idx;
           group          := snd idx;
           load           := series_min (dropna (map (fun q : Point => load_number q) df));
           msg_time_min   := fold_left Z.min (map (fun q : Point => msg_time q) ps) (msg_time p);
           msg_time_max   := fold_left Z.max (map (fun q : Point => msg_time q) ps) (msg_time p);
           time_delta_avg := series_mean (dropna (map (fun q : Point => time_delta q) df));
           total_points   := Z.of_nat (length df) |} ]
  end.

(** The loop of cell 9:
    [for idx, df in orig_df.groupby(['contract_id', 'group_number'])]. *)
Definition make_intervals (orig_df : list Point) : list Interval :=
  flat_map (fun g => interval_of_group (fst g) (snd g))
           (groupby key_eqb key_leb point_key orig_df).

(** Cell 9.  On a frame without rows [groupby('contract_id').apply] of cell
    7 has no group to call the function on, the frame comes back without a
    [group_number] column, and the [groupby] of this cell raises
    KeyError. *)
Definition cell9 (orig_df : list Point) : result (list Interval) :=
  match orig_df with
  | [] => Raised KeyError
  | _ :: _ => Ok (make_intervals orig_df)
  end.

(** Cell 11: the closed interval [[msg_time_min, msg_time_max]] and its
    length [x.right - x.left]. *)
Definition total_time (i : Interval) : Z := msg_time_max i - msg_time_min i.

(** [x.right - x.left] is a subtraction of two Timestamps, which raises
    OutOfBoundsDatetime when the result is more than a Timedelta holds. *)
Definition cell11 (group_intervals : list Interval) : result (list Interval) :=
  if existsb (fun i => negb (fits_int64 (total_time i))) group_intervals
  then Raised OutOfBoundsDatetime
  else Ok group_intervals.

(** [Interval.overlaps] for intervals closed on both sides. *)
Definition overlaps (a b : Interval) : bool :=
  (msg_time_min a <=? msg_time_max b) && (msg_time_min b <=? msg_time_max a).

(** The order of the [interval] column: by left end, then by right end. *)
Definition interval_leb (a b : Interval) : bool :=
  (msg_time_min a <? msg_time_min b)
  || ((msg_time_min a =? msg_time_min b) && (msg_time_max a <=? msg_time_max b)).

(* ================================================================== *)
(** * Flagging the load groups (cells 13 to 25) *)

(** [group_intervals] after cell 20: the six flags that read one row only. *)
Record Rated : Type := mkRated {
  ivl :> Interval;
  invalid_load_duration_short   : Z;
  invalid_load_duration_long    : Z;
  invalid_load_point_count_low  : Z;
  invalid_load_point_count_high : Z;
  invalid_load_reporting_gap    : Z;
  invalid_load_ping_rate        : Z
}.

(** [Timedelta.total_seconds()]: days, seconds and microseconds of the
    Timedelta, added up; what is left below a microsecond is not counted. *)
Definition nanos_per_microsecond : Z := 1000.
Definition micros_per_second : Z := 1000000.

Definition total_seconds (td : Z) : Q :=
  (inject_Z (td / nanos_per_microsecond) / inject_Z micros_per_second)%Q.

(** [x / n] in Python. *)
Definition py_div (x : Q) (n : Z) : result Q :=
  if n =? 0 then Raised ZeroDivisionError else Ok (x / inject_Z n)%Q.

(** [abs(x - y) > limit] where [y] may be NaN: every comparison with NaN is
    False. *)
Definition abs_diff_exceeds (x : Q) (y : option Q) (limit : Q) : bool :=
  match y with
  | Some y' => negb (Qle_bool (Qabs (x - y')%Q) limit)
  | None => false
  end.

(** Cell 20.  [NaT.total_seconds()] is NaN. *)
Definition flag_invalid_ping_rates (row : Interval) (ping_rate_threshold : Q)
    : result Z :=
  est_ping_rate <- py_div (total_seconds (total_time row)) (total_points row) ;;
  let time_delta_seconds := option_map total_seconds (time_delta_avg row) in
  if abs_diff_exceeds est_ping_rate time_delta_seconds ping_rate_threshold
  then Ok 1
  else Ok 0.

(** The type that [pd.DataFrame(interval_dict)] gives the [time_delta_avg]
    column: timedelta64[ns] when the list holds a Timedelta, and
    datetime64[ns] when it holds NaT alone. *)
Definition is_null (A : Type) (c : option A) : bool :=
  match c with
  | Some _ => false
  | None => true
  end.

Definition holds_nat_alone (col : list (option Z)) : bool := forallb (@is_null Z) col.

(** Cell 19 on one row of a timedelta64[ns] column. *)
Definition flag_reporting_gap (s : Settings) (row : Interval) : Z :=
  np_where (gt_cell (time_delta_avg row) (load_gap_threshold s)).

(** Cells 13 to 20 on one row. *)
Definition rate_interval (s : Settings) (row : Interval) : result Rated :=
  ping <- flag_invalid_ping_rates row (ping_rate_threshold s) ;;
  Ok {| ivl := row;
        invalid_load_duration_short   := np_where (total_time row <? duration_threshold_min s);
        invalid_load_duration_long    := np_where (duration_threshold_max s <? total_time row);
        invalid_load_point_count_low  := np_where (total_points row <? point_threshold_min s);
        invalid_load_point_count_high := np_where (point_threshold_max s <? total_points row);
        invalid_load_reporting_gap    := flag_reporting_gap s row;
        invalid_load_ping_rate        := ping |}.

(** Cells 13 to 20.  The comparison of cell 19 is made on the whole
    column, before any row of cell 20 is looked at: a datetime64[ns] column
    against a Timedelta raises TypeError. *)
Definition rate_intervals (s : Settings) (group_intervals : list Interval)
    : result (list Rated) :=
  if holds_nat_alone (map time_delta_avg group_intervals)
  then Raised TypeError
  else mapM (rate_interval s) group_intervals.

(** [group_intervals] after cell 21.  The function of that cell writes to a
    column called [invalid_duplicate_loads]. *)
Record Duped : Type := mkDuped {
  rated :> Rated;
  invalid_load_duplicate  : Z;
  invalid_duplicate_loads : option Z
}.

Definition cell_eqb (a b : option Z) : bool :=
  match a, b with
  | Some x, Some y => x =? y
  | None, None => true
  | _, _ => false
  end.

(** [Series.duplicated(keep=False)]: every cell whose value occurs more than
    once in the column; NaN cells count as equal to one another. *)
Definition duplicated_keep_false (col : list (option Z)) : list bool :=
  map (fun c => (1 <? length (filter (cell_eqb c) col))%nat) col.

(** [flag_duplicated_load_numbers], over any row type that has the two
    columns it touches:
      mask = df['load'].duplicated(keep=False)
      df.loc[mask, 'invalid_duplicate_loads'] = 1 *)
Definition flag_duplicated_load_numbers (R : Type) (load_of : R -> option Z)
    (set_invalid_duplicate_loads : R -> R) (df : list R) : list R :=
  let mask := duplicated_keep_false (map load_of df) in
  zip_with (fun r (m : bool) => if m then set_invalid_duplicate_loads r else r)
           df mask.

Definition duped_set_loads (r : Duped) : Duped :=
  mkDuped (rated r) (invalid_load_duplicate r) (Some 1).

(** Cell 21: [group_intervals['invalid_load_duplicate'] = 0], then the
    function per contract.  A cell of the new column that the function does
    not write is NaN. *)
Definition cell21 (group_intervals : list Rated) : list Duped :=
  groupby_contract_apply (fun r : Duped => contract r)
    (flag_duplicated_load_numbers (fun r : Duped => load r) duped_set_loads)
    (map (fun r => mkDuped r 0 None) group_intervals).

(** [group_intervals] after cell 22. *)
Record Overlapped : Type := mkOverlapped {
  duped :> Duped;
  invalid_load_overlap : Z
}.

Definition set_overlap (r : Overlapped) : Overlapped := mkOverlapped (duped r) 1.

(** [df.loc[i, column] = ...] on the row at position [i]. *)
Fixpoint update_at (A : Type) (i : nat) (f : A -> A) (df : list A) : list A :=
  match df, i with
  | [], _ => []
  | r :: rest, O => f r :: rest
  | r :: rest, S i' => r :: update_at i' f rest
  end.

(** [df.itertuples()]: the rows with their index. *)
Definition itertuples (A : Type) (df : list A) : list (nat * A) :=
  combine (seq 0 (length df)) df.

(** [check_overlaps]: the two nested loops over the rows of one contract. *)
Definition check_overlaps (df : list Overlapped) : list Overlapped :=
  fold_left (fun df1 (i : nat * Overlapped) =>
    fold_left (fun df2 (j : nat * Overlapped) =>
      if negb (fst i =? fst j)%nat && overlaps (snd i) (snd j)
      then update_at (fst i) set_overlap df2
      else df2) (itertuples df) df1) (itertuples df) df.

(** Cell 22: [group_intervals['invalid_load_overlap'] = 0], then the function
    per contract. *)
Definition cell22 (group_intervals : list Duped) : list Overlapped :=
  groupby_contract_apply (fun r : Overlapped => contract r) check_overlaps
    (map (fun r => mkOverlapped r 0) group_intervals).

(** [group_intervals] after cell 23. *)
Record Contig : Type := mkContig {
  overlapped :> Overlapped;
  time_diff : option Z;
  invalid_load_noncontiguous : Z
}.

(** [sort_values(['contract', 'interval'])]. *)
Definition contract_interval_leb (a b : Interval) : bool :=
  (contract a <? contract b)
  || ((contract a =? contract b) && interval_leb a b).

(** Cell 23. *)
Definition cell23 (s : Settings) (group_intervals : list Overlapped)
    : list Contig :=
  let sorted := sort_rows (fun a b : Overlapped => contract_interval_leb a b)
                          group_intervals in
  let shifted := groupby_shift (fun r : Overlapped => contract r)
                               (fun r : Overlapped => msg_time_max r) sorted in
  zip_with (fun (r : Overlapped) prev_max =>
              let d := option_map (fun m => Z.abs (msg_time_min r - m)) prev_max in
              mkContig r d (np_where (gt_cell d (load_gap_threshold s))))
           sorted shifted.

Definition contig_set_duplicate (v : Z) (r : Contig) : Contig :=
  mkContig
    (mkOverlapped (mkDuped (rated r) v (invalid_duplicate_loads r))
                  (invalid_load_overlap r))
    (time_diff r) (invalid_load_noncontiguous r).

Definition contig_set_loads (r : Contig) : Contig :=
  mkContig
    (mkOverlapped (mkDuped (rated r) (invalid_load_duplicate r) (Some 1))
                  (invalid_load_overlap r))
    (time_diff r) (invalid_load_noncontiguous r).

(** Cell 24: cell 21 once more, on the frame as it now is. *)
Definition cell24 (group_intervals : list Contig) : list Contig :=
  groupby_contract_apply (fun r : Contig => contract r)
    (flag_duplicated_load_numbers (fun r : Contig => load r) contig_set_loads)
    (map (contig_set_duplicate 0) group_intervals).

(** [group_intervals] after cell 25. *)
Record Verdict : Type := mkVerdict {
  contig :> Contig;
  invalid_load : Z
}.

(** The cells of [group_intervals[outlier_columns]] in one row. *)
Definition outlier_columns (r : Contig) : list Z :=
  [ invalid_load_duration_short r; invalid_load_duration_long r;
    invalid_load_point_count_low r; invalid_load_point_count_high r;
    invalid_load_reporting_gap r; invalid_load_ping_rate r;
    invalid_load_overlap r; invalid_load_noncontiguous r;
    invalid_load_duplicate r ].

(** [.any(axis=1).astype(int)] on one row: a cell is true when non-zero. *)
Definition any_astype_int (cells : list Z) : Z :=
  if existsb (fun c => negb (c =? 0)) cells then 1 else 0.

(** Cell 25. *)
Definition cell25 (group_intervals : list Contig) : list Verdict :=
  map (fun r => mkVerdict r (any_astype_int (outlier_columns r))) group_intervals.

(** Cells 9 to 25 together. *)
Definition flag_intervals (s : Settings) (orig_df : list Point)
    : result (list Verdict) :=
  group_intervals <- cell9 orig_df ;;
  group_intervals <- cell11 group_intervals ;;
  rated_intervals <- rate_intervals s group_intervals ;;
  Ok (cell25 (cell24 (cell23 s (cell22 (cell21 rated_intervals))))).

(* ================================================================== *)
(** * Rejoining the flags with the points (cells 27 and 28) *)

(** The flag columns that cell 27 selects, in its order. *)
Definition flag_columns : list string :=
  [ "invalid_load_duration_short"; "invalid_load_duration_long";
    "invalid_load_point_count_low"; "invalid_load_point_count_high";
    "invalid_load_reporting_gap"; "invalid_load_ping_rate";
    "invalid_load_overlap"; "invalid_load_noncontiguous";
    "invalid_load_duplicate"; "invalid_load" ]%string.

(** A row of [group_intervals_out]: the key and the ten flag cells. *)
Record FlagRow : Type := mkFlagRow {
  key_msg_time : Z;
  flag_cells   : list Z
}.

(** [group_intervals['msg_time'] = group_intervals['msg_time_min']] and the
    column selection. *)
Definition select_flags (r : Verdict) : FlagRow :=
  mkFlagRow (msg_time_min r)
    [ invalid_load_duration_short r; invalid_load_duration_long r;
      invalid_load_point_count_low r; invalid_load_point_count_high r;
      invalid_load_reporting_gap r; invalid_load_ping_rate r;
      invalid_load_overlap r; invalid_load_noncontiguous r;
      invalid_load_duplicate r; invalid_load r ].

Definition group_intervals_out (group_intervals : list Verdict) : list FlagRow :=
  map select_flags (sort_values (fun r : Verdict => msg_time_min r) group_intervals).

(** The backward search of [pd.merge_asof] for one left key [t]: walk down
    the right frame, which is sorted on the key, while its key is not after
    [t]; the last row passed is the match. *)
Fixpoint asof_backward (right : list FlagRow) (t : Z) (found : option FlagRow)
    : option FlagRow :=
  match right with
  | [] => found
  | r :: rest =>
      if key_msg_time r <=? t then asof_backward rest t (Some r) else found
  end.

Definition has_name (name : string) (names : list string) : bool :=
  existsb (String.eqb name) names.

(** A column name that both frames carry gets the suffix [_x] on the left
    and [_y] on the right.  (pandas refuses the merge when a suffixed name
    meets a name that the frame has already; the embedding does not go
    into that case.) *)
Definition suffix_left (right_names : list string) (c : string * string)
    : string * string :=
  if has_name (fst c) right_names then (fst c ++ "_x", snd c)%string else c.

Definition suffix_right (left_names : list string) (name : string) : string :=
  if has_name name left_names then (name ++ "_y")%string else name.

(** A row of [orig_df_out]. *)
Record Merged : Type := mkMerged {
  left_row    : Point;
  right_cells : list (string * option Z)   (* NaN where nothing matched *)
}.

Definition merge_row (p : Point) (m : option FlagRow) : Merged :=
  let cells :=
    match m with
    | Some r => map Some (flag_cells r)
    | None => map (fun _ => None) flag_columns
    end in
  mkMerged
    (mkPoint (mkTimed (mkRec (contract_id p) (msg_time p) (load_number p)
                             (map (suffix_left flag_columns) (payload p)))
                      (time_delta p))
             (group_number p))
    (combine (map (suffix_right (map fst (payload p))) flag_columns) cells).

(** [pd.merge_asof(left, right, on='msg_time')]: one output row per left
    row. *)
Definition merge_asof (left : list Point) (right : list FlagRow) : list Merged :=
  map (fun p => merge_row p (asof_backward right (msg_time p) None)) left.

(** Cell 27. *)
Definition backfill (orig_df : list Point) (group_intervals : list Verdict)
    : list Merged :=
  merge_asof (sort_values (fun p : Point => msg_time p) orig_df)
             (group_intervals_out group_intervals).

(** A row of the frame that is written out. *)
Record OutRow : Type := mkOutRow {
  out_rec   : Rec;
  out_flags : list (string * option Z)
}.

(** Cell 28: [drop(columns=['group_number', 'time_delta'])]. *)
Definition drop_working_columns (r : Merged) : OutRow :=
  mkOutRow (rec (left_row r)) (right_cells r).

(** The column names of an output row, the three key columns apart. *)
Definition payload_names (r : Rec) : list string := map fst (payload r).
Definition flag_names (r : OutRow) : list string := map fst (out_flags r).

(* ================================================================== *)
(** * The notebook, top to bottom *)

(** Cells 5 to 7: [orig_df] as the interval step reads it. *)
Definition preprocess (s : Settings) (csv : list CsvRow) : result (list Point) :=
  orig_df <- to_datetime csv ;;
  let orig_df := sort_values msg_time orig_df in
  orig_df <- cell6 s orig_df ;;
  Ok (assign_group_numbers orig_df).

Definition run (s : Settings) (csv : list CsvRow) : result (list OutRow) :=
  orig_df <- preprocess s csv ;;
  group_intervals <- flag_intervals s orig_df ;;
  Ok (map drop_working_columns (backfill orig_df group_intervals)).

(** The names that the notebook gives to columns of its own. *)
Definition reserved_columns : list string :=
  ("time_delta" :: "group_number" :: flag_columns)%string.

(** A line of the file that cell 28 writes.  [to_csv] is called with its
    defaults, so the index of the frame goes out as a first column under an
    empty name. *)
Record CsvLine : Type := mkCsvLine {
  line_index : Z;
  line_row   : OutRow
}.

(** [orig_df_out] carries the fresh index 0, 1, 2, ... of the merge. *)
Definition to_csv (frame : list OutRow) : list CsvLine :=
  zip_with mkCsvLine (map Z.of_nat (seq 0 (length frame))) frame.

Definition key_columns : list string :=
  [ "contract_id"; "msg_time"; "load_number" ]%string.

(** The header of the input, and the header that goes with a written line.
    The key columns are listed first here; in the files they stand where
    the input has them. *)
Definition input_columns (r : CsvRow) : list string :=
  key_columns ++ map fst (csv_payload r).

Definition written_columns (l : CsvLine) : list string :=
  ""%string :: key_columns
     ++ payload_names (out_rec (line_row l)) ++ flag_names (line_row l).

(** The notebook up to the written file. *)
Definition emit (s : Settings) (csv : list CsvRow) : result (list CsvLine) :=
  orig_df_out <- run s csv ;;
  Ok (to_csv orig_df_out).

(* ================================================================== *)
(** * Recursive readings of the column expressions

    The notebook writes its scans as whole-column expressions.  The
    definitions below say the same thing row by row; each is proved equal to
    the column expression before it is used. *)

(** The [ne(shift())] column, read with the label of the row above. *)
Fixpoint changes (prev : option Z) (labels : list (option Z)) : list bool :=
  match labels with
  | [] => []
  | a :: rest => ne a prev :: changes a rest
  end.

(** [calculate_group_number] as one forward scan: [acc] is the number of
    the row above and [prev] its label. *)
Fixpoint number_from (acc : Z) (prev : option Z) (group : list Timed)
    : list Point :=
  match group with
  | [] => []
  | r :: rest =>
      let acc' := acc + (if ne (load_number r) prev then 1 else 0) in
      mkPoint (mkTimed (overwrite "group_number" r) (time_delta r)) acc'
        :: number_from acc' (load_number r) rest
  end.

(** The keys of [df.groupby(key)], in the order the groups come. *)
Definition group_keys (A K : Type) (keqb kleb : K -> K -> bool) (key : A -> K)
    (rows : list A) : list K :=
  sort_rows kleb (unique keqb (map key rows)).

(** The rows of one group. *)
Definition get_group (A K : Type) (keqb : K -> K -> bool) (key : A -> K)
    (rows : list A) (k : K) : list A :=
  filter (fun r => keqb (key r) k) rows.

(** The cells of a row that the notebook reads. *)
Definition core_of (r : Rec) : Z * Z * option Z :=
  (contract_id r, msg_time r, load_number r).

Definition interval_key (i : Interval) : Z * Z := (contract i, group i).

(** The sum of the [total_points] column over the intervals of a contract. *)
Definition contract_points (c : Z) (intervals : list Interval) : Z :=
  series_sum (map total_points (filter (fun i => contract i =? c) intervals)).

(** The number of rows of a contract. *)
Definition contract_rows (A : Type) (contract_of : A -> Z) (c : Z)
    (rows : list A) : Z :=
  Z.of_nat (length (filter (fun r => contract_of r =? c) rows)).

(** The reading of the specification for unparseable timestamps: the rows
    that parse are processed and come out, the others are left out. *)
Definition parses (r : CsvRow) : bool :=
  match csv_msg_time r with
  | Stamp t => fits_int64 t
  | Garbage _ => false
  end.

Definition rejects_only_offending_rows (s : Settings) (csv : list CsvRow) : Prop :=
  exists out, run s csv = Ok out /\ length out = length (filter parses csv).

(** Cell 23 read row by row over the sorted frame: [seen] holds the rows
    above, nearest first. *)
Fixpoint contig_from (s : Settings) (seen rows : list Overlapped) : list Contig :=
  match rows with
  | [] => []
  | r :: rest =>
      let prev_max := option_map (fun p : Overlapped => msg_time_max p)
                        (prev_in_group (fun p : Overlapped => contract p) seen r) in
      let d := option_map (fun m => Z.abs (msg_time_min r - m)) prev_max in
      mkContig r d (np_where (gt_cell d (load_gap_threshold s)))
        :: contig_from s (r :: seen) rest
  end.

(** What a row of the interval table says about contiguity: the interval
    and its flag. *)
Definition contiguity_of (r : Contig) : Interval * Z :=
  (ivl r, invalid_load_noncontiguous r).

(** What a row of the interval table says about overlap: the interval and
    its flag. *)
Definition overlap_of (r : Overlapped) : Interval * Z :=
  (ivl r, invalid_load_overlap r).

(** The test of the inner loop of [check_overlaps] for the pair [(i, j)]. *)
Definition overlap_hit (i j : nat * Overlapped) : bool :=
  negb (fst i =? fst j)%nat && overlaps (snd i) (snd j).

(** The CSV row that an output row stands for: its key cells and its
    passthrough cells. *)
Definition csv_of (r : Rec) : CsvRow :=
  mkCsvRow (contract_id r) (Stamp (msg_time r)) (load_number r) (payload r).

(** The frame that cell 28 hands to [to_csv], when all goes as intended:
    one row per input row with the key and passthrough cells as they came,
    under the ten flag columns, and no working column left. *)
Definition frame_as_intended (csv : list CsvRow) (out : list OutRow) : Prop :=
  length out = length csv
  /\ Permutation (map (fun o => csv_of (out_rec o)) out) csv
  /\ forall o, In o out ->
       flag_names o = flag_columns
       /\ ~ In "time_delta"%string (payload_names (out_rec o))
       /\ ~ In "group_number"%string (payload_names (out_rec o)).

(** The input row that a written line stands for. *)
Definition source_row (l : CsvLine) : CsvRow := csv_of (out_rec (line_row l)).

(** The reading of the specification for the emitted output: one line per
    input row with the cells of that row, whose columns are those of the
    input followed by the ten flag columns, no working column among
    them. *)
Definition output_as_specified (csv : list CsvRow) (written : list CsvLine)
    : Prop :=
  length written = length csv
  /\ Permutation (map source_row written) csv
  /\ forall l, In l written ->
       written_columns l = input_columns (source_row l) ++ flag_columns
       /\ ~ In "time_delta"%string (written_columns l)
       /\ ~ In "group_number"%string (written_columns l).

(** The same with the column that [to_csv] puts in front. *)
Definition output_as_written (csv : list CsvRow) (written : list CsvLine)
    : Prop :=
  length written = length csv
  /\ Permutation (map source_row written) csv
  /\ forall l, In l written ->
       written_columns l
       = ""%string :: input_columns (source_row l) ++ flag_columns
       /\ ~ In "time_delta"%string (written_columns l)
       /\ ~ In "group_number"%string (written_columns l).

(** No passthrough column of the input carries a name that the notebook
    uses for a column of its own. *)
Definition no_reserved_column (csv : list CsvRow) : Prop :=
  forall r name,
    In r csv -> In name (map fst (csv_payload r)) -> ~ In name reserved_columns.

(* ================================================================== *)
(** * Sample inputs *)

Definition csv_row (c t : Z) (l : option Z) : CsvRow := mkCsvRow c (Stamp t) l [].

(** One contract whose load numbers run 1, 1, 2, 2, 1, 1. *)
Definition repeated_label_csv : list CsvRow :=
  [ csv_row 7 (seconds 0) (Some 1); csv_row 7 (seconds 10) (Some 1);
    csv_row 7 (seconds 20) (Some 2); csv_row 7 (seconds 30) (Some 2);
    csv_row 7 (seconds 40) (Some 1); csv_row 7 (seconds 50) (Some 1) ].

(** Two contracts whose points interleave in time. *)
Definition two_contracts_csv : list CsvRow :=
  [ csv_row 1 (hours 0) (Some 1); csv_row 2 (hours 1) (Some 7);
    csv_row 1 (hours 2) (Some 1) ].

(** One contract with two points on the same timestamp, where the load
    number changes. *)
Definition tie_csv : list CsvRow :=
  [ csv_row 7 (seconds 0) (Some 1); csv_row 7 (seconds 10) (Some 1);
    csv_row 7 (seconds 10) (Some 2); csv_row 7 (seconds 20) (Some 2) ].

(** A good row followed by a row whose timestamp does not parse. *)
Definition garbled_csv : list CsvRow :=
  [ csv_row 7 (seconds 0) (Some 1);
    mkCsvRow 7 (Garbage "yesterday") (Some 1) [] ].

(** Two rows that bring a passthrough column called [time_delta]. *)
Definition clashing_csv : list CsvRow :=
  [ mkCsvRow 7 (Stamp (seconds 0)) (Some 1) [("time_delta", "12")%string];
    mkCsvRow 7 (Stamp (seconds 10)) (Some 1) [("time_delta", "15")%string] ].

(** A file of one record. *)
Definition single_record_csv : list CsvRow :=
  [ csv_row 7 (seconds 0) (Some 1) ].

(** One contract with a pause of 50 s where the load number changes. *)
Definition gap_csv : list CsvRow :=
  [ csv_row 7 (seconds 0) (Some 1); csv_row 7 (seconds 10) (Some 1);
    csv_row 7 (seconds 60) (Some 2); csv_row 7 (seconds 70) (Some 2) ].


Definition value_of (A : Type) (r : result (list A)) : list A :=
  match r with
  | Ok l => l
  | Raised _ => []
  end.

Definition tie_points : list Point :=
  Eval vm_compute in value_of (preprocess notebook_settings tie_csv).

Definition tie_table : list Verdict :=
  Eval vm_compute in value_of (flag_intervals notebook_settings tie_points).

Definition tie_timed : list Timed :=
  Eval vm_compute in map timed tie_points.

Definition tie_overlapped : list Overlapped :=
  Eval vm_compute in map (fun v : Verdict => overlapped v) tie_table.

(** An interval of one point: there is no time delta to average. *)
Definition lone_interval : Interval :=
  {| contract := 7; group := 1; load := Some 1;
     msg_time_min := 0; msg_time_max := 0;
     time_delta_avg := None; total_points := 1 |}.

(** Cell 6 read row by row: [seen] holds the rows above, nearest first. *)
Fixpoint delta_from (s : Settings) (seen rows : list Rec) : list Timed :=
  match rows with
  | [] => []
  | r :: rest =>
      mkTimed (overwrite "time_delta" r)
              (null_outlier s
                 (option_map (fun p : Rec => msg_time r - msg_time p)
                             (prev_in_group contract_id seen r)))
        :: delta_from s (r :: seen) rest
  end.

(** The same for the rows of one contract alone: [prev] is the [msg_time]
    of the row above. *)
Fixpoint delta_chain (s : Settings) (prev : option Z) (rows : list Rec)
    : list Timed :=
  match rows with
  | [] => []
  | r :: rest =>
      mkTimed (overwrite "time_delta" r)
              (null_outlier s (option_map (fun p => msg_time r - p) prev))
        :: delta_chain s (Some (msg_time r)) rest
  end.

Definition repeated_points : list Point :=
  Eval vm_compute in value_of (preprocess notebook_settings repeated_label_csv).

Definition repeated_table : list Verdict :=
  Eval vm_compute in value_of (flag_intervals notebook_settings repeated_points).

Definition repeated_rated : list Rated :=
  Eval vm_compute in map (fun v : Verdict => rated v) repeated_table.

Definition tie_recs : list Rec :=
  Eval vm_compute in value_of (to_datetime tie_csv).

Definition gap_points : list Point :=
  Eval vm_compute in value_of (preprocess notebook_settings gap_csv).

Definition gap_table : list Verdict :=
  Eval vm_compute in value_of (flag_intervals notebook_settings gap_points).

Definition gap_overlapped : list Overlapped :=
  Eval vm_compute in map (fun v : Verdict => overlapped v) gap_table.

Definition two_contracts_intervals : list Interval :=
  Eval vm_compute in
    make_intervals (value_of (preprocess notebook_settings two_contracts_csv)).

(* ================================================================== *)
(** * Facts about lists and columns *)

Section ColumnFacts.
Variables A B C : Type.

Lemma zip_with_nil_r (f : A -> B -> C) l : zip_with f l [] = [].
Proof. unfold zip_with. destruct l; reflexivity. Qed.

Lemma zip_with_cons (f : A -> B -> C) a l b m :
  zip_with f (a :: l) (b :: m) = f a b :: zip_with f l m.
Proof. reflexivity. Qed.

Lemma zip_with_length (f : A -> B -> C) l m :
  length l = length m -> length (zip_with f l m) = length l.
Proof.
  intros H. unfold zip_with. rewrite length_map, length_combine. lia.
Qed.

(** A projection that only reads the left argument sees the left column. *)
Lemma map_zip_with_l (D : Type) (f : A -> B -> C) (g : C -> D) (h : A -> D) :
  (forall a b, g (f a b) = h a) ->
  forall l m, length l = length m -> map g (zip_with f l m) = map h l.
Proof.
  intros Hg. induction l as [|a l IH]; intros [|b m] Hlen;
    try discriminate; [reflexivity|].
  rewrite zip_with_cons. simpl map. rewrite Hg. f_equal.
  apply IH. simpl in Hlen. lia.
Qed.

Lemma map_zip_with_r (D : Type) (f : A -> B -> C) (g : C -> D) (h : B -> D) :
  (forall a b, g (f a b) = h b) ->
  forall l m, length l = length m -> map g (zip_with f l m) = map h m.
Proof.
  intros Hg. induction l as [|a l IH]; intros [|b m] Hlen;
    try discriminate; [reflexivity|].
  rewrite zip_with_cons. simpl map. rewrite Hg. f_equal.
  apply IH. simpl in Hlen. lia.
Qed.
End ColumnFacts.

Lemma mapM_length (A B : Type) (f : A -> result B) l out :
  mapM f l = Ok out -> length out = length l.
Proof.
  revert out. induction l as [|a l IH]; simpl; intros out H.
  - inversion H. reflexivity.
  - destruct (f a) as [b|e]; simpl in H; [|discriminate].
    destruct (mapM f l) as [bs|e]; simpl in H; [|discriminate].
    inversion H. simpl. f_equal. apply IH. reflexivity.
Qed.

Lemma mapM_Forall2 (A B : Type) (f : A -> result B) l out :
  mapM f l = Ok out -> Forall2 (fun a b => f a = Ok b) l out.
Proof.
  revert out. induction l as [|a l IH]; simpl; intros out H.
  - inversion H. constructor.
  - destruct (f a) as [b|e] eqn:Ea; simpl in H; [|discriminate].
    destruct (mapM f l) as [bs|e]; simpl in H; [|discriminate].
    inversion H. constructor; auto.
Qed.

Lemma mapM_total (A B : Type) (f : A -> result B) l :
  (forall a, In a l -> exists b, f a = Ok b) -> exists out, mapM f l = Ok out.
Proof.
  induction l as [|a l IH]; simpl; intros H.
  - eexists. reflexivity.
  - destruct (H a (or_introl eq_refl)) as [b Hb]. rewrite Hb. simpl.
    destruct IH as [bs Hbs]; [intros; apply H; auto|].
    rewrite Hbs. simpl. eexists. reflexivity.
Qed.

Lemma mapM_raises (A B : Type) (f : A -> result B) l a :
  In a l -> f a = Raised ParseError ->
  (forall a' e', In a' l -> f a' = Raised e' -> e' = ParseError) ->
  mapM f l = Raised ParseError.
Proof.
  induction l as [|x l IH]; intros Hin Ha Huniq; [contradiction|].
  simpl. destruct (f x) as [b|e'] eqn:Ex; simpl.
  - destruct Hin as [Hx|Hin]; [subst x; congruence|].
    rewrite (IH Hin Ha); [reflexivity|].
    intros a' e' Hin' Ha'. apply (Huniq a' e'); [right; exact Hin'|exact Ha'].
  - f_equal. apply (Huniq x e'); [left; reflexivity|exact Ex].
Qed.

(* ------------------------------------------------------------------ *)
(** ** Sorting *)

Section SortFacts.
Variable A : Type.
Variable leb : A -> A -> bool.

Lemma insert_row_perm x l : Permutation (insert_row leb x l) (x :: l).
Proof.
  induction l as [|y l IH]; simpl; [reflexivity|].
  destruct (leb x y); [reflexivity|].
  rewrite IH. apply perm_swap.
Qed.

Lemma sort_rows_perm l : Permutation (sort_rows leb l) l.
Proof.
  induction l as [|x l IH]; simpl; [reflexivity|].
  rewrite insert_row_perm. constructor. exact IH.
Qed.

Lemma sort_rows_length l : length (sort_rows leb l) = length l.
Proof. apply Permutation_length, sort_rows_perm. Qed.

Lemma sort_rows_In x l : In x (sort_rows leb l) <-> In x l.
Proof.
  split; apply Permutation_in; [|symmetry]; apply sort_rows_perm.
Qed.

Hypothesis leb_total : forall x y, leb x y = true \/ leb y x = true.
Hypothesis leb_trans : forall x y z,
  leb x y = true -> leb y z = true -> leb x z = true.

Lemma insert_row_sorted x l :
  StronglySorted (fun a b => leb a b = true) l ->
  StronglySorted (fun a b => leb a b = true) (insert_row leb x l).
Proof.
  induction 1 as [|y l Hl IH Hy]; simpl.
  - repeat constructor.
  - destruct (leb x y) eqn:E.
    + constructor; [constructor; assumption|].
      constructor; [exact E|].
      eapply Forall_impl; [|exact Hy]. intros z Hz. eapply leb_trans; eauto.
    + constructor; [exact IH|].
      eapply Permutation_Forall.
      * symmetry. apply insert_row_perm.
      * constructor; [|exact Hy].
        destruct (leb_total x y) as [H|H]; [congruence|exact H].
Qed.

Lemma sort_rows_sorted l :
  StronglySorted (fun a b => leb a b = true) (sort_rows leb l).
Proof.
  induction l as [|x l IH]; simpl; [constructor|].
  apply insert_row_sorted. exact IH.
Qed.
End SortFacts.

Lemma StronglySorted_weaken (A : Type) (R R' : A -> A -> Prop) l :
  (forall x y, R x y -> R' x y) -> StronglySorted R l -> StronglySorted R' l.
Proof.
  intros HR. induction 1 as [|x l Hl IH Hx]; constructor; auto.
  eapply Forall_impl; [|exact Hx]. auto.
Qed.

Lemma StronglySorted_filter (A : Type) (R : A -> A -> Prop) f l :
  StronglySorted R l -> StronglySorted R (filter f l).
Proof.
  induction 1 as [|x l Hl IH Hx]; simpl; [constructor|].
  destruct (f x); auto. constructor; auto.
  rewrite Forall_forall in *. intros y Hy. apply Hx.
  apply filter_In in Hy. tauto.
Qed.

Lemma sort_values_sorted (A : Type) (key : A -> Z) l :
  StronglySorted (fun x y => key x <= key y) (sort_values key l).
Proof.
  unfold sort_values.
  apply StronglySorted_weaken
    with (R := fun x y => (key x <=? key y) = true).
  - intros x y H. apply Z.leb_le. exact H.
  - apply sort_rows_sorted.
    + intros x y. rewrite !Z.leb_le. lia.
    + intros x y z. rewrite !Z.leb_le. lia.
Qed.

Lemma sort_values_perm (A : Type) (key : A -> Z) l :
  Permutation (sort_values key l) l.
Proof. apply sort_rows_perm. Qed.

(* ------------------------------------------------------------------ *)
(** ** Grouping *)

Section GroupFacts.
Variables A K : Type.
Variable keqb : K -> K -> bool.
Variable key : A -> K.
Hypothesis keqb_spec : forall a b, keqb a b = true <-> a = b.

Lemma keqb_refl k : keqb k k = true.
Proof. apply keqb_spec. reflexivity. Qed.

Lemma keqb_neq a b : a <> b -> keqb a b = false.
Proof.
  intros H. destruct (keqb a b) eqn:E; [|reflexivity].
  apply keqb_spec in E. contradiction.
Qed.

Lemma existsb_keqb k l : existsb (keqb k) l = true <-> In k l.
Proof.
  rewrite existsb_exists. split.
  - intros [x [Hx E]]. apply keqb_spec in E. subst. exact Hx.
  - intros H. exists k. split; [exact H|apply keqb_refl].
Qed.

Lemma unique_In k l : In k (unique keqb l) <-> In k l.
Proof.
  induction l as [|x l IH]; simpl; [tauto|].
  destruct (existsb (keqb x) l) eqn:E; simpl.
  - apply existsb_keqb in E. rewrite IH. split; [tauto|].
    intros [->|H]; assumption.
  - rewrite IH. tauto.
Qed.

Lemma unique_NoDup l : NoDup (unique keqb l).
Proof.
  induction l as [|x l IH]; simpl; [constructor|].
  destruct (existsb (keqb x) l) eqn:E; [exact IH|].
  constructor; [|exact IH].
  rewrite unique_In. intros H. apply existsb_keqb in H. congruence.
Qed.

Lemma get_group_In rows k r :
  In r (get_group keqb key rows k) <-> In r rows /\ key r = k.
Proof.
  unfold get_group. rewrite filter_In, keqb_spec. tauto.
Qed.

Variable kleb : K -> K -> bool.

Lemma group_keys_NoDup rows : NoDup (group_keys keqb kleb key rows).
Proof.
  unfold group_keys. eapply Permutation_NoDup.
  - symmetry. apply sort_rows_perm.
  - apply unique_NoDup.
Qed.

Lemma group_keys_In k rows :
  In k (group_keys keqb kleb key rows) <-> exists r, In r rows /\ key r = k.
Proof.
  unfold group_keys. rewrite sort_rows_In, unique_In, in_map_iff.
  split; intros [r [H1 H2]]; exists r; tauto.
Qed.

Lemma groupby_groups rows :
  groupby keqb kleb key rows
  = map (fun k => (k, get_group keqb key rows k)) (group_keys keqb kleb key rows).
Proof. reflexivity. Qed.

(** Every group that [groupby] yields has a row. *)
Lemma get_group_nonempty rows k :
  In k (group_keys keqb kleb key rows) -> get_group keqb key rows k <> [].
Proof.
  intros H E. apply group_keys_In in H. destruct H as [r [Hr Hk]].
  assert (Hin : In r (get_group keqb key rows k))
    by (apply get_group_In; tauto).
  rewrite E in Hin. exact Hin.
Qed.

Lemma filter_split (f : A -> bool) (l : list A) :
  Permutation (filter f l ++ filter (fun r => negb (f r)) l) l.
Proof.
  induction l as [|x l IH]; simpl; [reflexivity|].
  destruct (f x); simpl.
  - constructor. exact IH.
  - rewrite <- Permutation_middle. constructor. exact IH.
Qed.

Lemma filter_filter_imp (f g : A -> bool) (l : list A) :
  (forall r, In r l -> f r = true -> g r = true) ->
  filter f (filter g l) = filter f l.
Proof.
  induction l as [|x l IH]; simpl; intros H; [reflexivity|].
  destruct (g x) eqn:Eg; simpl.
  - destruct (f x); rewrite IH; auto.
  - destruct (f x) eqn:Ef.
    + rewrite (H x (or_introl eq_refl) Ef) in Eg. discriminate.
    + apply IH. auto.
Qed.

(** The groups of a list of distinct keys that covers the rows are the
    rows again, rearranged. *)
Lemma groups_partition ks :
  NoDup ks ->
  forall rows, (forall r, In r rows -> In (key r) ks) ->
  Permutation (flat_map (get_group keqb key rows) ks) rows.
Proof.
  induction 1 as [|k ks Hk Hks IH]; intros rows Hcover.
  - destruct rows as [|r rows]; [reflexivity|].
    destruct (Hcover r (or_introl eq_refl)).
  - simpl.
    set (rest := filter (fun r => negb (keqb (key r) k)) rows).
    assert (Hrest : flat_map (get_group keqb key rows) ks
                    = flat_map (get_group keqb key rest) ks).
    { rewrite !flat_map_concat_map. f_equal. apply map_ext_in.
      intros k' Hk'. unfold get_group, rest. symmetry.
      apply filter_filter_imp. intros r _ E.
      apply keqb_spec in E. rewrite E.
      rewrite keqb_neq; [reflexivity|]. intros ->. contradiction. }
    rewrite Hrest.
    rewrite (IH rest).
    + apply filter_split.
    + intros r Hr. unfold rest in Hr. apply filter_In in Hr.
      destruct Hr as [Hr Hne]. destruct (Hcover r Hr) as [E|Hin]; [|exact Hin].
      subst k. rewrite keqb_refl in Hne. discriminate.
Qed.

Lemma groupby_partition rows :
  Permutation
    (flat_map (get_group keqb key rows) (group_keys keqb kleb key rows)) rows.
Proof.
  apply groups_partition.
  - apply group_keys_NoDup.
  - intros r Hr. apply group_keys_In. exists r. tauto.
Qed.
End GroupFacts.

Lemma filter_all (A : Type) (f : A -> bool) l :
  (forall x, In x l -> f x = true) -> filter f l = l.
Proof.
  induction l as [|x l IH]; simpl; intros H; [reflexivity|].
  rewrite (H x (or_introl eq_refl)). f_equal. apply IH. auto.
Qed.

Lemma filter_none (A : Type) (f : A -> bool) l :
  (forall x, In x l -> f x = false) -> filter f l = [].
Proof.
  induction l as [|x l IH]; simpl; intros H; [reflexivity|].
  rewrite (H x (or_introl eq_refl)). apply IH. auto.
Qed.

Lemma Permutation_flat_map_pieces (A B : Type) (F G : A -> list B) ks :
  (forall k, In k ks -> Permutation (F k) (G k)) ->
  Permutation (flat_map F ks) (flat_map G ks).
Proof.
  induction ks as [|k ks IH]; simpl; intros H; [reflexivity|].
  apply Permutation_app; auto.
Qed.

Lemma map_flat_map (A B C : Type) (g : B -> C) (F : A -> list B) ks :
  map g (flat_map F ks) = flat_map (fun k => map g (F k)) ks.
Proof.
  induction ks as [|k ks IH]; simpl; [reflexivity|].
  rewrite map_app, IH. reflexivity.
Qed.

Lemma Zeqb_spec (a b : Z) : (a =? b) = true <-> a = b.
Proof. apply Z.eqb_eq. Qed.

(** ** [groupby('contract').apply(f)] *)

Section ApplyFacts.
Variables A B : Type.
Variable contract_of : A -> Z.
Variable contract_of' : B -> Z.
Variable f : list A -> list B.

Lemma groupby_contract_apply_groups rows :
  groupby_contract_apply contract_of f rows
  = flat_map (fun k => f (get_group Z.eqb contract_of rows k))
             (group_keys Z.eqb Z.leb contract_of rows).
Proof.
  unfold groupby_contract_apply. rewrite groupby_groups.
  rewrite !flat_map_concat_map, map_map. reflexivity.
Qed.

(** What [f] returns for a group belongs to the contract of the group. *)
Hypothesis f_keeps_contract : forall g k,
  (forall r, In r g -> contract_of r = k) ->
  forall r', In r' (f g) -> contract_of' r' = k.
Hypothesis f_nil : f [] = [].

Lemma filter_groups c ks (G : Z -> list A) :
  NoDup ks ->
  (forall k r, In r (G k) -> contract_of r = k) ->
  filter (fun r' => contract_of' r' =? c) (flat_map (fun k => f (G k)) ks)
  = if existsb (Z.eqb c) ks then f (G c) else [].
Proof.
  intros Hnd HG. induction Hnd as [|k ks Hk Hks IH]; simpl; [reflexivity|].
  rewrite filter_app, IH.
  destruct (c =? k) eqn:E; simpl.
  - apply Z.eqb_eq in E. subst k.
    replace (existsb (Z.eqb c) ks) with false.
    + rewrite app_nil_r. apply filter_all. intros r' Hr'.
      apply Z.eqb_eq. eapply f_keeps_contract; [|exact Hr'].
      intros r Hr. eapply HG. exact Hr.
    + symmetry. destruct (existsb (Z.eqb c) ks) eqn:E'; [|reflexivity].
      apply (existsb_keqb _ Zeqb_spec) in E'. contradiction.
  - rewrite filter_none; [reflexivity|].
    intros r' Hr'. apply Z.eqb_neq. intros Hc.
    assert (contract_of' r' = k).
    { eapply f_keeps_contract; [|exact Hr']. intros r Hr. eapply HG. exact Hr. }
    apply Z.eqb_neq in E. congruence.
Qed.

(** The rows of one contract in the stacked result are the result for
    that contract's group. *)
Lemma groupby_contract_apply_filter c rows :
  filter (fun r' => contract_of' r' =? c)
         (groupby_contract_apply contract_of f rows)
  = f (filter (fun r => contract_of r =? c) rows).
Proof.
  rewrite groupby_contract_apply_groups.
  rewrite filter_groups.
  - destruct (existsb (Z.eqb c) (group_keys Z.eqb Z.leb contract_of rows)) eqn:E.
    + reflexivity.
    + rewrite filter_none; [symmetry; exact f_nil|].
      intros r Hr. apply Z.eqb_neq. intros Hc.
      assert (H : existsb (Z.eqb c) (group_keys Z.eqb Z.leb contract_of rows) = true).
      { apply (existsb_keqb _ Zeqb_spec). apply (group_keys_In _ _ Zeqb_spec).
        exists r. tauto. }
      congruence.
  - apply (group_keys_NoDup _ _ Zeqb_spec).
  - intros k r Hr. apply (get_group_In _ _ Zeqb_spec) in Hr. tauto.
Qed.
End ApplyFacts.

(** Stacking the per-contract results rearranges the rows, whatever a
    projection [g] reads, as long as [f] keeps what [g] reads. *)
Lemma groupby_contract_apply_perm (A B C : Type) (contract_of : A -> Z)
    (f : list A -> list B) (g : B -> C) (h : A -> C) rows :
  (forall df, map g (f df) = map h df) ->
  Permutation (map g (groupby_contract_apply contract_of f rows)) (map h rows).
Proof.
  intros Hf. rewrite groupby_contract_apply_groups, map_flat_map.
  rewrite (Permutation_flat_map_pieces
             (fun k => map g (f (get_group Z.eqb contract_of rows k)))
             (fun k => map h (get_group Z.eqb contract_of rows k))).
  - rewrite <- map_flat_map. apply Permutation_map.
    apply (groupby_partition _ _ Zeqb_spec).
  - intros k _. rewrite Hf. reflexivity.
Qed.

(* ================================================================== *)
(** * Step 1: the load segmenter *)

Lemma shift_changes (prev : option Z) labels :
  zip_with ne labels (firstn (length labels) (prev :: labels))
  = changes prev labels.
Proof.
  revert prev. induction labels as [|a l IH]; intros prev; [reflexivity|].
  simpl length. simpl firstn. rewrite zip_with_cons. simpl. f_equal. apply IH.
Qed.

Lemma calculate_group_number_scan_from acc prev group :
  zip_with (fun (r : Timed) g =>
              mkPoint (mkTimed (overwrite "group_number" r) (time_delta r)) g)
           group
           (cumsum_from acc (changes prev (map (fun r : Timed => load_number r) group)))
  = number_from acc prev group.
Proof.
  revert acc prev. induction group as [|r rest IH]; intros acc prev; [reflexivity|].
  simpl map. simpl changes. simpl cumsum_from. rewrite zip_with_cons.
  simpl. f_equal. apply IH.
Qed.

(** The column expression of [calculate_group_number] is one forward scan. *)
Lemma calculate_group_number_scan group :
  calculate_group_number group = number_from 0 None group.
Proof.
  unfold calculate_group_number, shift, cumsum.
  rewrite shift_changes. apply calculate_group_number_scan_from.
Qed.

Lemma number_from_length acc prev group :
  length (number_from acc prev group) = length group.
Proof.
  revert acc prev. induction group as [|r rest IH]; intros; simpl; auto.
Qed.


Lemma number_from_lower acc prev group p :
  In p (number_from acc prev group) -> acc <= group_number p.
Proof.
  revert acc prev. induction group as [|r rest IH]; intros acc prev; simpl;
    [contradiction|].
  intros [<-|H].
  - simpl. destruct (ne (load_number r) prev); lia.
  - apply IH in H. destruct (ne (load_number r) prev); lia.
Qed.

Lemma number_from_step acc prev group i p q :
  nth_error (number_from acc prev group) i = Some p ->
  nth_error (number_from acc prev group) (S i) = Some q ->
  group_number q
  = if ne (load_number q) (load_number p)
    then group_number p + 1 else group_number p.
Proof.
  revert acc prev i. induction group as [|r rest IH]; intros acc prev i;
    [destruct i; discriminate|].
  destruct i as [|i]; simpl.
  - intros Hp Hq. inversion Hp; subst p; clear Hp.
    destruct rest as [|r' rest]; [discriminate|].
    simpl in Hq. inversion Hq; subst q; clear Hq. simpl.
    destruct (ne (load_number r') (load_number r)); lia.
  - apply IH.
Qed.

Lemma number_from_monotone acc prev group i j p q :
  (i <= j)%nat ->
  nth_error (number_from acc prev group) i = Some p ->
  nth_error (number_from acc prev group) j = Some q ->
  group_number p <= group_number q.
Proof.
  revert acc prev i j. induction group as [|r rest IH]; intros acc prev i j Hij;
    [destruct i; discriminate|].
  destruct i as [|i]; destruct j as [|j]; simpl; try lia.
  - intros Hp Hq. inversion Hp; inversion Hq. lia.
  - intros Hp Hq. inversion Hp; subst p; clear Hp. simpl.
    apply nth_error_In, number_from_lower in Hq. exact Hq.
  - apply IH. lia.
Qed.

Lemma number_from_first acc group p :
  nth_error (number_from acc None group) 0 = Some p -> group_number p = acc + 1.
Proof.
  destruct group as [|r rest]; [discriminate|]. simpl.
  intros H. inversion H. simpl.
  destruct (load_number r); reflexivity.
Qed.

(** Every numbered point is one of the rows, with its cells. *)
Lemma number_from_In acc prev group (p : Point) :
  In p (number_from acc prev group) ->
  exists r : Timed,
    In r group /\ contract_id p = contract_id r /\ msg_time p = msg_time r
    /\ load_number p = load_number r /\ time_delta p = time_delta r.
Proof.
  revert acc prev. induction group as [|r rest IH]; intros acc prev; simpl;
    [contradiction|].
  intros [<-|H].
  - exists r. simpl. tauto.
  - apply IH in H. destruct H as [r' [Hin H]]. exists r'. tauto.
Qed.

Lemma calculate_group_number_contract group k :
  (forall r : Timed, In r group -> contract_id r = k) ->
  forall p : Point, In p (calculate_group_number group) -> contract_id p = k.
Proof.
  intros Hg p Hp. rewrite calculate_group_number_scan in Hp.
  apply number_from_In in Hp. destruct Hp as [r [Hin [E _]]].
  rewrite E. auto.
Qed.

(** The points of one contract after cell 7 are that contract's rows, in
    time order, numbered by [calculate_group_number]. *)
Lemma assign_group_numbers_contract rows c :
  filter (fun p : Point => contract_id p =? c) (assign_group_numbers rows)
  = calculate_group_number
      (filter (fun r : Timed => contract_id r =? c)
              (sort_values (fun r : Timed => msg_time r) rows)).
Proof.
  unfold assign_group_numbers.
  apply groupby_contract_apply_filter
    with (contract_of' := fun p : Point => contract_id p).
  - apply calculate_group_number_contract.
  - reflexivity.
Qed.

Lemma number_from_sorted acc prev group :
  StronglySorted (fun x y : Timed => msg_time x <= msg_time y) group ->
  StronglySorted (fun p q : Point => msg_time p <= msg_time q)
                 (number_from acc prev group).
Proof.
  intros Hsorted. revert acc prev.
  induction Hsorted as [|r rest Hrest IH Hr]; intros acc prev; simpl;
    constructor.
  - apply IH.
  - rewrite Forall_forall in *. intros p Hp.
    apply number_from_In in Hp. destruct Hp as [r' [Hin [_ [E _]]]].
    simpl. rewrite E. apply Hr. exact Hin.
Qed.

(** The points of one contract after cell 7, in frame order: a forward
    scan over rows that are in time order. *)
Lemma contract_points_scan rows c :
  exists group,
    filter (fun p : Point => contract_id p =? c) (assign_group_numbers rows)
    = number_from 0 None group
    /\ StronglySorted (fun x y : Timed => msg_time x <= msg_time y) group.
Proof.
  exists (filter (fun r : Timed => contract_id r =? c)
                 (sort_values (fun r : Timed => msg_time r) rows)).
  split.
  - rewrite assign_group_numbers_contract. apply calculate_group_number_scan.
  - apply StronglySorted_filter. apply sort_values_sorted.
Qed.

Lemma Permutation_filter (A : Type) (f : A -> bool) l l' :
  Permutation l l' -> Permutation (filter f l) (filter f l').
Proof.
  induction 1; simpl.
  - reflexivity.
  - destruct (f x); [constructor|]; assumption.
  - destruct (f x), (f y); try apply perm_swap; reflexivity.
  - etransitivity; eassumption.
Qed.


(* ================================================================== *)
(** * Step 1 keeps the rows *)

Lemma to_datetime_rows csv recs :
  to_datetime csv = Ok recs ->
  Forall2 (fun (c : CsvRow) (r : Rec) =>
             csv_msg_time c = Stamp (msg_time r)
             /\ contract_id r = csv_contract_id c
             /\ load_number r = csv_load_number c
             /\ payload r = csv_payload c) csv recs.
Proof.
  intros H. apply mapM_Forall2 in H.
  induction H as [|c r csv recs Hc _ IH]; constructor; [|exact IH].
  unfold parse_row in Hc. destruct (csv_msg_time c) as [t|txt]; simpl in Hc;
    [|discriminate].
  destruct (fits_int64 t); simpl in Hc; [|discriminate].
  inversion Hc. simpl. tauto.
Qed.

Lemma groupby_shift_from_length (A B : Type) (key : A -> Z) (val : A -> B)
    seen rows :
  length (groupby_shift_from key val seen rows) = length rows.
Proof.
  revert seen. induction rows as [|r rows IH]; intros seen; simpl; auto.
Qed.

Lemma groupby_diff_length rows : length (groupby_diff rows) = length rows.
Proof.
  unfold groupby_diff. rewrite zip_with_length; [reflexivity|].
  symmetry. apply groupby_shift_from_length.
Qed.

Lemma add_time_delta_recs s rows :
  map (fun t : Timed => rec t) (add_time_delta s rows)
  = map (overwrite "time_delta") rows.
Proof.
  unfold add_time_delta. apply map_zip_with_l.
  - reflexivity.
  - symmetry. apply groupby_diff_length.
Qed.

Lemma number_from_recs acc prev group :
  map (fun p : Point => rec p) (number_from acc prev group)
  = map (fun t : Timed => overwrite "group_number" t) group.
Proof.
  revert acc prev. induction group as [|r rest IH]; intros; simpl; [reflexivity|].
  f_equal. apply IH.
Qed.

Lemma assign_group_numbers_recs rows :
  Permutation (map (fun p : Point => rec p) (assign_group_numbers rows))
              (map (fun t : Timed => overwrite "group_number" t) rows).
Proof.
  unfold assign_group_numbers.
  rewrite (groupby_contract_apply_perm
             (fun r : Timed => contract_id r) calculate_group_number
             (fun p : Point => rec p)
             (fun t : Timed => overwrite "group_number" t)).
  - apply Permutation_map. apply sort_values_perm.
  - intros df. rewrite calculate_group_number_scan. apply number_from_recs.
Qed.

(** The cells that a returning [preprocess] went through. *)
Lemma preprocess_stages s csv orig_df :
  preprocess s csv = Ok orig_df ->
  exists recs,
    to_datetime csv = Ok recs
    /\ diff_overflows (sort_values msg_time recs) = false
    /\ orig_df = assign_group_numbers
                   (add_time_delta s (sort_values msg_time recs)).
Proof.
  unfold preprocess, cell6.
  destruct (to_datetime csv) as [recs|e]; simpl; [|discriminate].
  destruct (diff_overflows (sort_values msg_time recs)) eqn:E; simpl;
    [discriminate|].
  intros H. inversion H. exists recs. auto.
Qed.

(** Cells 5 to 7 return, up to order, the parsed rows; only a payload cell
    that carries the name of a working column is lost. *)
Lemma preprocess_recs s csv orig_df :
  preprocess s csv = Ok orig_df ->
  exists recs,
    to_datetime csv = Ok recs
    /\ Permutation
         (map (fun p : Point => rec p) orig_df)
         (map (fun r => overwrite "group_number" (overwrite "time_delta" r)) recs).
Proof.
  intros H. apply preprocess_stages in H.
  destruct H as [recs [Hrecs [_ ->]]].
  exists recs. split; [exact Hrecs|].
  rewrite assign_group_numbers_recs.
  rewrite <- (map_map (fun t : Timed => rec t) (overwrite "group_number")).
  rewrite add_time_delta_recs, map_map.
  apply Permutation_map. apply sort_values_perm.
Qed.

(** Cell 5 returns when every timestamp parses. *)
Lemma to_datetime_total csv :
  (forall r, In r csv -> parses r = true) ->
  exists recs, to_datetime csv = Ok recs.
Proof.
  intros H. apply mapM_total. intros r Hr. specialize (H r Hr).
  unfold parses in H. unfold parse_row.
  destruct (csv_msg_time r) as [t|txt]; [|discriminate].
  simpl. rewrite H. simpl. eexists. reflexivity.
Qed.

Lemma filter_map_comm (A B : Type) (g : A -> B) (f : B -> bool) l :
  filter f (map g l) = map g (filter (fun x => f (g x)) l).
Proof.
  induction l as [|x l IH]; simpl; [reflexivity|].
  destruct (f (g x)); simpl; rewrite IH; reflexivity.
Qed.

(** Rows counted per contract do not depend on the order of the frame. *)
Lemma contract_rows_perm (A B : Type) (fa : A -> Z) (fb : B -> Z) c la lb :
  Permutation (map fa la) (map fb lb) ->
  contract_rows fa c la = contract_rows fb c lb.
Proof.
  intros H. unfold contract_rows. f_equal.
  apply (Permutation_filter (fun k => k =? c)) in H.
  rewrite !filter_map_comm in H. apply Permutation_length in H.
  rewrite !length_map in H. exact H.
Qed.

Lemma preprocess_contract_rows s csv orig_df c :
  preprocess s csv = Ok orig_df ->
  contract_rows (fun p : Point => contract_id p) c orig_df
  = contract_rows csv_contract_id c csv.
Proof.
  intros H. apply preprocess_recs in H. destruct H as [recs [Hrecs Hperm]].
  apply to_datetime_rows in Hrecs.
  transitivity (contract_rows contract_id c recs).
  - apply contract_rows_perm.
    apply (Permutation_map contract_id) in Hperm.
    rewrite !map_map in Hperm. exact Hperm.
  - apply contract_rows_perm.
    replace (map contract_id recs) with (map csv_contract_id csv); [reflexivity|].
    clear Hperm. induction Hrecs as [|x y l l' Hxy _ IH]; simpl; [reflexivity|].
    f_equal; [symmetry; tauto|exact IH].
Qed.

(* ================================================================== *)
(** * Step 2: the interval aggregator *)

Lemma key_eqb_spec (a b : Z * Z) : key_eqb a b = true <-> a = b.
Proof.
  destruct a as [a1 a2], b as [b1 b2]. unfold key_eqb. simpl.
  rewrite andb_true_iff, !Z.eqb_eq. split; [intros [-> ->]; reflexivity|].
  intros H. inversion H. tauto.
Qed.

Lemma make_intervals_groups orig_df :
  make_intervals orig_df
  = flat_map (fun k => interval_of_group k (get_group key_eqb point_key orig_df k))
             (group_keys key_eqb key_leb point_key orig_df).
Proof.
  unfold make_intervals. rewrite groupby_groups.
  rewrite !flat_map_concat_map, map_map. reflexivity.
Qed.

(** The interval row of a group is there as soon as the group has a row. *)
Lemma interval_of_group_row k df :
  df <> [] ->
  exists i, interval_of_group k df = [i]
            /\ interval_key i = k
            /\ total_points i = Z.of_nat (length df).
Proof.
  destruct df as [|p ps]; [congruence|]. intros _.
  eexists. split; [reflexivity|]. destruct k. split; reflexivity.
Qed.

(** One interval per group, in the order of the groups. *)
Lemma make_intervals_rows orig_df :
  Forall2 (fun k i =>
             interval_of_group k (get_group key_eqb point_key orig_df k) = [i]
             /\ interval_key i = k
             /\ total_points i
                = Z.of_nat (length (get_group key_eqb point_key orig_df k)))
          (group_keys key_eqb key_leb point_key orig_df)
          (make_intervals orig_df).
Proof.
  rewrite make_intervals_groups.
  pose proof (get_group_nonempty _ point_key key_eqb_spec key_leb orig_df) as Hne.
  induction (group_keys key_eqb key_leb point_key orig_df) as [|k ks IH];
    simpl; [constructor|].
  destruct (interval_of_group_row k (Hne k (or_introl eq_refl))) as [i [E Hi]].
  rewrite E. simpl. constructor.
  - split; [exact E|exact Hi].
  - apply IH. intros k' Hk'. apply Hne. right. exact Hk'.
Qed.

Lemma make_intervals_keys orig_df :
  map interval_key (make_intervals orig_df)
  = group_keys key_eqb key_leb point_key orig_df.
Proof.
  induction (make_intervals_rows orig_df) as [|k i ks ivs [_ [Hk _]] _ IH];
    simpl; [reflexivity|].
  rewrite Hk, IH. reflexivity.
Qed.

Lemma fold_left_add_shift (l : list Z) (a : Z) :
  fold_left Z.add l a = a + fold_left Z.add l 0.
Proof.
  revert a. induction l as [|x l IH]; intros a; simpl; [lia|].
  rewrite IH, (IH x). lia.
Qed.

Lemma series_sum_cons x l : series_sum (x :: l) = x + series_sum l.
Proof. unfold series_sum. simpl. apply fold_left_add_shift. Qed.

(** Point counts over the intervals of contract [c] add up to the rows of
    [c]. *)
Lemma contract_points_rows orig_df c :
  contract_points c (make_intervals orig_df)
  = contract_rows (fun p : Point => contract_id p) c orig_df.
Proof.
  unfold contract_points, contract_rows.
  set (G := get_group key_eqb point_key orig_df).
  set (rows_c := filter (fun p : Point => contract_id p =? c) orig_df).
  assert (Hsum :
    series_sum (map total_points
                    (filter (fun i => contract i =? c) (make_intervals orig_df)))
    = Z.of_nat (length (flat_map G
        (filter (fun k => fst k =? c)
                (group_keys key_eqb key_leb point_key orig_df))))).
  { induction (make_intervals_rows orig_df) as [|k i ks ivs [_ [Hk Hn]] _ IH];
      simpl; [reflexivity|].
    replace (contract i) with (fst k) by (rewrite <- Hk; reflexivity).
    destruct (fst k =? c); simpl; [|exact IH].
    rewrite series_sum_cons, IH, Hn, length_app. fold G. lia. }
  rewrite Hsum. f_equal. apply Permutation_length.
  assert (Hgroups :
    flat_map G (filter (fun k => fst k =? c)
                       (group_keys key_eqb key_leb point_key orig_df))
    = flat_map (get_group key_eqb point_key rows_c)
               (filter (fun k => fst k =? c)
                       (group_keys key_eqb key_leb point_key orig_df))).
  { rewrite !flat_map_concat_map. f_equal. apply map_ext_in.
    intros k Hk. apply filter_In in Hk. destruct Hk as [_ Hk].
    apply Z.eqb_eq in Hk. unfold G, get_group, rows_c. symmetry.
    apply filter_filter_imp. intros p _ E. apply key_eqb_spec in E.
    apply Z.eqb_eq. rewrite <- Hk, <- E. reflexivity. }
  rewrite Hgroups. apply (groups_partition _ point_key key_eqb_spec).
  - apply NoDup_filter. apply (group_keys_NoDup _ _ key_eqb_spec).
  - intros p Hp. unfold rows_c in Hp. apply filter_In in Hp.
    destruct Hp as [Hp Hc]. apply filter_In. split.
    + apply (group_keys_In _ _ key_eqb_spec). exists p. tauto.
    + exact Hc.
Qed.

(** Every interval counts the points of its key, and there is at least
    one. *)
Lemma make_intervals_point_count orig_df i :
  In i (make_intervals orig_df) ->
  1 <= total_points i
  /\ total_points i
     = Z.of_nat (length (filter (fun p => key_eqb (point_key p) (interval_key i))
                                orig_df)).
Proof.
  intros Hi.
  pose proof (make_intervals_rows orig_df) as F.
  pose proof (get_group_nonempty _ point_key key_eqb_spec key_leb orig_df) as Hne.
  induction F as [|k i' ks ivs [_ [Hk Hn]] _ IH]; [contradiction|].
  destruct Hi as [->|Hi].
  - rewrite Hk. unfold get_group in Hn. rewrite Hn. split; [|reflexivity].
    specialize (Hne k (or_introl eq_refl)). unfold get_group in Hne.
    destruct (filter (fun r => key_eqb (point_key r) k) orig_df);
      [congruence|simpl; lia].
  - apply IH; [exact Hi|]. intros k' Hk'. apply Hne. right. exact Hk'.
Qed.

Lemma make_intervals_has_key orig_df (p : Point) :
  In p orig_df ->
  exists i, In i (make_intervals orig_df) /\ interval_key i = point_key p.
Proof.
  intros Hp.
  assert (Hk : In (point_key p) (map interval_key (make_intervals orig_df))).
  { rewrite make_intervals_keys. apply (group_keys_In _ _ key_eqb_spec).
    exists p. tauto. }
  apply in_map_iff in Hk. destruct Hk as [i [E Hi]]. exists i. tauto.
Qed.

(** C4.  The intervals of cell 9 partition the points: interval keys
    (contract, group) are pairwise distinct, every point has the interval
    of its own (contract, group), every interval counts the points of its
    key and counts at least one, and over the intervals of a contract the
    point counts add up to the number of input rows of that contract. *)
Theorem intervals_partition_records (s : Settings) (csv : list CsvRow)
    (orig_df : list Point) (c : Z) :
  preprocess s csv = Ok orig_df ->
  let intervals := make_intervals orig_df in
  NoDup (map interval_key intervals)
  /\ (forall p : Point, In p orig_df ->
        exists i, In i intervals /\ interval_key i = point_key p)
  /\ (forall i, In i intervals ->
        1 <= total_points i
        /\ total_points i
           = Z.of_nat (length (filter (fun p => key_eqb (point_key p) (interval_key i))
                                      orig_df)))
  /\ contract_points c intervals = contract_rows csv_contract_id c csv.
Proof.
  intros Hpre intervals. unfold intervals.
  split.
  { rewrite make_intervals_keys. apply (group_keys_NoDup _ _ key_eqb_spec). }
  split; [intros p Hp; apply make_intervals_has_key; exact Hp|].
  split; [intros i Hi; apply make_intervals_point_count; exact Hi|].
  rewrite contract_points_rows. apply preprocess_contract_rows with (s := s).
  exact Hpre.
Qed.

(* ================================================================== *)
(** * The outlier rules *)

Lemma flag_invalid_ping_rates_total row limit :
  total_points row <> 0 ->
  exists z, flag_invalid_ping_rates row limit = Ok z /\ (z = 0 \/ z = 1).
Proof.
  intros H. unfold flag_invalid_ping_rates, py_div.
  destruct (total_points row =? 0) eqn:E; [apply Z.eqb_eq in E; contradiction|].
  simpl.
  destruct (abs_diff_exceeds _ _ limit); eexists; split; try reflexivity; auto.
Qed.

Lemma flag_invalid_ping_rates_null row limit :
  total_points row <> 0 -> time_delta_avg row = None ->
  flag_invalid_ping_rates row limit = Ok 0.
Proof.
  intros H Havg. unfold flag_invalid_ping_rates, py_div.
  destruct (total_points row =? 0) eqn:E; [apply Z.eqb_eq in E; contradiction|].
  simpl. rewrite Havg. reflexivity.
Qed.

Lemma flag_reporting_gap_null s row :
  time_delta_avg row = None -> flag_reporting_gap s row = 0.
Proof. intros H. unfold flag_reporting_gap. rewrite H. reflexivity. Qed.

Lemma rate_interval_total s row :
  total_points row <> 0 -> exists r, rate_interval s row = Ok r.
Proof.
  intros H. unfold rate_interval.
  destruct (flag_invalid_ping_rates_total row (ping_rate_threshold s) H)
    as [z [Hz _]].
  rewrite Hz. simpl. eexists. reflexivity.
Qed.

Lemma rate_interval_fields s row r :
  rate_interval s row = Ok r ->
  ivl r = row
  /\ invalid_load_reporting_gap r = flag_reporting_gap s row
  /\ flag_invalid_ping_rates row (ping_rate_threshold s)
     = Ok (invalid_load_ping_rate r).
Proof.
  unfold rate_interval.
  destruct (flag_invalid_ping_rates row (ping_rate_threshold s)) as [z|e];
    simpl; [|discriminate].
  intros H. inversion H. simpl. tauto.
Qed.

(** Cells 13 to 20 return exactly when pandas types the column of averages
    timedelta64[ns] and no row has a zero point count; what comes back is
    what the rows give one by one. *)
Lemma rate_intervals_rows_of s table rated :
  rate_intervals s table = Ok rated ->
  holds_nat_alone (map time_delta_avg table) = false
  /\ mapM (rate_interval s) table = Ok rated.
Proof.
  unfold rate_intervals.
  destruct (holds_nat_alone (map time_delta_avg table)); [discriminate|].
  auto.
Qed.

Lemma holds_nat_alone_spec (A : Type) (f : A -> option Z) l :
  holds_nat_alone (map f l) = true <-> forall x, In x l -> f x = None.
Proof.
  unfold holds_nat_alone. rewrite forallb_forall. split.
  - intros H x Hx. specialize (H (f x) (in_map f l x Hx)).
    destruct (f x); [discriminate|reflexivity].
  - intros H c Hc. apply in_map_iff in Hc. destruct Hc as [x [<- Hx]].
    rewrite (H x Hx). reflexivity.
Qed.

Lemma rate_intervals_typed s table :
  (exists i, In i table /\ time_delta_avg i <> None) ->
  (forall i, In i table -> total_points i <> 0) ->
  exists rated, rate_intervals s table = Ok rated.
Proof.
  intros [i [Hi Havg]] Hpos. unfold rate_intervals.
  destruct (holds_nat_alone (map time_delta_avg table)) eqn:E.
  - pose proof (proj1 (holds_nat_alone_spec time_delta_avg table) E) as E'.
    elim Havg. apply E'. exact Hi.
  - apply mapM_total. intros j Hj. apply rate_interval_total. auto.
Qed.

Lemma rate_intervals_untyped s table :
  (forall i, In i table -> time_delta_avg i = None) ->
  rate_intervals s table = Raised TypeError.
Proof.
  intros H. unfold rate_intervals.
  replace (holds_nat_alone (map time_delta_avg table)) with true;
    [reflexivity|].
  symmetry. apply (proj2 (holds_nat_alone_spec time_delta_avg table)). exact H.
Qed.

Lemma any_astype_int_one cells f :
  In f cells -> f <> 0 -> any_astype_int cells = 1.
Proof.
  intros Hin Hf. unfold any_astype_int.
  replace (existsb (fun c => negb (c =? 0)) cells) with true; [reflexivity|].
  symmetry. apply existsb_exists. exists f. split; [exact Hin|].
  apply negb_true_iff, Z.eqb_neq. exact Hf.
Qed.

Lemma any_astype_int_zero cells :
  (forall f, In f cells -> f = 0) -> any_astype_int cells = 0.
Proof.
  intros H. unfold any_astype_int.
  destruct (existsb (fun c => negb (c =? 0)) cells) eqn:E; [|reflexivity].
  apply existsb_exists in E. destruct E as [f [Hin Hf]].
  apply negb_true_iff, Z.eqb_neq in Hf. elim Hf. auto.
Qed.

Lemma cell9_returns orig_df group_intervals :
  cell9 orig_df = Ok group_intervals ->
  orig_df <> [] /\ group_intervals = make_intervals orig_df.
Proof.
  unfold cell9. destruct orig_df as [|p l]; [discriminate|].
  intros H. inversion H. split; [discriminate|reflexivity].
Qed.

Lemma cell11_returns group_intervals out :
  cell11 group_intervals = Ok out ->
  out = group_intervals
  /\ forall i, In i group_intervals -> fits_int64 (total_time i) = true.
Proof.
  unfold cell11.
  destruct (existsb (fun i => negb (fits_int64 (total_time i))) group_intervals)
    eqn:E; [discriminate|].
  intros H. inversion H. subst out. split; [reflexivity|].
  intros i Hi. destruct (fits_int64 (total_time i)) eqn:F; [reflexivity|].
  assert (X : existsb (fun i => negb (fits_int64 (total_time i)))
                      group_intervals = true).
  { apply existsb_exists. exists i. rewrite F. split; [exact Hi|reflexivity]. }
  congruence.
Qed.

(** The cells that a returning [flag_intervals] went through. *)
Lemma flag_intervals_stages s orig_df table :
  flag_intervals s orig_df = Ok table ->
  orig_df <> []
  /\ (forall i, In i (make_intervals orig_df) ->
        fits_int64 (total_time i) = true)
  /\ exists rated,
       rate_intervals s (make_intervals orig_df) = Ok rated
       /\ table = cell25 (cell24 (cell23 s (cell22 (cell21 rated)))).
Proof.
  unfold flag_intervals.
  destruct (cell9 orig_df) as [t9|e] eqn:E9; [|discriminate].
  apply cell9_returns in E9. destruct E9 as [Hne ->]. unfold bind at 1.
  destruct (cell11 (make_intervals orig_df)) as [t11|e] eqn:E11;
    [|discriminate].
  apply cell11_returns in E11. destruct E11 as [-> Hfit]. unfold bind at 1.
  destruct (rate_intervals s (make_intervals orig_df)) as [rated|e];
    [|discriminate].
  unfold bind. intros H. inversion H.
  split; [exact Hne|]. split; [exact Hfit|]. exists rated. tauto.
Qed.

Lemma flag_intervals_cell25 s orig_df table :
  flag_intervals s orig_df = Ok table ->
  exists rated,
    rate_intervals s (make_intervals orig_df) = Ok rated
    /\ table = cell25 (cell24 (cell23 s (cell22 (cell21 rated)))).
Proof.
  intros H. apply flag_intervals_stages in H. tauto.
Qed.

(** C9.  In every row of the flagged interval table [invalid_load] is 1 as
    soon as one of the nine flag columns is 1, and 0 when all nine are 0;
    the number of positive flags plays no part. *)
Theorem invalid_load_is_any_flag (s : Settings) (orig_df : list Point)
    (table : list Verdict) (v : Verdict) :
  flag_intervals s orig_df = Ok table ->
  In v table ->
  (invalid_load_duration_short v = 1 \/ invalid_load_duration_long v = 1
   \/ invalid_load_point_count_low v = 1 \/ invalid_load_point_count_high v = 1
   \/ invalid_load_reporting_gap v = 1 \/ invalid_load_ping_rate v = 1
   \/ invalid_load_overlap v = 1 \/ invalid_load_noncontiguous v = 1
   \/ invalid_load_duplicate v = 1 ->
   invalid_load v = 1)
  /\ (invalid_load_duration_short v = 0 -> invalid_load_duration_long v = 0 ->
      invalid_load_point_count_low v = 0 -> invalid_load_point_count_high v = 0 ->
      invalid_load_reporting_gap v = 0 -> invalid_load_ping_rate v = 0 ->
      invalid_load_overlap v = 0 -> invalid_load_noncontiguous v = 0 ->
      invalid_load_duplicate v = 0 ->
      invalid_load v = 0).
Proof.
  intros Htable Hv.
  apply flag_intervals_cell25 in Htable. destruct Htable as [rated [_ ->]].
  unfold cell25 in Hv. apply in_map_iff in Hv. destruct Hv as [r [<- _]].
  simpl. split.
  - intros H. unfold outlier_columns.
    repeat (destruct H as [H|H];
            [apply any_astype_int_one with (f := 1);
             [rewrite <- H; simpl; tauto|lia]|]).
    apply any_astype_int_one with (f := 1); [rewrite <- H; simpl; tauto|lia].
  - intros H1 H2 H3 H4 H5 H6 H7 H8 H9. apply any_astype_int_zero.
    unfold outlier_columns. simpl. intuition congruence.
Qed.

(* ================================================================== *)
(** * Parse errors *)

Lemma parse_row_raises r e : parse_row r = Raised e -> e = ParseError.
Proof.
  unfold parse_row. destruct (csv_msg_time r) as [t|txt]; simpl;
    [destruct (fits_int64 t); simpl|]; intros H; inversion H; reflexivity.
Qed.

Lemma parses_false r : parses r = false -> parse_row r = Raised ParseError.
Proof.
  unfold parses, parse_row. destruct (csv_msg_time r) as [t|txt]; simpl;
    [intros ->|]; reflexivity.
Qed.

(** C8, as the notebook has it.  When at least one timestamp of the input
    cannot be parsed, the conversion of the [msg_time] column raises and the
    run ends there with the parse error: no row is processed and nothing is
    written, the rows that do parse included. *)
Theorem unparseable_timestamp_aborts_run (s : Settings) (csv : list CsvRow) :
  (exists r, In r csv /\ parses r = false) ->
  to_datetime csv = Raised ParseError
  /\ preprocess s csv = Raised ParseError
  /\ run s csv = Raised ParseError
  /\ emit s csv = Raised ParseError.
Proof.
  intros [r [Hin Hr]].
  assert (H : to_datetime csv = Raised ParseError).
  { unfold to_datetime. apply mapM_raises with (a := r).
    - exact Hin.
    - apply parses_false. exact Hr.
    - intros a' e' _. apply parse_row_raises. }
  unfold emit, run, preprocess. rewrite H. simpl. auto.
Qed.

(* ================================================================== *)
(** * Contiguity (cell 23) *)

Lemma contract_interval_leb_total (a b : Interval) :
  contract_interval_leb a b = true \/ contract_interval_leb b a = true.
Proof.
  unfold contract_interval_leb, interval_leb.
  rewrite !orb_true_iff, !andb_true_iff, !orb_true_iff, !andb_true_iff,
    !Z.ltb_lt, !Z.eqb_eq, !Z.leb_le. lia.
Qed.

Lemma contract_interval_leb_trans (a b c : Interval) :
  contract_interval_leb a b = true -> contract_interval_leb b c = true ->
  contract_interval_leb a c = true.
Proof.
  unfold contract_interval_leb, interval_leb.
  rewrite !orb_true_iff, !andb_true_iff, !orb_true_iff, !andb_true_iff,
    !Z.ltb_lt, !Z.eqb_eq, !Z.leb_le. lia.
Qed.

Lemma contract_interval_leb_le (a b : Interval) :
  contract_interval_leb a b = true ->
  contract a <= contract b
  /\ (contract a = contract b -> msg_time_min a <= msg_time_min b).
Proof.
  unfold contract_interval_leb, interval_leb.
  rewrite !orb_true_iff, !andb_true_iff, !orb_true_iff, !andb_true_iff,
    !Z.ltb_lt, !Z.eqb_eq, !Z.leb_le. lia.
Qed.

Lemma StronglySorted_nth (A : Type) (R : A -> A -> Prop) l :
  StronglySorted R l ->
  forall i j a b, (i < j)%nat ->
    nth_error l i = Some a -> nth_error l j = Some b -> R a b.
Proof.
  induction 1 as [|x l Hl IH Hx]; intros i j a b Hij Ha Hb.
  - destruct i; discriminate.
  - destruct j as [|j]; [lia|]. simpl in Hb.
    destruct i as [|i]; simpl in Ha.
    + inversion Ha; subst a. rewrite Forall_forall in Hx. apply Hx.
      eapply nth_error_In. exact Hb.
    + apply (IH i j); [lia|assumption|assumption].
Qed.

Lemma cell23_scan s group_intervals :
  cell23 s group_intervals
  = contig_from s []
      (sort_rows (fun a b : Overlapped => contract_interval_leb a b)
                 group_intervals).
Proof.
  unfold cell23, groupby_shift.
  generalize (@nil Overlapped) as seen.
  induction (sort_rows (fun a b : Overlapped => contract_interval_leb a b)
                       group_intervals) as [|r rest IH]; intros seen;
    [reflexivity|].
  simpl groupby_shift_from. rewrite zip_with_cons. simpl. f_equal. apply IH.
Qed.

Lemma contig_from_rows s seen rows :
  map overlapped (contig_from s seen rows) = rows.
Proof.
  revert seen. induction rows as [|r rest IH]; intros seen; simpl;
    [reflexivity|].
  f_equal. apply IH.
Qed.

(** The row at position [n] of the scan: its time difference is taken to
    the nearest row above that has the same contract. *)
Lemma contig_from_nth s rows : forall seen n (r : Contig),
  nth_error (contig_from s seen rows) n = Some r ->
  nth_error rows n = Some (overlapped r)
  /\ time_diff r
     = option_map (fun p : Overlapped => Z.abs (msg_time_min r - msg_time_max p))
         (prev_in_group (fun p : Overlapped => contract p)
                        (rev (firstn n rows) ++ seen) (overlapped r))
  /\ invalid_load_noncontiguous r
     = np_where (gt_cell (time_diff r) (load_gap_threshold s)).
Proof.
  induction rows as [|r0 rest IH]; intros seen n r Hn.
  - destruct n; discriminate.
  - destruct n as [|n]; simpl in Hn.
    + inversion Hn; subst r; clear Hn. simpl.
      split; [reflexivity|]. split; [|reflexivity].
      destruct (prev_in_group (fun p : Overlapped => contract p) seen r0);
        reflexivity.
    + apply IH in Hn. destruct Hn as [H1 [H2 H3]].
      split; [exact H1|]. split; [|exact H3].
      rewrite H2. simpl firstn. simpl rev. rewrite <- app_assoc. reflexivity.
Qed.

Lemma prev_in_group_none (A : Type) (key : A -> Z) seen x :
  (forall p, In p seen -> key p <> key x) -> prev_in_group key seen x = None.
Proof.
  intros H. unfold prev_in_group.
  destruct (find (fun y => key y =? key x) seen) as [p|] eqn:E; [|reflexivity].
  apply find_some in E. destruct E as [Hin Hk]. apply Z.eqb_eq in Hk.
  elim (H p Hin Hk).
Qed.

Lemma firstn_succ_nth (A : Type) (l : list A) n a :
  nth_error l n = Some a -> firstn (S n) l = firstn n l ++ [a].
Proof.
  revert n. induction l as [|x l IH]; intros n H.
  - destruct n; discriminate.
  - destruct n as [|n]; simpl in H.
    + inversion H. reflexivity.
    + simpl. f_equal. apply IH. exact H.
Qed.

Lemma In_firstn_nth (A : Type) (l : list A) n p :
  In p (firstn n l) -> exists m, (m < n)%nat /\ nth_error l m = Some p.
Proof.
  revert n. induction l as [|x l IH]; intros n H.
  - rewrite firstn_nil in H. contradiction.
  - destruct n as [|n]; [contradiction|]. simpl in H.
    destruct H as [<-|H].
    + exists 0%nat. split; [lia|reflexivity].
    + apply IH in H. destruct H as [m [Hm E]]. exists (S m).
      split; [lia|exact E].
Qed.

Lemma flag_duplicated_load_numbers_keeps (R C : Type) (load_of : R -> option Z)
    (set : R -> R) (g : R -> C) df :
  (forall r, g (set r) = g r) ->
  map g (flag_duplicated_load_numbers load_of set df) = map g df.
Proof.
  intros Hset. unfold flag_duplicated_load_numbers.
  apply map_zip_with_l.
  - intros r m. destruct m; [apply Hset|reflexivity].
  - unfold duplicated_keep_false. rewrite !length_map. reflexivity.
Qed.

(** Cells 24 and 25 leave the contiguity flag of every row as cell 23 set
    it. *)
Lemma later_cells_keep_contiguity (t : list Contig) :
  Permutation (map (fun v : Verdict => contiguity_of v) (cell25 (cell24 t)))
              (map contiguity_of t).
Proof.
  unfold cell25. rewrite map_map. simpl.
  unfold cell24.
  rewrite (groupby_contract_apply_perm
             (fun r : Contig => contract r)
             (flag_duplicated_load_numbers (fun r : Contig => load r) contig_set_loads)
             contiguity_of contiguity_of).
  - rewrite map_map. reflexivity.
  - intros df. apply flag_duplicated_load_numbers_keeps. reflexivity.
Qed.

(** C7.  Cell 23 puts the interval rows in (contract, interval) order.  A
    row with no row of its contract above it, the contract's earliest
    interval, has the least [msg_time_min] of its contract and its flag is
    0.  Every other row has a row of its own contract directly above it;
    its flag is 1 when the absolute difference between its [msg_time_min]
    and that row's [msg_time_max] exceeds [load_gap_threshold], and 0 when
    it does not.  The later cells do not touch the flag. *)
Theorem noncontiguous_flag_per_contract (s : Settings)
    (group_intervals : list Overlapped) :
  let out := cell23 s group_intervals in
  Permutation (map overlapped out) group_intervals
  /\ (forall n (r : Contig),
        nth_error out n = Some r ->
        (forall m (p : Contig), (m < n)%nat -> nth_error out m = Some p ->
                                contract p <> contract r) ->
        invalid_load_noncontiguous r = 0
        /\ forall r' : Contig, In r' out -> contract r' = contract r ->
             msg_time_min r <= msg_time_min r')
  /\ (forall n (r : Contig) m (p : Contig),
        nth_error out n = Some r ->
        (m < n)%nat -> nth_error out m = Some p -> contract p = contract r ->
        exists q : Contig,
          nth_error out (pred n) = Some q
          /\ contract q = contract r
          /\ msg_time_min q <= msg_time_min r
          /\ (load_gap_threshold s < Z.abs (msg_time_min r - msg_time_max q)
              -> invalid_load_noncontiguous r = 1)
          /\ (Z.abs (msg_time_min r - msg_time_max q) <= load_gap_threshold s
              -> invalid_load_noncontiguous r = 0))
  /\ Permutation (map (fun v : Verdict => contiguity_of v) (cell25 (cell24 out)))
                 (map contiguity_of out).
Proof.
  intros out. unfold out. rewrite cell23_scan.
  set (sorted := sort_rows (fun a b : Overlapped => contract_interval_leb a b)
                           group_intervals).
  assert (Hsorted : StronglySorted
            (fun a b : Overlapped => contract_interval_leb a b = true) sorted).
  { apply sort_rows_sorted.
    - intros x y. apply contract_interval_leb_total.
    - intros x y z. apply contract_interval_leb_trans. }
  assert (Hrows : forall n (r : Contig),
            nth_error (contig_from s [] sorted) n = Some r ->
            nth_error sorted n = Some (overlapped r)).
  { intros n r Hn. apply contig_from_nth in Hn. tauto. }
  split; [rewrite contig_from_rows; apply sort_rows_perm|].
  split.
  { intros n r Hn Hfirst.
    pose proof (@contig_from_nth s sorted [] n r Hn) as [Hr [Hd Hf]].
    split.
    - rewrite Hf, Hd, prev_in_group_none; [reflexivity|].
      intros p Hp. rewrite app_nil_r in Hp. apply in_rev in Hp.
      apply In_firstn_nth in Hp. destruct Hp as [m [Hm Hp]].
      assert (Hpm : exists p' : Contig,
                nth_error (contig_from s [] sorted) m = Some p'
                /\ overlapped p' = p).
      { pose proof (contig_from_rows s [] sorted) as E.
        rewrite <- E in Hp. rewrite nth_error_map in Hp.
        destruct (nth_error (contig_from s [] sorted) m) as [p'|];
          [|discriminate].
        simpl in Hp. inversion Hp. exists p'. tauto. }
      destruct Hpm as [p' [Hp' <-]]. apply (Hfirst m p' Hm Hp').
    - intros r' Hr' Hc. apply In_nth_error in Hr'. destruct Hr' as [n' Hn'].
      destruct (Nat.lt_trichotomy n' n) as [Hlt|[Heq|Hgt]].
      + elim (Hfirst n' r' Hlt Hn' Hc).
      + subst n'. rewrite Hn in Hn'. inversion Hn'. lia.
      + pose proof (StronglySorted_nth Hsorted Hgt Hr (Hrows _ _ Hn')) as Hle.
        apply contract_interval_leb_le in Hle. apply Hle. symmetry. exact Hc. }
  split; [|apply later_cells_keep_contiguity].
  intros n r m p Hn Hm Hp Hc.
  destruct n as [|n]; [lia|]. simpl pred.
  pose proof (@contig_from_nth s sorted [] (S n) r Hn) as [Hr [Hd Hf]].
  destruct (nth_error (contig_from s [] sorted) n) as [q|] eqn:Hq.
  2:{ apply nth_error_None in Hq.
      assert (nth_error (contig_from s [] sorted) (S n) <> None) by congruence.
      apply nth_error_Some in H. lia. }
  pose proof (Hrows _ _ Hq) as Hq'.
  assert (Hqr : contract_interval_leb (overlapped q) (overlapped r) = true).
  { apply (StronglySorted_nth Hsorted (i := n) (j := S n)); auto. }
  apply contract_interval_leb_le in Hqr.
  assert (Hcq : contract q = contract r).
  { destruct (Nat.eq_dec m n) as [->|Hne].
    - rewrite Hq in Hp. inversion Hp. exact Hc.
    - assert (Hpq : contract_interval_leb (overlapped p) (overlapped q) = true).
      { apply (StronglySorted_nth Hsorted (i := m) (j := n));
          [lia|apply Hrows; exact Hp|exact Hq']. }
      apply contract_interval_leb_le in Hpq.
      destruct Hqr as [Hqr _], Hpq as [Hpq _].
      change (contract (overlapped p)) with (contract p) in Hpq.
      change (contract (overlapped q)) with (contract q) in Hpq, Hqr.
      change (contract (overlapped r)) with (contract r) in Hqr. lia. }
  assert (Hflag : invalid_load_noncontiguous r
                  = np_where (load_gap_threshold s
                              <? Z.abs (msg_time_min r - msg_time_max q))).
  { rewrite Hf, Hd. rewrite (firstn_succ_nth _ _ Hq'), rev_app_distr. simpl.
    unfold prev_in_group. simpl.
    change (contract (overlapped q)) with (contract q).
    change (contract (overlapped r)) with (contract r).
    rewrite Hcq, Z.eqb_refl. reflexivity. }
  exists q. split; [reflexivity|]. split; [exact Hcq|].
  split; [apply Hqr; exact Hcq|].
  rewrite Hflag. unfold np_where.
  destruct (Z.ltb_spec (load_gap_threshold s)
                       (Z.abs (msg_time_min r - msg_time_max q)));
    split; intros; try reflexivity; lia.
Qed.

(* ================================================================== *)
(** * Overlap (cell 22) *)

Lemma nth_error_update_at (A : Type) (f : A -> A) l : forall k n,
  nth_error (update_at k f l) n
  = option_map (fun r => if (n =? k)%nat then f r else r) (nth_error l n).
Proof.
  induction l as [|x l IH]; intros k n.
  - destruct k, n; reflexivity.
  - destruct k as [|k], n as [|n]; simpl; try reflexivity.
    + destruct (nth_error l n); reflexivity.
    + apply IH.
Qed.

Lemma itertuples_from_In (A : Type) (l : list A) : forall start n r,
  nth_error l n = Some r ->
  In ((start + n)%nat, r) (combine (seq start (length l)) l).
Proof.
  induction l as [|x l IH]; intros start n r H.
  - destruct n; discriminate.
  - destruct n as [|n]; simpl in H.
    + inversion H. left. f_equal. lia.
    + right. replace (start + S n)%nat with (S start + n)%nat by lia.
      apply IH. exact H.
Qed.

Lemma itertuples_In (A : Type) (l : list A) n r :
  nth_error l n = Some r -> In (n, r) (itertuples l).
Proof. intros H. apply (itertuples_from_In l 0 n H). Qed.

(** The inner loop sets the overlap flag of row [i] as soon as one [j]
    hits. *)
Lemma inner_loop_sets (i : nat * Overlapped) js : forall df n r,
  nth_error df n = Some r ->
  exists r',
    nth_error
      (fold_left (fun df2 (j : nat * Overlapped) =>
                    if negb (fst i =? fst j)%nat && overlaps (snd i) (snd j)
                    then update_at (fst i) set_overlap df2
                    else df2) js df) n = Some r'
    /\ duped r' = duped r
    /\ (invalid_load_overlap r = 1 -> invalid_load_overlap r' = 1)
    /\ (n = fst i -> existsb (overlap_hit i) js = true ->
        invalid_load_overlap r' = 1).
Proof.
  induction js as [|j js IH]; intros df n r Hn; simpl.
  - exists r. split; [exact Hn|]. split; [reflexivity|]. split; [auto|].
    intros _ H. discriminate.
  - fold (overlap_hit i j). destruct (overlap_hit i j) eqn:Hit.
    + set (r1 := if (n =? fst i)%nat then set_overlap r else r).
      assert (Hn1 : nth_error (update_at (fst i) set_overlap df) n = Some r1).
      { rewrite nth_error_update_at, Hn. reflexivity. }
      destruct (IH _ _ _ Hn1) as [r' [H1 [H2 [H3 H4]]]].
      exists r'. split; [exact H1|].
      assert (Hd : duped r1 = duped r)
        by (unfold r1; destruct (n =? fst i)%nat; reflexivity).
      split; [congruence|]. split.
      * intros Hr. apply H3. unfold r1.
        destruct (n =? fst i)%nat; [reflexivity|exact Hr].
      * intros Hni _. apply H3. unfold r1.
        rewrite (proj2 (Nat.eqb_eq n (fst i)) Hni). reflexivity.
    + destruct (IH _ _ _ Hn) as [r' [H1 [H2 [H3 H4]]]].
      exists r'. simpl. tauto.
Qed.

(** After both loops: every row is still there, and a row that has a hit
    among the rows of the frame is flagged. *)
Lemma outer_loop_sets js rows_i : forall df n r,
  nth_error df n = Some r ->
  exists r',
    nth_error
      (fold_left (fun df1 (i : nat * Overlapped) =>
         fold_left (fun df2 (j : nat * Overlapped) =>
                      if negb (fst i =? fst j)%nat && overlaps (snd i) (snd j)
                      then update_at (fst i) set_overlap df2
                      else df2) js df1) rows_i df) n = Some r'
    /\ duped r' = duped r
    /\ (invalid_load_overlap r = 1 -> invalid_load_overlap r' = 1)
    /\ (forall i, In i rows_i -> fst i = n -> existsb (overlap_hit i) js = true ->
        invalid_load_overlap r' = 1).
Proof.
  induction rows_i as [|i rows_i IH]; intros df n r Hn; simpl.
  - exists r. split; [exact Hn|]. split; [reflexivity|]. split; [auto|].
    intros i [].
  - destruct (inner_loop_sets i js df n Hn) as [r1 [H1 [H2 [H3 H4]]]].
    destruct (IH _ _ _ H1) as [r' [G1 [G2 [G3 G4]]]].
    exists r'. split; [exact G1|]. split; [congruence|]. split; [auto|].
    intros i' [<-|Hi'] Hfst Hhit.
    + apply G3. apply H4; [symmetry; exact Hfst|exact Hhit].
    + apply (G4 i' Hi' Hfst Hhit).
Qed.

(** [check_overlaps]: row [n] is still row [n], and it is flagged when
    another row of the frame overlaps it. *)
Lemma check_overlaps_sets df n m (r r2 : Overlapped) :
  nth_error df n = Some r -> nth_error df m = Some r2 -> n <> m ->
  overlaps r r2 = true ->
  exists r', nth_error (check_overlaps df) n = Some r'
             /\ duped r' = duped r /\ invalid_load_overlap r' = 1.
Proof.
  intros Hn Hm Hnm Hov. unfold check_overlaps.
  destruct (outer_loop_sets (itertuples df) (itertuples df) df n Hn)
    as [r' [H1 [H2 [_ H4]]]].
  exists r'. split; [exact H1|]. split; [exact H2|].
  apply (H4 (n, r)).
  - apply itertuples_In. exact Hn.
  - reflexivity.
  - apply existsb_exists. exists (m, r2). split.
    + apply itertuples_In. exact Hm.
    + unfold overlap_hit. simpl. rewrite Hov.
      rewrite (proj2 (Nat.eqb_neq n m) Hnm). reflexivity.
Qed.

Lemma update_at_rows k (l : list Overlapped) :
  map duped (update_at k set_overlap l) = map duped l.
Proof.
  revert k. induction l as [|x l IH]; intros [|k]; simpl; try reflexivity.
  f_equal. apply IH.
Qed.

Lemma check_overlaps_rows df : map duped (check_overlaps df) = map duped df.
Proof.
  unfold check_overlaps.
  generalize (itertuples df) at 1 as js.
  generalize (itertuples df) as rows_i. intros rows_i.
  generalize df as d.
  induction rows_i as [|i rows_i IH]; intros d js; simpl; [reflexivity|].
  rewrite IH. clear IH. revert d.
  induction js as [|j js IHj]; intros d; simpl; [reflexivity|].
  rewrite IHj. destruct (_ && _); [apply update_at_rows|reflexivity].
Qed.

(* ------------------------------------------------------------------ *)
(** ** The time range of an interval *)

Lemma fold_left_min_spec l : forall a,
  (forall x, In x (a :: l) -> fold_left Z.min l a <= x)
  /\ In (fold_left Z.min l a) (a :: l).
Proof.
  induction l as [|y l IH]; intros a; simpl.
  - split; [intros x [<-|[]]; lia|auto].
  - destruct (IH (Z.min a y)) as [H1 H2]. split.
    + intros x [<-|[<-|Hx]].
      * specialize (H1 (Z.min a y) (or_introl eq_refl)). lia.
      * specialize (H1 (Z.min a y) (or_introl eq_refl)). lia.
      * apply H1. right. exact Hx.
    + destruct H2 as [H2|H2]; [|auto].
      rewrite <- H2. destruct (Z.min_spec a y) as [[_ ->]|[_ ->]]; auto.
Qed.

Lemma fold_left_max_spec l : forall a,
  (forall x, In x (a :: l) -> x <= fold_left Z.max l a)
  /\ In (fold_left Z.max l a) (a :: l).
Proof.
  induction l as [|y l IH]; intros a; simpl.
  - split; [intros x [<-|[]]; lia|auto].
  - destruct (IH (Z.max a y)) as [H1 H2]. split.
    + intros x [<-|[<-|Hx]].
      * specialize (H1 (Z.max a y) (or_introl eq_refl)). lia.
      * specialize (H1 (Z.max a y) (or_introl eq_refl)). lia.
      * apply H1. right. exact Hx.
    + destruct H2 as [H2|H2]; [|auto].
      rewrite <- H2. destruct (Z.max_spec a y) as [[_ ->]|[_ ->]]; auto.
Qed.

(** [msg_time_min] and [msg_time_max] are the least and the greatest
    [msg_time] of the group, and both are reached. *)
Lemma interval_of_group_bounds k df i :
  interval_of_group k df = [i] ->
  (forall x : Point, In x df ->
     msg_time_min i <= msg_time x <= msg_time_max i)
  /\ (exists x : Point, In x df /\ msg_time x = msg_time_min i)
  /\ (exists y : Point, In y df /\ msg_time y = msg_time_max i).
Proof.
  destruct df as [|p ps]; [discriminate|]. simpl. intros H.
  inversion H; subst i; clear H. simpl.
  destruct (fold_left_min_spec (map (fun q : Point => msg_time q) ps) (msg_time p))
    as [Hmin Hmin_in].
  destruct (fold_left_max_spec (map (fun q : Point => msg_time q) ps) (msg_time p))
    as [Hmax Hmax_in].
  assert (Hin : forall x : Point, In x (p :: ps) ->
            In (msg_time x) (msg_time p :: map (fun q : Point => msg_time q) ps)).
  { intros x [<-|Hx]; [left; reflexivity|right].
    apply (in_map (fun q : Point => msg_time q)). exact Hx. }
  assert (Hback : forall t,
            In t (msg_time p :: map (fun q : Point => msg_time q) ps) ->
            exists x : Point, In x (p :: ps) /\ msg_time x = t).
  { intros t [<-|Ht]; [exists p; split; [left|]; reflexivity|].
    apply in_map_iff in Ht. destruct Ht as [x [E Hx]].
    exists x. split; [right; exact Hx|exact E]. }
  split; [|split].
  - intros x Hx. split; [apply Hmin|apply Hmax]; apply Hin; exact Hx.
  - apply Hback. exact Hmin_in.
  - apply Hback. exact Hmax_in.
Qed.

Lemma make_intervals_In orig_df i :
  In i (make_intervals orig_df) ->
  interval_of_group (interval_key i)
    (get_group key_eqb point_key orig_df (interval_key i)) = [i].
Proof.
  intros Hi.
  induction (make_intervals_rows orig_df) as [|k i' ks ivs [E [Hk _]] _ IH];
    [contradiction|].
  destruct Hi as [->|Hi]; [rewrite Hk; exact E|apply IH; exact Hi].
Qed.

(** Where the group number changes between two neighbouring points of a
    contract, the earlier point is the last of its group in time and the
    later point the first of its group. *)
Lemma group_boundary acc prev group n (p q : Point) :
  StronglySorted (fun x y : Timed => msg_time x <= msg_time y) group ->
  nth_error (number_from acc prev group) n = Some p ->
  nth_error (number_from acc prev group) (S n) = Some q ->
  group_number p <> group_number q ->
  (forall y : Point, In y (number_from acc prev group) ->
     group_number y = group_number p -> msg_time y <= msg_time p)
  /\ (forall y : Point, In y (number_from acc prev group) ->
        group_number y = group_number q -> msg_time q <= msg_time y).
Proof.
  intros Hsorted Hp Hq Hne.
  pose proof (number_from_sorted acc prev Hsorted) as Hs.
  assert (Hpq : group_number p < group_number q).
  { pose proof (@number_from_monotone acc prev group n (S n) p q) as H.
    specialize (H ltac:(lia) Hp Hq). lia. }
  split; intros y Hy Hg; apply In_nth_error in Hy; destruct Hy as [m Hm].
  - destruct (Nat.lt_trichotomy m n) as [Hlt|[->|Hgt]].
    + apply (StronglySorted_nth Hs Hlt Hm Hp).
    + rewrite Hp in Hm. inversion Hm. lia.
    + pose proof (@number_from_monotone acc prev group (S n) m q y) as H.
      specialize (H ltac:(lia) Hq Hm). lia.
  - destruct (Nat.lt_trichotomy (S n) m) as [Hlt|[<-|Hgt]].
    + apply (StronglySorted_nth Hs Hlt Hq Hm).
    + rewrite Hq in Hm. inversion Hm. lia.
    + pose proof (@number_from_monotone acc prev group m n y p) as H.
      specialize (H ltac:(lia) Hm Hp). lia.
Qed.

(* ------------------------------------------------------------------ *)
(** ** From the intervals to the flagged table *)

Lemma rate_intervals_rows s intervals rated :
  rate_intervals s intervals = Ok rated -> map ivl rated = intervals.
Proof.
  intros H. apply rate_intervals_rows_of in H. destruct H as [_ H].
  apply mapM_Forall2 in H.
  induction H as [|i r ivs rs Hir _ IH]; [reflexivity|].
  apply rate_interval_fields in Hir. simpl. rewrite IH.
  destruct Hir as [-> _]. reflexivity.
Qed.

Lemma cell21_rows rated :
  Permutation (map (fun d : Duped => ivl d) (cell21 rated)) (map ivl rated).
Proof.
  unfold cell21.
  rewrite (groupby_contract_apply_perm
             (fun r : Duped => contract r)
             (flag_duplicated_load_numbers (fun r : Duped => load r) duped_set_loads)
             (fun d : Duped => ivl d) (fun d : Duped => ivl d)).
  - rewrite map_map. reflexivity.
  - intros df. apply flag_duplicated_load_numbers_keeps. reflexivity.
Qed.

Lemma check_overlaps_contract df k :
  (forall r : Overlapped, In r df -> contract r = k) ->
  forall r' : Overlapped, In r' (check_overlaps df) -> contract r' = k.
Proof.
  intros Hdf r' Hr'.
  assert (H : In (duped r') (map duped df)).
  { rewrite <- check_overlaps_rows. apply in_map. exact Hr'. }
  apply in_map_iff in H. destruct H as [r [E Hr]].
  change (contract r') with (contract (duped r')). rewrite <- E.
  apply (Hdf r Hr).
Qed.

(** The rows of one contract after cell 22. *)
Lemma cell22_contract t c :
  filter (fun r : Overlapped => contract r =? c) (cell22 t)
  = check_overlaps
      (filter (fun r : Overlapped => contract r =? c)
              (map (fun r => mkOverlapped r 0) t)).
Proof.
  unfold cell22.
  apply groupby_contract_apply_filter
    with (contract_of' := fun r : Overlapped => contract r).
  - apply check_overlaps_contract.
  - reflexivity.
Qed.

(** Cells 23 to 25 leave the overlap flag of every row as cell 22 set
    it. *)
Lemma later_cells_keep_overlap s (t : list Overlapped) :
  Permutation
    (map (fun v : Verdict => overlap_of v) (cell25 (cell24 (cell23 s t))))
    (map overlap_of t).
Proof.
  unfold cell25. rewrite map_map. simpl.
  unfold cell24.
  rewrite (groupby_contract_apply_perm
             (fun r : Contig => contract r)
             (flag_duplicated_load_numbers (fun r : Contig => load r) contig_set_loads)
             (fun r : Contig => overlap_of r) (fun r : Contig => overlap_of r)).
  - rewrite map_map. simpl.
    change (fun x : Contig => overlap_of (contig_set_duplicate 0 x))
      with (fun x : Contig => overlap_of (overlapped x)).
    rewrite <- (map_map overlapped overlap_of).
    apply Permutation_map. rewrite cell23_scan, contig_from_rows.
    apply sort_rows_perm.
  - intros df. apply flag_duplicated_load_numbers_keeps. reflexivity.
Qed.

(** Two different intervals of one contract whose closed ranges meet: the
    first is flagged in the final table. *)
Lemma overlapping_interval_flagged s orig_df table i j :
  flag_intervals s orig_df = Ok table ->
  In i (make_intervals orig_df) -> In j (make_intervals orig_df) ->
  i <> j -> contract i = contract j -> overlaps i j = true ->
  exists a : Verdict, In a table /\ ivl a = i /\ invalid_load_overlap a = 1.
Proof.
  intros Htable Hi Hj Hij Hc Hov.
  apply flag_intervals_cell25 in Htable. destruct Htable as [rated [Hrated ->]].
  apply rate_intervals_rows in Hrated.
  set (t := map (fun r => mkOverlapped r 0) (cell21 rated)).
  assert (Hrows : forall x, In x (make_intervals orig_df) ->
            exists r : Overlapped, In r t /\ ivl r = x).
  { intros x Hx. rewrite <- Hrated in Hx.
    apply (Permutation_in _ (Permutation_sym (cell21_rows rated))) in Hx.
    apply in_map_iff in Hx. destruct Hx as [d [E Hd]].
    exists (mkOverlapped d 0). split; [|exact E].
    unfold t. apply (in_map (fun r => mkOverlapped r 0)). exact Hd. }
  destruct (Hrows i Hi) as [ri [Hri Ei]].
  destruct (Hrows j Hj) as [rj [Hrj Ej]].
  set (df := filter (fun r : Overlapped => contract r =? contract i) t).
  assert (Hri' : In ri df).
  { apply filter_In. split; [exact Hri|]. apply Z.eqb_eq. rewrite <- Ei. reflexivity. }
  assert (Hrj' : In rj df).
  { apply filter_In. split; [exact Hrj|]. apply Z.eqb_eq. rewrite Hc, <- Ej.
    reflexivity. }
  apply In_nth_error in Hri'. destruct Hri' as [n Hn].
  apply In_nth_error in Hrj'. destruct Hrj' as [m Hm].
  assert (Hnm : n <> m).
  { intros ->. rewrite Hn in Hm. inversion Hm. subst rj. congruence. }
  assert (Hov' : overlaps ri rj = true) by (rewrite Ei, Ej; exact Hov).
  destruct (@check_overlaps_sets df n m ri rj Hn Hm Hnm Hov') as [r' [Hr' [Hd Hflag]]].
  assert (Hin : In r' (cell22 (cell21 rated))).
  { apply nth_error_In in Hr'. unfold df, t in Hr'.
    rewrite <- cell22_contract in Hr'. apply filter_In in Hr'. tauto. }
  assert (Hfinal : In (i, 1)
            (map (fun v : Verdict => overlap_of v)
                 (cell25 (cell24 (cell23 s (cell22 (cell21 rated))))))).
  { apply (Permutation_in _ (Permutation_sym (later_cells_keep_overlap s _))).
    apply in_map_iff. exists r'. split; [|exact Hin].
    unfold overlap_of. rewrite Hflag. f_equal.
    change (ivl r') with (ivl (duped r')). rewrite Hd. exact Ei. }
  apply in_map_iff in Hfinal. destruct Hfinal as [a [Ea Ha]].
  exists a. unfold overlap_of in Ea. inversion Ea. tauto.
Qed.

Lemma preprocess_assign s csv orig_df :
  preprocess s csv = Ok orig_df ->
  exists rows, orig_df = assign_group_numbers rows.
Proof.
  intros H. apply preprocess_stages in H.
  destruct H as [recs [_ [_ ->]]]. eexists. reflexivity.
Qed.

(** C10.  A timestamp tie at a label change: when, among the points of one
    contract in time order, two neighbours carry the same [msg_time] and
    different group numbers, the interval of the first ends where the
    interval of the second begins, and both intervals are flagged
    [invalid_load_overlap = 1] in the final table, although no point
    belongs to both. *)
Theorem timestamp_tie_flags_both_intervals (s : Settings) (csv : list CsvRow)
    (orig_df : list Point) (table : list Verdict) (c : Z) (n : nat)
    (p q : Point) :
  preprocess s csv = Ok orig_df ->
  flag_intervals s orig_df = Ok table ->
  nth_error (filter (fun x : Point => contract_id x =? c) orig_df) n = Some p ->
  nth_error (filter (fun x : Point => contract_id x =? c) orig_df) (S n) = Some q ->
  group_number p <> group_number q ->
  msg_time p = msg_time q ->
  exists a b : Verdict,
    In a table /\ In b table
    /\ interval_key a = point_key p /\ interval_key b = point_key q
    /\ msg_time_max a = msg_time p /\ msg_time_min b = msg_time q
    /\ msg_time_max a = msg_time_min b
    /\ invalid_load_overlap a = 1 /\ invalid_load_overlap b = 1
    /\ (forall x : Point, point_key x = interval_key a ->
                          point_key x <> interval_key b).
Proof.
  intros Hpre Htable Hp Hq Hne Htie.
  destruct (@preprocess_assign s csv orig_df Hpre) as [rows ->].
  destruct (contract_points_scan rows c) as [grp [Hscan Hsorted]].
  pose proof Hp as Hp_in. apply nth_error_In, filter_In in Hp_in.
  pose proof Hq as Hq_in. apply nth_error_In, filter_In in Hq_in.
  destruct Hp_in as [Hp_in Hpc], Hq_in as [Hq_in Hqc].
  apply Z.eqb_eq in Hpc. apply Z.eqb_eq in Hqc.
  rewrite Hscan in Hp, Hq.
  destruct (@group_boundary 0 None grp n p q Hsorted Hp Hq Hne) as [Hlast Hfirst].
  destruct (@make_intervals_has_key _ p Hp_in) as [ia [Hia Hka]].
  destruct (@make_intervals_has_key _ q Hq_in) as [ib [Hib Hkb]].
  set (df := assign_group_numbers rows) in *.
  assert (Hmember : forall (i : Interval) (x y : Point),
            interval_key i = point_key x -> contract_id x = c ->
            In y (get_group key_eqb point_key df (interval_key i)) ->
            In y (number_from 0 None grp) /\ group_number y = group_number x).
  { intros i x y Hk Hx Hy. apply (get_group_In _ _ key_eqb_spec) in Hy.
    destruct Hy as [Hy Ey]. rewrite Hk in Ey. unfold point_key in Ey.
    injection Ey as Ec Eg. split; [|exact Eg].
    rewrite <- Hscan. apply filter_In. split; [exact Hy|].
    apply Z.eqb_eq. congruence. }
  destruct (@interval_of_group_bounds _ _ _ (@make_intervals_In _ _ Hia))
    as [Ba [_ [ya [Hya Eya]]]].
  destruct (@interval_of_group_bounds _ _ _ (@make_intervals_In _ _ Hib))
    as [Bb [[xb [Hxb Exb]] _]].
  assert (Hpa : In p (get_group key_eqb point_key df (interval_key ia))).
  { apply (get_group_In _ _ key_eqb_spec). split; [exact Hp_in|congruence]. }
  assert (Hqb : In q (get_group key_eqb point_key df (interval_key ib))).
  { apply (get_group_In _ _ key_eqb_spec). split; [exact Hq_in|congruence]. }
  assert (Hmax : msg_time_max ia = msg_time p).
  { destruct (Hmember ia p ya Hka Hpc Hya) as [Hy Hg].
    pose proof (Hlast ya Hy Hg). pose proof (Ba p Hpa). lia. }
  assert (Hmin : msg_time_min ib = msg_time q).
  { destruct (Hmember ib q xb Hkb Hqc Hxb) as [Hx Hg].
    pose proof (Hfirst xb Hx Hg). pose proof (Bb q Hqb). lia. }
  assert (Hkeys : interval_key ia <> interval_key ib).
  { rewrite Hka, Hkb. unfold point_key. intros E. inversion E. contradiction. }
  assert (Hdiff : ia <> ib) by (intros E; apply Hkeys; rewrite E; reflexivity).
  assert (Hc : contract ia = contract ib).
  { apply (f_equal fst) in Hka. apply (f_equal fst) in Hkb. simpl in Hka, Hkb.
    congruence. }
  assert (Hov : overlaps ia ib = true).
  { unfold overlaps. apply andb_true_iff. rewrite !Z.leb_le.
    pose proof (Ba p Hpa). pose proof (Bb q Hqb). lia. }
  assert (Hov' : overlaps ib ia = true).
  { unfold overlaps in *. rewrite andb_comm. exact Hov. }
  destruct (@overlapping_interval_flagged s df table ia ib Htable Hia Hib Hdiff Hc Hov)
    as [a [Ha [Ea Fa]]].
  destruct (@overlapping_interval_flagged s df table ib ia Htable Hib Hia
              (fun E => Hdiff (eq_sym E)) (eq_sym Hc) Hov')
    as [b [Hb [Eb Fb]]].
  exists a, b.
  change (interval_key a) with (interval_key (ivl a)).
  change (interval_key b) with (interval_key (ivl b)).
  change (msg_time_max a) with (msg_time_max (ivl a)).
  change (msg_time_min b) with (msg_time_min (ivl b)).
  rewrite Ea, Eb.
  repeat split; try assumption; try congruence.
Qed.

(* ================================================================== *)
(** * The output frame (cells 27 and 28) *)

Lemma has_name_In name names : has_name name names = true <-> In name names.
Proof.
  unfold has_name. rewrite existsb_exists. split.
  - intros [x [Hx E]]. apply String.eqb_eq in E. subst. exact Hx.
  - intros H. exists name. split; [exact H|apply String.eqb_refl].
Qed.

Lemma drop_cell_id name cells :
  ~ In name (map fst cells) -> drop_cell name cells = cells.
Proof.
  intros H. unfold drop_cell. apply filter_all. intros c Hc.
  apply negb_true_iff. apply String.eqb_neq. intros E. apply H.
  rewrite <- E. apply in_map. exact Hc.
Qed.

Lemma suffix_left_id names cells :
  (forall name, In name (map fst cells) -> ~ In name names) ->
  map (suffix_left names) cells = cells.
Proof.
  intros H. rewrite <- (map_id cells) at 2. apply map_ext_in. intros c Hc.
  unfold suffix_left.
  destruct (has_name (fst c) names) eqn:E; [|reflexivity].
  apply has_name_In in E. elim (H (fst c)); [apply in_map; exact Hc|exact E].
Qed.

Lemma suffix_right_id left_names names :
  (forall name, In name left_names -> ~ In name names) ->
  map (suffix_right left_names) names = names.
Proof.
  intros H. rewrite <- (map_id names) at 2. apply map_ext_in. intros n Hn.
  unfold suffix_right.
  destruct (has_name n left_names) eqn:E; [|reflexivity].
  apply has_name_In in E. elim (H n E Hn).
Qed.

Lemma asof_backward_In right t : forall found r,
  asof_backward right t found = Some r -> found = Some r \/ In r right.
Proof.
  induction right as [|x right IH]; intros found r H; simpl in H; [auto|].
  destruct (key_msg_time x <=? t); [|auto].
  apply IH in H. destruct H as [H|H]; [inversion H; right; left; reflexivity|].
  right. right. exact H.
Qed.

Lemma map_fst_combine (A B : Type) (l : list A) (m : list B) :
  length l = length m -> map fst (combine l m) = l.
Proof.
  revert m. induction l as [|a l IH]; intros [|b m] H; simpl in *;
    try discriminate; [reflexivity|].
  f_equal. apply IH. lia.
Qed.

(** The flag names of a merged row whose payload has no flag name. *)
Lemma merge_row_flag_names (p : Point) right :
  (forall name, In name (map fst (payload p)) -> ~ In name flag_columns) ->
  map fst (right_cells
             (merge_row p (asof_backward (map select_flags right)
                                         (msg_time p) None)))
  = flag_columns.
Proof.
  intros H. unfold merge_row. cbn [right_cells].
  rewrite suffix_right_id by exact H.
  apply map_fst_combine.
  destruct (asof_backward (map select_flags right) (msg_time p) None)
    as [r|] eqn:E.
  - apply asof_backward_In in E. destruct E as [E|E]; [discriminate|].
    apply in_map_iff in E. destruct E as [v [<- _]]. reflexivity.
  - reflexivity.
Qed.

Lemma run_stages s csv out :
  run s csv = Ok out ->
  exists orig_df table,
    preprocess s csv = Ok orig_df
    /\ flag_intervals s orig_df = Ok table
    /\ out = map drop_working_columns (backfill orig_df table).
Proof.
  unfold run. destruct (preprocess s csv) as [orig_df|e] eqn:Hpre; simpl;
    [|discriminate].
  destruct (flag_intervals s orig_df) as [table|e] eqn:Htable; simpl;
    [|discriminate].
  intros H. inversion H. exists orig_df, table. auto.
Qed.

Lemma rec_eta (r : Rec) :
  mkRec (contract_id r) (msg_time r) (load_number r) (payload r) = r.
Proof. destruct r. reflexivity. Qed.

Lemma to_datetime_csv_of csv recs :
  to_datetime csv = Ok recs -> map csv_of recs = csv.
Proof.
  intros H. apply to_datetime_rows in H.
  induction H as [|c r csv recs [Ht [Hc [Hl Hp]]] _ IH]; [reflexivity|].
  simpl. rewrite IH. f_equal. unfold csv_of. rewrite Hc, Hl, Hp, <- Ht.
  destruct c. reflexivity.
Qed.

(** With no reserved name among the passthrough columns, the frame that
    cell 28 hands to [to_csv] is as intended. *)
Lemma frame_keeps_rows_and_adds_flags (s : Settings) (csv : list CsvRow) :
  no_reserved_column csv ->
  forall out, run s csv = Ok out -> frame_as_intended csv out.
Proof.
  intros Hfree out Hrun.
  destruct (run_stages s csv Hrun) as [orig_df [table [Hpre [_ ->]]]].
  destruct (preprocess_recs s csv Hpre) as [recs [Hrecs Hperm]].
  pose proof (to_datetime_csv_of csv Hrecs) as Hcsv.
  assert (Hfree' : forall r name,
            In r recs -> In name (map fst (payload r)) -> ~ In name reserved_columns).
  { intros r name Hr Hname. apply (Hfree (csv_of r)); [|exact Hname].
    rewrite <- Hcsv. apply in_map. exact Hr. }
  assert (How : forall r, In r recs ->
            overwrite "group_number" (overwrite "time_delta" r) = r).
  { intros r Hr. unfold overwrite. simpl.
    rewrite (drop_cell_id "time_delta" (payload r)).
    - rewrite (drop_cell_id "group_number" (payload r)); [apply rec_eta|].
      intros Hin. apply (Hfree' r _ Hr Hin). simpl. tauto.
    - intros Hin. apply (Hfree' r _ Hr Hin). simpl. tauto. }
  assert (Hpts : Permutation (map (fun p : Point => rec p) orig_df) recs).
  { rewrite Hperm. rewrite <- (map_id recs) at 2.
    erewrite map_ext_in; [reflexivity|]. intros r Hr. apply How. exact Hr. }
  assert (Hpayload : forall p : Point, In p orig_df ->
            forall name, In name (map fst (payload p)) ->
                         ~ In name reserved_columns).
  { intros p Hp name Hname.
    assert (Hr : In (rec p) recs).
    { apply (Permutation_in _ Hpts). apply (in_map (fun p : Point => rec p)).
      exact Hp. }
    apply (Hfree' (rec p) name Hr Hname). }
  assert (Hflags : forall p : Point, In p orig_df ->
            forall name, In name (map fst (payload p)) -> ~ In name flag_columns).
  { intros p Hp name Hname Hin. apply (Hpayload p Hp name Hname).
    simpl. right. right. exact Hin. }
  set (sorted := sort_values (fun p : Point => msg_time p) orig_df).
  assert (Hsorted_in : forall p, In p sorted -> In p orig_df).
  { intros p Hp. unfold sorted, sort_values in Hp. apply sort_rows_In in Hp.
    exact Hp. }
  assert (Hrec : map out_rec (map drop_working_columns (backfill orig_df table))
                 = map (fun p : Point => rec p) sorted).
  { unfold backfill, merge_asof. fold sorted. rewrite !map_map.
    apply map_ext_in. intros p Hp.
    unfold drop_working_columns, merge_row.
    cbn [out_rec left_row rec timed].
    rewrite suffix_left_id; [apply rec_eta|].
    apply Hflags, Hsorted_in, Hp. }
  unfold frame_as_intended. split; [|split].
  - rewrite <- (length_map out_rec), Hrec, length_map.
    unfold sorted, sort_values. rewrite sort_rows_length.
    rewrite <- (length_map (fun p : Point => rec p)).
    rewrite (Permutation_length Hpts), <- Hcsv, length_map. reflexivity.
  - rewrite <- (map_map out_rec csv_of), Hrec, <- Hcsv.
    apply Permutation_map. rewrite <- Hpts. apply Permutation_map.
    apply sort_values_perm.
  - intros o Ho. unfold backfill, merge_asof in Ho. fold sorted in Ho.
    rewrite map_map in Ho. apply in_map_iff in Ho.
    destruct Ho as [p [<- Hp]]. apply Hsorted_in in Hp.
    unfold flag_names, payload_names, drop_working_columns.
    cbn [out_flags out_rec].
    split; [|split].
    + unfold group_intervals_out. apply merge_row_flag_names.
      apply Hflags. exact Hp.
    + unfold merge_row. cbn [left_row rec timed payload].
      rewrite suffix_left_id by (apply Hflags; exact Hp).
      intros Hin. apply (Hpayload p Hp _ Hin). simpl. tauto.
    + unfold merge_row. cbn [left_row rec timed payload].
      rewrite suffix_left_id by (apply Hflags; exact Hp).
      intros Hin. apply (Hpayload p Hp _ Hin). simpl. tauto.
Qed.

Lemma to_csv_rows frame : map line_row (to_csv frame) = frame.
Proof.
  unfold to_csv. rewrite <- (map_id frame) at 3. apply map_zip_with_r.
  - reflexivity.
  - rewrite length_map, length_seq. reflexivity.
Qed.

Lemma emit_run s csv written :
  emit s csv = Ok written ->
  exists out, run s csv = Ok out /\ written = to_csv out.
Proof.
  unfold emit. destruct (run s csv) as [out|e]; simpl; [|discriminate].
  intros H. inversion H. exists out. auto.
Qed.

(** C5, as the notebook has it.  When no passthrough column of the input
    is called [time_delta], [group_number] or like one of the ten flag
    columns, a run that returns writes one line per input row, with the key
    and passthrough cells of that row as they came; the columns of a line
    are those of the input followed by exactly the ten flag columns, behind
    the index column that [to_csv] puts in front, and no working column is
    among them. *)
Theorem output_keeps_rows_and_adds_flags (s : Settings) (csv : list CsvRow)
    (written : list CsvLine) :
  no_reserved_column csv ->
  emit s csv = Ok written ->
  output_as_written csv written.
Proof.
  intros Hfree Hemit.
  destruct (emit_run s csv Hemit) as [out [Hrun ->]].
  destruct (frame_keeps_rows_and_adds_flags s Hfree Hrun)
    as [Hlen [Hperm Hrows]].
  assert (Hmap : map source_row (to_csv out)
                 = map (fun o => csv_of (out_rec o)) out).
  { unfold source_row.
    rewrite <- (map_map line_row (fun o => csv_of (out_rec o))).
    rewrite to_csv_rows. reflexivity. }
  unfold output_as_written. split; [|split].
  - rewrite <- (length_map line_row), to_csv_rows. exact Hlen.
  - rewrite Hmap. exact Hperm.
  - intros l Hl.
    assert (Ho : In (line_row l) out).
    { rewrite <- (to_csv_rows out). apply in_map. exact Hl. }
    destruct (Hrows _ Ho) as [Hflags [Htd Hgn]].
    unfold written_columns, input_columns, source_row, csv_of.
    cbn [csv_payload]. fold (payload_names (out_rec (line_row l))).
    rewrite Hflags. split; [|split].
    + rewrite <- app_assoc. reflexivity.
    + intros [E|Hin]; [discriminate|].
      apply in_app_or in Hin. destruct Hin as [Hin|Hin].
      { simpl in Hin. intuition discriminate. }
      apply in_app_or in Hin. destruct Hin as [Hin|Hin]; [exact (Htd Hin)|].
      simpl in Hin. intuition discriminate.
    + intros [E|Hin]; [discriminate|].
      apply in_app_or in Hin. destruct Hin as [Hin|Hin].
      { simpl in Hin. intuition discriminate. }
      apply in_app_or in Hin. destruct Hin as [Hin|Hin]; [exact (Hgn Hin)|].
      simpl in Hin. intuition discriminate.
Qed.

(* ================================================================== *)
(** * The notebook on sample inputs *)

(** Every row of the final table has [invalid_load_duplicate = 0]: cell 24
    sets the column to 0 and then writes its findings to
    [invalid_duplicate_loads]. *)
Lemma invalid_load_duplicate_is_zero s orig_df table (v : Verdict) :
  flag_intervals s orig_df = Ok table -> In v table ->
  invalid_load_duplicate v = 0.
Proof.
  intros Htable Hv.
  apply flag_intervals_cell25 in Htable. destruct Htable as [rated [_ ->]].
  set (t := cell23 s (cell22 (cell21 rated))) in *.
  assert (H : Permutation
                (map (fun r : Contig => invalid_load_duplicate r) (cell24 t))
                (map (fun r : Contig => invalid_load_duplicate r)
                     (map (contig_set_duplicate 0) t))).
  { unfold cell24. apply groupby_contract_apply_perm.
    intros df. apply flag_duplicated_load_numbers_keeps. reflexivity. }
  unfold cell25 in Hv. apply in_map_iff in Hv. destruct Hv as [r [<- Hr]].
  simpl.
  assert (Hin : In (invalid_load_duplicate r)
                   (map (fun r : Contig => invalid_load_duplicate r)
                        (map (contig_set_duplicate 0) t))).
  { apply (Permutation_in _ H).
    apply (in_map (fun r : Contig => invalid_load_duplicate r)). exact Hr. }
  rewrite map_map in Hin. apply in_map_iff in Hin.
  destruct Hin as [r0 [E _]]. rewrite <- E. reflexivity.
Qed.

(** C1 on the code.  With load numbers 1, 1, 2, 2, 1, 1 on one contract
    there are three intervals, labelled 1, 2 and 1.  The two intervals
    labelled 1 are found ([invalid_duplicate_loads] is 1 on both) but their
    [invalid_load_duplicate], the column that feeds [invalid_load] and the
    output, is 0. *)
Theorem duplicate_flag_not_set_on_repeated_label :
  exists orig_df table,
    preprocess notebook_settings repeated_label_csv = Ok orig_df
    /\ flag_intervals notebook_settings orig_df = Ok table
    /\ map (fun v : Verdict =>
              (load v, invalid_duplicate_loads v, invalid_load_duplicate v)) table
       = [ (Some 1, Some 1, 0); (Some 2, None, 0); (Some 1, Some 1, 0) ].
Proof.
  do 2 eexists. split; [vm_compute; reflexivity|].
  split; vm_compute; reflexivity.
Qed.

(** C2 on the code.  Contract 1 has points at 0 h and 2 h, contract 2 has
    one point at 1 h; there is one interval per contract.  The point of
    contract 1 at 2 h comes out with the flags of the interval of contract
    2, whose key (1 h) is the last one not after 2 h, and not with the
    flags of its own interval. *)
Theorem backfill_takes_flags_across_contracts :
  exists orig_df table out,
    preprocess notebook_settings two_contracts_csv = Ok orig_df
    /\ flag_intervals notebook_settings orig_df = Ok table
    /\ run notebook_settings two_contracts_csv = Ok out
    /\ map (fun v : Verdict => (interval_key v, flag_cells (select_flags v))) table
       = [ ((1, 1), [0; 0; 1; 0; 1; 1; 0; 0; 0; 1]);
           ((2, 1), [1; 0; 1; 0; 0; 0; 0; 0; 0; 1]) ]
    /\ map (fun o => (contract_id (out_rec o), msg_time (out_rec o),
                      map snd (out_flags o))) out
       = [ (1, hours 0, map Some [0; 0; 1; 0; 1; 1; 0; 0; 0; 1]);
           (2, hours 1, map Some [1; 0; 1; 0; 0; 0; 0; 0; 0; 1]);
           (1, hours 2, map Some [1; 0; 1; 0; 0; 0; 0; 0; 0; 1]) ].
Proof.
  do 3 eexists. split; [vm_compute; reflexivity|].
  split; [vm_compute; reflexivity|].
  split; [vm_compute; reflexivity|].
  split; vm_compute; reflexivity.
Qed.

(** C8 against the code: with one good row and one row whose timestamp
    does not parse, the run does not come back with the good row. *)
Lemma garbled_row_ends_the_run :
  ~ rejects_only_offending_rows notebook_settings garbled_csv.
Proof.
  intros [out [Hrun _]]. vm_compute in Hrun. discriminate.
Qed.

(** C5 against the code: a passthrough column called [time_delta] is
    overwritten by cell 6 and dropped by cell 28.  The run writes two
    lines, and neither has the cells of the first input row. *)
Lemma clashing_column_is_lost :
  (exists written,
     emit notebook_settings clashing_csv = Ok written
     /\ length written = 2%nat
     /\ map (fun l => csv_payload (source_row l)) written = [ []; [] ]
     /\ map csv_payload clashing_csv
        = [ [("time_delta", "12")]; [("time_delta", "15")] ]%string)
  /\ ~ (forall written, emit notebook_settings clashing_csv = Ok written ->
                        output_as_specified clashing_csv written).
Proof.
  split.
  { eexists. split; [vm_compute; reflexivity|].
    split; [reflexivity|]. split; reflexivity. }
  intros H.
  remember (emit notebook_settings clashing_csv) as r eqn:E.
  vm_compute in E. subst r.
  specialize (H _ eq_refl). destruct H as [_ [Hperm _]].
  apply Permutation_sym in Hperm.
  assert (Hin := Permutation_in _ Hperm (or_introl eq_refl)).
  vm_compute in Hin. destruct Hin as [Hin|[Hin|[]]]; discriminate.
Qed.

(** C6 on the code.  A file of one record gives one interval, of one point
    and with a null average.  The column of averages then holds NaT alone,
    so the comparison of cell 19 raises TypeError and the run ends there:
    the reporting-gap flag is not 0 but missing, and the ping-rate flag of
    cell 20 is never computed. *)
Theorem null_average_raises_type_error :
  exists orig_df,
    preprocess notebook_settings single_record_csv = Ok orig_df
    /\ map (fun i : Interval => (time_delta_avg i, total_points i))
           (make_intervals orig_df) = [ (None, 1) ]
    /\ rate_intervals notebook_settings (make_intervals orig_df)
       = Raised TypeError
    /\ flag_intervals notebook_settings orig_df = Raised TypeError
    /\ run notebook_settings single_record_csv = Raised TypeError
    /\ emit notebook_settings single_record_csv = Raised TypeError.
Proof.
  eexists. split; [vm_compute; reflexivity|].
  split; [vm_compute; reflexivity|].
  split; [vm_compute; reflexivity|].
  split; [vm_compute; reflexivity|].
  split; vm_compute; reflexivity.
Qed.

(* ================================================================== *)
(** * The theorems at sample inputs *)


(** C4 at the tie input. *)
Lemma intervals_partition_records_witness :
  preprocess notebook_settings tie_csv = Ok tie_points
  /\ contract_points 7 (make_intervals tie_points)
     = contract_rows csv_contract_id 7 tie_csv.
Proof.
  assert (H : preprocess notebook_settings tie_csv = Ok tie_points)
    by (vm_compute; reflexivity).
  split; [exact H|].
  apply (intervals_partition_records notebook_settings tie_csv 7 H).
Defined.

(** C5 at the tie input, which has no passthrough column at all. *)
Lemma output_keeps_rows_and_adds_flags_witness :
  no_reserved_column tie_csv
  /\ exists written, emit notebook_settings tie_csv = Ok written
                     /\ output_as_written tie_csv written.
Proof.
  assert (H : no_reserved_column tie_csv).
  { intros r name Hr Hname. simpl in Hr.
    destruct Hr as [<-|[<-|[<-|[<-|[]]]]]; simpl in Hname; contradiction. }
  split; [exact H|].
  assert (Hrun : emit notebook_settings tie_csv
                 = Ok (value_of (emit notebook_settings tie_csv)))
    by (vm_compute; reflexivity).
  eexists. split; [exact Hrun|].
  apply (output_keeps_rows_and_adds_flags notebook_settings H Hrun).
Defined.

(** C7 at the input with a pause of 50 s between its two intervals: the
    first interval of contract 7 has flag 0, and the second, which begins
    more than 20 s after the first ends, has flag 1. *)
Lemma noncontiguous_flag_per_contract_witness :
  exists q r : Contig,
    nth_error (cell23 notebook_settings gap_overlapped) 0 = Some q
    /\ nth_error (cell23 notebook_settings gap_overlapped) 1 = Some r
    /\ contract q = contract r
    /\ load_gap_threshold notebook_settings
       < Z.abs (msg_time_min r - msg_time_max q)
    /\ invalid_load_noncontiguous q = 0
    /\ invalid_load_noncontiguous r = 1.
Proof.
  do 2 eexists.
  assert (H0 : nth_error (cell23 notebook_settings gap_overlapped) 0
               = Some (nth 0 (cell23 notebook_settings gap_overlapped)
                           (mkContig (hd (mkOverlapped (mkDuped
                              (mkRated lone_interval 0 0 0 0 0 0) 0 None) 0)
                              gap_overlapped) None 0)))
    by (vm_compute; reflexivity).
  assert (H1 : nth_error (cell23 notebook_settings gap_overlapped) 1
               = Some (nth 1 (cell23 notebook_settings gap_overlapped)
                           (mkContig (hd (mkOverlapped (mkDuped
                              (mkRated lone_interval 0 0 0 0 0 0) 0 None) 0)
                              gap_overlapped) None 0)))
    by (vm_compute; reflexivity).
  split; [exact H0|]. split; [exact H1|].
  split; [vm_compute; reflexivity|]. split; [vm_compute; reflexivity|].
  destruct (noncontiguous_flag_per_contract notebook_settings gap_overlapped)
    as [_ [Hfirst [Hnext _]]].
  split.
  - apply (Hfirst 0%nat _ H0). intros m p Hm. lia.
  - destruct (Hnext 1%nat _ 0%nat _ H1 (Nat.lt_0_succ 0) H0)
      as [q' [Hq' [_ [_ [Hup _]]]]]; [vm_compute; reflexivity|].
    apply Hup.
    change (nth_error (cell23 notebook_settings gap_overlapped) 0 = Some q')
      in Hq'.
    rewrite H0 in Hq'. injection Hq' as <-. vm_compute. reflexivity.
Defined.

(** C8 at the garbled input. *)
Lemma unparseable_timestamp_aborts_run_witness :
  (exists r, In r garbled_csv /\ parses r = false)
  /\ run notebook_settings garbled_csv = Raised ParseError.
Proof.
  assert (H : exists r, In r garbled_csv /\ parses r = false).
  { eexists. split; [right; left; reflexivity|reflexivity]. }
  split; [exact H|].
  apply (proj1 (proj2 (proj2 (unparseable_timestamp_aborts_run notebook_settings garbled_csv H)))).
Defined.

(** C9 at the tie input: the first interval has its overlap flag set, and
    so [invalid_load]. *)
Lemma invalid_load_is_any_flag_witness :
  exists v : Verdict,
    flag_intervals notebook_settings tie_points = Ok tie_table
    /\ In v tie_table
    /\ invalid_load_overlap v = 1
    /\ invalid_load v = 1.
Proof.
  assert (Ht : flag_intervals notebook_settings tie_points = Ok tie_table)
    by (vm_compute; reflexivity).
  eexists. split; [exact Ht|].
  split; [left; reflexivity|]. split; [reflexivity|].
  refine (proj1 (@invalid_load_is_any_flag notebook_settings tie_points
                   tie_table _ Ht (or_introl eq_refl)) _).
  do 6 right. left. reflexivity.
Defined.

(** C10 at the tie input: the points at 10 s with load numbers 1 and 2. *)
Lemma timestamp_tie_flags_both_intervals_witness :
  exists p q : Point,
    nth_error (filter (fun x : Point => contract_id x =? 7) tie_points) 1 = Some p
    /\ nth_error (filter (fun x : Point => contract_id x =? 7) tie_points) 2 = Some q
    /\ group_number p <> group_number q
    /\ msg_time p = msg_time q
    /\ exists a b : Verdict,
         In a tie_table /\ In b tie_table
         /\ msg_time_max a = msg_time_min b
         /\ invalid_load_overlap a = 1 /\ invalid_load_overlap b = 1.
Proof.
  assert (Hpre : preprocess notebook_settings tie_csv = Ok tie_points)
    by (vm_compute; reflexivity).
  assert (Ht : flag_intervals notebook_settings tie_points = Ok tie_table)
    by (vm_compute; reflexivity).
  do 2 eexists.
  split; [vm_compute; reflexivity|].
  split; [vm_compute; reflexivity|].
  split; [vm_compute; discriminate|].
  split; [reflexivity|].
  destruct (@timestamp_tie_flags_both_intervals notebook_settings tie_csv
              tie_points tie_table 7 1 _ _ Hpre Ht eq_refl eq_refl)
    as [a [b [Ha [Hb [_ [_ [_ [_ [Hab [Fa [Fb _]]]]]]]]]]].
  - vm_compute. discriminate.
  - reflexivity.
  - exists a, b. tauto.
Defined.

(* ================================================================== *)
(** * More on the groups and their intervals *)

Lemma ne_false (a b : option Z) :
  ne a b = false -> exists x, a = Some x /\ b = Some x.
Proof.
  destruct a as [x|], b as [y|]; simpl; try discriminate.
  intros H. apply negb_false_iff, Z.eqb_eq in H. subst y. exists x. auto.
Qed.

Lemma nth_error_below (A : Type) (l : list A) n m a :
  nth_error l n = Some a -> (m <= n)%nat -> exists b, nth_error l m = Some b.
Proof.
  intros Hn Hm.
  destruct (nth_error l m) as [b|] eqn:E; [exists b; reflexivity|].
  apply nth_error_None in E.
  assert (nth_error l n <> None) by congruence.
  apply nth_error_Some in H. lia.
Qed.

(** Two points of a scan that carry the same group number carry the same
    load number, and it is not null. *)
Lemma number_from_same_group acc prev group : forall n m (p q : Point),
  (m < n)%nat ->
  nth_error (number_from acc prev group) m = Some p ->
  nth_error (number_from acc prev group) n = Some q ->
  group_number p = group_number q ->
  exists x, load_number p = Some x /\ load_number q = Some x.
Proof.
  induction n as [|n IH]; intros m p q Hmn Hp Hq Hg; [lia|].
  destruct (@nth_error_below _ _ (S n) n q Hq ltac:(lia)) as [q' Hq'].
  pose proof (@number_from_monotone acc prev group m n p q' ltac:(lia) Hp Hq').
  pose proof (@number_from_monotone acc prev group n (S n) q' q ltac:(lia) Hq' Hq).
  pose proof (@number_from_step acc prev group n q' q Hq' Hq) as Hstep.
  destruct (ne (load_number q) (load_number q')) eqn:Hne; [lia|].
  apply ne_false in Hne. destruct Hne as [x [Ex Ex']].
  destruct (Nat.eq_dec m n) as [->|Hneq].
  - rewrite Hp in Hq'. inversion Hq'. subst q'. exists x. auto.
  - destruct (IH m p q' ltac:(lia) Hp Hq' ltac:(lia)) as [y [Ey Ey']].
    exists x. split; [congruence|exact Ex].
Qed.

(** Group numbers start at 1 and leave no number out. *)
Lemma number_from_no_gap group : forall n (p : Point),
  nth_error (number_from 0 None group) n = Some p ->
  1 <= group_number p
  /\ (1 < group_number p ->
      exists m (q : Point),
        (m < n)%nat /\ nth_error (number_from 0 None group) m = Some q
        /\ group_number q = group_number p - 1).
Proof.
  induction n as [|n IH]; intros p Hp.
  - apply number_from_first in Hp. split; [lia|intros; lia].
  - destruct (@nth_error_below _ _ (S n) n p Hp ltac:(lia)) as [q' Hq'].
    pose proof (@number_from_step 0 None group n q' p Hq' Hp) as Hstep.
    destruct (IH q' Hq') as [H1 H2].
    destruct (ne (load_number p) (load_number q')).
    + split; [lia|]. intros _. exists n, q'. split; [lia|]. split; [exact Hq'|lia].
    + rewrite Hstep. split; [exact H1|]. intros Hgt.
      destruct (H2 Hgt) as [m [q [Hm [Hq Eg]]]].
      exists m, q. split; [lia|]. split; [exact Hq|exact Eg].
Qed.

(** Between a point of group [g] and a later point of group [g + 1] there
    are two neighbours where the number goes from [g] to [g + 1]. *)
Lemma number_from_boundary acc prev group : forall n m (p q : Point),
  nth_error (number_from acc prev group) m = Some p ->
  nth_error (number_from acc prev group) n = Some q ->
  (m < n)%nat ->
  group_number q = group_number p + 1 ->
  exists k (a b : Point),
    nth_error (number_from acc prev group) k = Some a
    /\ nth_error (number_from acc prev group) (S k) = Some b
    /\ group_number a = group_number p
    /\ group_number b = group_number q.
Proof.
  induction n as [|n IH]; intros m p q Hp Hq Hmn Hg; [lia|].
  destruct (@nth_error_below _ _ (S n) n q Hq ltac:(lia)) as [q' Hq'].
  pose proof (@number_from_monotone acc prev group m n p q' ltac:(lia) Hp Hq').
  pose proof (@number_from_monotone acc prev group n (S n) q' q ltac:(lia) Hq' Hq).
  destruct (Z.eq_dec (group_number q') (group_number p)) as [E|E].
  - exists n, q', q. auto.
  - assert (Hg' : group_number q' = group_number p + 1) by lia.
    assert (Hmn' : (m < n)%nat).
    { destruct (Nat.eq_dec m n) as [->|]; [|lia].
      rewrite Hp in Hq'. inversion Hq'. subst q'. lia. }
    destruct (IH m p q' Hp Hq' Hmn' Hg') as [k [a [b [Ha [Hb [Ea Eb]]]]]].
    exists k, a, b. split; [exact Ha|]. split; [exact Hb|].
    split; [exact Ea|lia].
Qed.

Lemma filter_andb (A : Type) (f g : A -> bool) l :
  filter g (filter f l) = filter (fun x => f x && g x) l.
Proof.
  induction l as [|x l IH]; simpl; [reflexivity|].
  destruct (f x); simpl; [|exact IH].
  destruct (g x); rewrite IH; reflexivity.
Qed.

(** The points of a (contract, group) key are the points of that group
    among the points of the contract. *)
Lemma get_group_contract orig_df c g :
  get_group key_eqb point_key orig_df (c, g)
  = filter (fun p : Point => group_number p =? g)
           (filter (fun p : Point => contract_id p =? c) orig_df).
Proof. unfold get_group. rewrite filter_andb. reflexivity. Qed.

Lemma filter_two (A : Type) (f : A -> bool) l :
  (2 <= length (filter f l))%nat ->
  exists m n a b,
    (m < n)%nat /\ nth_error l m = Some a /\ nth_error l n = Some b
    /\ f a = true /\ f b = true.
Proof.
  induction l as [|x l IH]; simpl; [lia|].
  destruct (f x) eqn:Ex; simpl; intros H.
  - destruct (filter f l) as [|y ys] eqn:E; [simpl in H; lia|].
    assert (Hy : In y (filter f l)) by (rewrite E; left; reflexivity).
    apply filter_In in Hy. destruct Hy as [Hy Fy].
    apply In_nth_error in Hy. destruct Hy as [n Hn].
    exists 0%nat, (S n), x, y. split; [lia|]. auto.
  - destruct (IH H) as [m [n [a [b [Hmn [Ha [Hb [Fa Fb]]]]]]]].
    exists (S m), (S n), a, b. split; [lia|]. auto.
Qed.

Lemma series_min_constant (l : option Z) (col : list (option Z)) :
  col <> [] -> (forall c, In c col -> c = l) -> series_min (dropna col) = l.
Proof.
  intros Hne Hall. destruct l as [x|].
  - assert (Hd : forall c, In c (dropna col) -> c = x).
    { intros c Hc. unfold dropna in Hc. apply in_flat_map in Hc.
      destruct Hc as [o [Ho Hc]]. rewrite (Hall o Ho) in Hc.
      destruct Hc as [<-|[]]. reflexivity. }
    destruct col as [|o col]; [congruence|].
    assert (Ho : o = Some x) by (apply Hall; left; reflexivity).
    subst o. simpl. f_equal.
    assert (Hrest : forall c, In c (dropna col) -> c = x).
    { intros c Hc. apply Hd. simpl. right. exact Hc. }
    clear Hd Hall Hne. induction (dropna col) as [|y ys IH]; [reflexivity|].
    simpl. rewrite (Hrest y (or_introl eq_refl)), Z.min_id.
    apply IH. intros c Hc. apply Hrest. right. exact Hc.
  - replace (dropna col) with (@nil Z); [reflexivity|].
    symmetry. clear Hne. induction col as [|o col IH]; [reflexivity|].
    simpl. rewrite (Hall o (or_introl eq_refl)). simpl.
    apply IH. intros c Hc. apply Hall. right. exact Hc.
Qed.

Lemma interval_of_group_fields k df i :
  interval_of_group k df = [i] ->
  load i = series_min (dropna (map (fun q : Point => load_number q) df))
  /\ total_points i = Z.of_nat (length df).
Proof.
  destruct df as [|p ps]; [discriminate|]. unfold interval_of_group.
  intros H. injection H as <-. split; reflexivity.
Qed.

(** In the frame that cells 5 to 7 return, the points of one interval all
    carry the load number of the interval. *)
Lemma interval_load s csv orig_df (p : Point) i :
  preprocess s csv = Ok orig_df ->
  In p orig_df -> In i (make_intervals orig_df) ->
  interval_key i = point_key p ->
  (forall q : Point, In q orig_df -> point_key q = point_key p ->
                     load_number q = load_number p)
  /\ load i = load_number p
  /\ (load_number p = None -> total_points i = 1).
Proof.
  intros Hpre Hp Hi Hk.
  destruct (@preprocess_assign s csv orig_df Hpre) as [rows ->].
  set (df := assign_group_numbers rows) in *.
  set (c := contract_id p). set (g := group_number p).
  destruct (contract_points_scan rows c) as [grp [Hscan Hsorted]]. fold df in Hscan.
  assert (Hpos : forall q : Point, In q df -> point_key q = point_key p ->
            exists n, nth_error (number_from 0 None grp) n = Some q).
  { intros q Hq Ek. apply In_nth_error. rewrite <- Hscan. apply filter_In.
    split; [exact Hq|]. apply Z.eqb_eq. unfold point_key in Ek.
    injection Ek as Ec _. exact Ec. }
  assert (Hsame : forall q : Point, In q df -> point_key q = point_key p ->
            load_number q = load_number p).
  { intros q Hq Ek. destruct (Hpos q Hq Ek) as [n Hn].
    destruct (Hpos p Hp eq_refl) as [m Hm].
    assert (Eg : group_number q = group_number p)
      by (unfold point_key in Ek; injection Ek as _ Eg; exact Eg).
    destruct (Nat.lt_trichotomy m n) as [Hlt|[->|Hgt]].
    - destruct (@number_from_same_group 0 None grp n m p q Hlt Hm Hn
                  (eq_sym Eg)) as [x [E1 E2]]. congruence.
    - rewrite Hm in Hn. inversion Hn. reflexivity.
    - destruct (@number_from_same_group 0 None grp m n q p Hgt Hn Hm Eg)
        as [x [E1 E2]]. congruence. }
  split; [exact Hsame|].
  pose proof (@make_intervals_In df i Hi) as Ei. rewrite Hk in Ei.
  apply interval_of_group_fields in Ei. destruct Ei as [Eload Ecount].
  set (pts := get_group key_eqb point_key df (point_key p)) in *.
  assert (Hpts : forall q : Point, In q pts ->
            In q df /\ point_key q = point_key p).
  { intros q Hq. apply (get_group_In _ _ key_eqb_spec) in Hq. exact Hq. }
  assert (Hp_in : In p pts).
  { apply (get_group_In _ _ key_eqb_spec). auto. }
  split.
  - rewrite Eload. apply series_min_constant.
    + intros E. apply map_eq_nil in E. rewrite E in Hp_in. exact Hp_in.
    + intros l Hl. apply in_map_iff in Hl. destruct Hl as [q [<- Hq]].
      apply Hsame; apply (Hpts q Hq).
  - intros Hnull. rewrite Ecount.
    assert (Hlen : (length pts < 2)%nat).
    { destruct (le_lt_dec 2 (length pts)) as [Hge|Hlt]; [exfalso|exact Hlt].
      unfold pts in Hge. change (point_key p) with (c, g) in Hge.
      rewrite get_group_contract in Hge. fold df in Hge. rewrite Hscan in Hge.
      apply filter_two in Hge.
      destruct Hge as [m [n [a [b [Hmn [Ha [Hb [Fa Fb]]]]]]]].
      apply Z.eqb_eq in Fa. apply Z.eqb_eq in Fb.
      destruct (@number_from_same_group 0 None grp n m a b Hmn Ha Hb
                  ltac:(congruence)) as [x [Ea _]].
      assert (Ha_in : In a df /\ point_key a = point_key p).
      { apply nth_error_In in Ha. rewrite <- Hscan in Ha.
        apply filter_In in Ha. destruct Ha as [Ha Hc]. split; [exact Ha|].
        apply Z.eqb_eq in Hc. unfold point_key. f_equal; assumption. }
      destruct Ha_in as [Ha_in Ka].
      rewrite (Hsame a Ha_in Ka) in Ea. congruence. }
    destruct pts as [|p0 [|p1 ps]]; [contradiction|reflexivity|simpl in Hlen; lia].
Qed.

Lemma pipeline_scan s csv orig_df c :
  preprocess s csv = Ok orig_df ->
  exists grp,
    filter (fun p : Point => contract_id p =? c) orig_df = number_from 0 None grp
    /\ StronglySorted (fun x y : Timed => msg_time x <= msg_time y) grp.
Proof.
  intros Hpre. destruct (@preprocess_assign s csv orig_df Hpre) as [rows ->].
  apply contract_points_scan.
Qed.

(** A point of an interval, with its place among the points of the
    contract. *)
Lemma interval_point_place orig_df grp (i : Interval) (y : Point) :
  filter (fun p : Point => contract_id p =? contract i) orig_df
  = number_from 0 None grp ->
  In y (get_group key_eqb point_key orig_df (interval_key i)) ->
  In y orig_df /\ point_key y = interval_key i
  /\ group_number y = group i
  /\ exists n, nth_error (number_from 0 None grp) n = Some y.
Proof.
  intros Hscan Hy. apply (get_group_In _ _ key_eqb_spec) in Hy.
  destruct Hy as [Hy Ek]. split; [exact Hy|]. split; [exact Ek|].
  unfold point_key, interval_key in Ek. injection Ek as Ec Eg.
  split; [exact Eg|].
  apply In_nth_error. rewrite <- Hscan. apply filter_In.
  split; [exact Hy|]. apply Z.eqb_eq. exact Ec.
Qed.

(** X1.  Every interval of cell 9, whatever the frame: [msg_time_min] is
    not after [msg_time_max], so the duration is not negative; both ends
    are the [msg_time] of a point of the interval's (contract, group); and
    every point of that key lies between them. *)
Theorem interval_spans_its_points (orig_df : list Point) (i : Interval) :
  In i (make_intervals orig_df) ->
  msg_time_min i <= msg_time_max i
  /\ 0 <= total_time i
  /\ (exists x : Point, In x orig_df /\ point_key x = interval_key i
                        /\ msg_time x = msg_time_min i)
  /\ (exists y : Point, In y orig_df /\ point_key y = interval_key i
                        /\ msg_time y = msg_time_max i)
  /\ (forall p : Point, In p orig_df -> point_key p = interval_key i ->
        msg_time_min i <= msg_time p <= msg_time_max i).
Proof.
  intros Hi.
  destruct (@interval_of_group_bounds _ _ _ (@make_intervals_In _ _ Hi))
    as [Hall [[x [Hx Ex]] [y [Hy Ey]]]].
  pose proof (Hall x Hx) as Hrange.
  apply (get_group_In _ _ key_eqb_spec) in Hx.
  apply (get_group_In _ _ key_eqb_spec) in Hy.
  split; [lia|]. split; [unfold total_time; lia|].
  split; [exists x; tauto|]. split; [exists y; tauto|].
  intros p Hp Hk. apply Hall. apply (get_group_In _ _ key_eqb_spec). tauto.
Qed.


(** The intervals of a contract follow one another in time in the order
    of their group numbers. *)
Lemma interval_chain s csv orig_df (i j : Interval) :
  preprocess s csv = Ok orig_df ->
  In i (make_intervals orig_df) -> In j (make_intervals orig_df) ->
  contract i = contract j -> group i < group j ->
  msg_time_max i <= msg_time_min j.
Proof.
  intros Hpre Hi Hj Hc Hg.
  destruct (pipeline_scan s csv (contract i) Hpre) as [grp [Hscan Hsorted]].
  destruct (@interval_of_group_bounds _ _ _ (@make_intervals_In _ _ Hi))
    as [_ [_ [y [Hy Ey]]]].
  destruct (@interval_of_group_bounds _ _ _ (@make_intervals_In _ _ Hj))
    as [_ [[x [Hx Ex]] _]].
  destruct (@interval_point_place orig_df grp i y Hscan Hy)
    as [_ [_ [Gy [n Hn]]]].
  assert (Hscan' : filter (fun p : Point => contract_id p =? contract j) orig_df
                   = number_from 0 None grp) by (rewrite <- Hc; exact Hscan).
  destruct (@interval_point_place orig_df grp j x Hscan' Hx)
    as [_ [_ [Gx [m Hm]]]].
  rewrite <- Ey, <- Ex.
  destruct (le_lt_dec m n) as [Hle|Hlt].
  - pose proof (@number_from_monotone 0 None grp m n x y Hle Hm Hn). lia.
  - apply (StronglySorted_nth (number_from_sorted 0 None Hsorted) Hlt Hn Hm).
Qed.


(** X3.  In the frame that cells 5 to 7 return, the intervals of a contract
    follow one another in time in the order of their group numbers: an
    interval ends no later than any interval of a higher group number
    begins.  So the closed ranges of two intervals of a contract meet only
    when the earlier one ends on the very timestamp on which the later one
    begins. *)
Theorem intervals_follow_in_time (s : Settings) (csv : list CsvRow)
    (orig_df : list Point) (i j : Interval) :
  preprocess s csv = Ok orig_df ->
  In i (make_intervals orig_df) -> In j (make_intervals orig_df) ->
  contract i = contract j -> group i < group j ->
  msg_time_max i <= msg_time_min j
  /\ (overlaps i j = true <-> msg_time_max i = msg_time_min j).
Proof.
  intros Hpre Hi Hj Hc Hg.
  pose proof (@interval_chain s csv orig_df i j Hpre Hi Hj Hc Hg) as Hchain.
  split; [exact Hchain|].
  destruct (@interval_of_group_bounds _ _ _ (@make_intervals_In _ _ Hi))
    as [_ [[x [Hx Ex]] [y [Hy Ey]]]].
  destruct (@interval_of_group_bounds _ _ _ (@make_intervals_In _ _ Hj))
    as [Hall [[x' [Hx' Ex']] _]].
  pose proof (@interval_of_group_bounds _ _ _ (@make_intervals_In _ _ Hi))
    as [Hall_i _].
  pose proof (Hall_i x Hx). pose proof (Hall x' Hx').
  unfold overlaps. rewrite andb_true_iff, !Z.leb_le. lia.
Qed.

(** X4.  In the frame that cells 5 to 7 return, the intervals of a contract
    are numbered 1, 2, 3, ... without a gap: group numbers are at least 1,
    and below every interval of group [g > 1] there is the interval of
    group [g - 1] of the same contract. *)
Theorem interval_groups_have_no_gap (s : Settings) (csv : list CsvRow)
    (orig_df : list Point) (i : Interval) :
  preprocess s csv = Ok orig_df ->
  In i (make_intervals orig_df) ->
  1 <= group i
  /\ (1 < group i ->
      exists j, In j (make_intervals orig_df)
                /\ contract j = contract i /\ group j = group i - 1).
Proof.
  intros Hpre Hi.
  destruct (pipeline_scan s csv (contract i) Hpre) as [grp [Hscan _]].
  destruct (@interval_of_group_bounds _ _ _ (@make_intervals_In _ _ Hi))
    as [_ [[x [Hx _]] _]].
  destruct (@interval_point_place orig_df grp i x Hscan Hx)
    as [_ [_ [Gx [n Hn]]]].
  destruct (@number_from_no_gap grp n x Hn) as [H1 H2].
  split; [lia|]. intros Hgt.
  destruct H2 as [m [q [_ [Hq Gq]]]]; [lia|].
  apply nth_error_In in Hq. rewrite <- Hscan in Hq.
  apply filter_In in Hq. destruct Hq as [Hq Cq]. apply Z.eqb_eq in Cq.
  destruct (@make_intervals_has_key orig_df q Hq) as [j [Hj Kj]].
  exists j. split; [exact Hj|].
  unfold interval_key, point_key in Kj. injection Kj as Ec Eg.
  split; [congruence|lia].
Qed.

(** X5.  In the frame that cells 5 to 7 return, two intervals of a contract
    with consecutive group numbers never carry the same load number: their
    loads differ, or one of them is null. *)
Theorem neighbouring_intervals_differ_in_load (s : Settings)
    (csv : list CsvRow) (orig_df : list Point) (i j : Interval) :
  preprocess s csv = Ok orig_df ->
  In i (make_intervals orig_df) -> In j (make_intervals orig_df) ->
  contract i = contract j -> group j = group i + 1 ->
  ne (load j) (load i) = true.
Proof.
  intros Hpre Hi Hj Hc Hg.
  destruct (pipeline_scan s csv (contract i) Hpre) as [grp [Hscan Hsorted]].
  destruct (@interval_of_group_bounds _ _ _ (@make_intervals_In _ _ Hi))
    as [_ [[x [Hx _]] _]].
  destruct (@interval_of_group_bounds _ _ _ (@make_intervals_In _ _ Hj))
    as [_ [[y [Hy _]] _]].
  destruct (@interval_point_place orig_df grp i x Hscan Hx)
    as [_ [_ [Gx [m Hm]]]].
  assert (Hscan' : filter (fun p : Point => contract_id p =? contract j) orig_df
                   = number_from 0 None grp) by (rewrite <- Hc; exact Hscan).
  destruct (@interval_point_place orig_df grp j y Hscan' Hy)
    as [_ [_ [Gy [n Hn]]]].
  assert (Hmn : (m < n)%nat).
  { destruct (le_lt_dec n m) as [Hle|Hlt]; [|exact Hlt].
    pose proof (@number_from_monotone 0 None grp n m y x Hle Hn Hm). lia. }
  destruct (@number_from_boundary 0 None grp n m x y Hm Hn Hmn ltac:(lia))
    as [k [a [b [Ha [Hb [Ga Gb]]]]]].
  pose proof (@number_from_step 0 None grp k a b Ha Hb) as Hstep.
  assert (Hin : forall (z : Point) pos,
            nth_error (number_from 0 None grp) pos = Some z ->
            In z orig_df /\ contract_id z = contract i).
  { intros z pos Hz. apply nth_error_In in Hz. rewrite <- Hscan in Hz.
    apply filter_In in Hz. destruct Hz as [Hz Cz]. apply Z.eqb_eq in Cz. auto. }
  destruct (Hin a k Ha) as [Ha_in Ca]. destruct (Hin b (S k) Hb) as [Hb_in Cb].
  assert (Ka : interval_key i = point_key a).
  { unfold interval_key, point_key. f_equal; congruence. }
  assert (Kb : interval_key j = point_key b).
  { unfold interval_key, point_key. f_equal; congruence. }
  destruct (@interval_load s csv orig_df a i Hpre Ha_in Hi Ka) as [_ [La _]].
  destruct (@interval_load s csv orig_df b j Hpre Hb_in Hj Kb) as [_ [Lb _]].
  rewrite La, Lb.
  destruct (ne (load_number b) (load_number a)); [reflexivity|lia].
Qed.

(* ================================================================== *)
(** * The time deltas (cell 6) *)

Lemma add_time_delta_scan_from s seen rows :
  zip_with (fun r d => mkTimed (overwrite "time_delta" r) (null_outlier s d))
    rows
    (zip_with (fun (r : Rec) prev => option_map (fun p => msg_time r - p) prev)
       rows (groupby_shift_from contract_id msg_time seen rows))
  = delta_from s seen rows.
Proof.
  revert seen. induction rows as [|r rest IH]; intros seen; [reflexivity|].
  simpl groupby_shift_from. rewrite !zip_with_cons. simpl delta_from.
  f_equal; [|apply IH].
  destruct (prev_in_group contract_id seen r); reflexivity.
Qed.

Lemma add_time_delta_scan s rows : add_time_delta s rows = delta_from s [] rows.
Proof. apply add_time_delta_scan_from. Qed.

Lemma find_ext_eq (A : Type) (f g : A -> bool) l :
  (forall x, f x = g x) -> find f l = find g l.
Proof.
  intros H. induction l as [|x l IH]; simpl; [reflexivity|].
  rewrite H, IH. reflexivity.
Qed.

(** The rows of one contract in the frame of cell 6 are that contract's
    rows, each with the difference to the row before it. *)
Lemma delta_from_contract s c rows : forall seen,
  filter (fun t : Timed => contract_id t =? c) (delta_from s seen rows)
  = delta_chain s
      (option_map msg_time (find (fun y => contract_id y =? c) seen))
      (filter (fun r => contract_id r =? c) rows).
Proof.
  induction rows as [|r rest IH]; intros seen; [reflexivity|].
  simpl delta_from. simpl filter.
  change (contract_id (overwrite "time_delta" r)) with (contract_id r).
  destruct (contract_id r =? c) eqn:E.
  - apply Z.eqb_eq in E. simpl delta_chain. f_equal.
    + f_equal. f_equal. unfold prev_in_group.
      rewrite (find_ext_eq (fun y => contract_id y =? contract_id r)
                           (fun y => contract_id y =? c))
        by (intros; rewrite E; reflexivity).
      destruct (find (fun y => contract_id y =? c) seen); reflexivity.
    + rewrite IH. simpl find. rewrite (proj2 (Z.eqb_eq _ _) E). reflexivity.
  - rewrite IH. simpl find. rewrite E. reflexivity.
Qed.

Lemma null_outlier_some s d x :
  null_outlier s d = Some x -> d = Some x /\ x <= contract_gap_threshold s.
Proof.
  unfold null_outlier, gt_cell. destruct d as [y|]; [|discriminate].
  destruct (contract_gap_threshold s <? y) eqn:E; [discriminate|].
  intros H. inversion H. subst y. apply Z.ltb_ge in E. auto.
Qed.

Lemma delta_chain_fields s prev rows :
  map (fun t : Timed => core_of t) (delta_chain s prev rows) = map core_of rows.
Proof.
  revert prev. induction rows as [|r rest IH]; intros prev; [reflexivity|].
  simpl. f_equal. apply IH.
Qed.

Lemma delta_chain_step s rows : forall prev n (p q : Timed),
  nth_error (delta_chain s prev rows) n = Some p ->
  nth_error (delta_chain s prev rows) (S n) = Some q ->
  time_delta q
  = if contract_gap_threshold s <? msg_time q - msg_time p
    then None else Some (msg_time q - msg_time p).
Proof.
  induction rows as [|r rest IH]; intros prev n p q Hp Hq;
    [destruct n; discriminate|].
  destruct n as [|n]; simpl in Hp, Hq.
  - inversion Hp; subst p; clear Hp.
    destruct rest as [|r' rest]; [discriminate|].
    simpl in Hq. inversion Hq; subst q; clear Hq. reflexivity.
  - apply (IH _ _ _ _ Hp Hq).
Qed.

Lemma delta_from_In s rows : forall seen (t : Timed),
  In t (delta_from s seen rows) ->
  exists r prev,
    In r rows
    /\ (prev = None \/ exists x, prev = Some x /\ (In x seen \/ In x rows))
    /\ time_delta t
       = null_outlier s
           (option_map (fun p : Rec => msg_time r - msg_time p) prev).
Proof.
  induction rows as [|r rest IH]; intros seen t Ht; [contradiction|].
  simpl in Ht. destruct Ht as [<-|Ht].
  - exists r, (prev_in_group contract_id seen r).
    split; [left; reflexivity|]. split; [|reflexivity].
    destruct (prev_in_group contract_id seen r) as [x|] eqn:E; [|auto].
    right. exists x. split; [reflexivity|]. left.
    unfold prev_in_group in E. apply find_some in E. tauto.
  - destruct (IH _ _ Ht) as [r' [prev [Hr' [Hprev E]]]].
    exists r', prev. split; [right; exact Hr'|]. split; [|exact E].
    destruct Hprev as [->|[x [-> Hx]]]; [auto|].
    right. exists x. split; [reflexivity|].
    simpl in Hx. simpl. tauto.
Qed.

(** Over a frame in time order no time delta is negative. *)
Lemma delta_from_nonneg s rows : forall seen (t : Timed) d,
  StronglySorted (fun x y : Rec => msg_time x <= msg_time y) rows ->
  (forall x r, In x seen -> In r rows -> msg_time x <= msg_time r) ->
  In t (delta_from s seen rows) -> time_delta t = Some d -> 0 <= d.
Proof.
  induction rows as [|r rest IH]; intros seen t d Hsorted Hseen Ht Hd;
    [contradiction|].
  inversion Hsorted as [|? ? Hrest Hr]; subst.
  simpl in Ht. destruct Ht as [<-|Ht].
  - simpl in Hd. apply null_outlier_some in Hd. destruct Hd as [Hd _].
    destruct (prev_in_group contract_id seen r) as [x|] eqn:E; [|discriminate].
    unfold prev_in_group in E. apply find_some in E. destruct E as [Hx _].
    simpl in Hd. inversion Hd.
    pose proof (Hseen x r Hx (or_introl eq_refl)). lia.
  - apply (IH (r :: seen) t d Hrest); [|exact Ht|exact Hd].
    intros x r' [<-|Hx] Hr'.
    + rewrite Forall_forall in Hr. apply Hr. exact Hr'.
    + apply Hseen; [exact Hx|right; exact Hr'].
Qed.

(** X6.  Cell 6, on any frame and for any contract: the rows of the
    contract keep their order and their cells; the first one has a null
    [time_delta]; every later one has the difference of its [msg_time] to
    that of the contract's row before it, or null when that difference
    exceeds [contract_gap_threshold].  So no [time_delta] exceeds the
    threshold, and over a frame in time order none is negative. *)
Theorem time_delta_is_gap_to_previous (s : Settings) (rows : list Rec) (c : Z) :
  let timed := filter (fun t : Timed => contract_id t =? c)
                      (add_time_delta s rows) in
  map (fun t : Timed => core_of t) timed
  = map core_of (filter (fun r => contract_id r =? c) rows)
  /\ (forall t : Timed, nth_error timed 0 = Some t -> time_delta t = None)
  /\ (forall n (p q : Timed),
        nth_error timed n = Some p -> nth_error timed (S n) = Some q ->
        time_delta q
        = if contract_gap_threshold s <? msg_time q - msg_time p
          then None else Some (msg_time q - msg_time p))
  /\ (forall (t : Timed) d,
        In t (add_time_delta s rows) -> time_delta t = Some d ->
        d <= contract_gap_threshold s)
  /\ (StronglySorted (fun x y : Rec => msg_time x <= msg_time y) rows ->
      forall (t : Timed) d,
        In t (add_time_delta s rows) -> time_delta t = Some d -> 0 <= d).
Proof.
  intros timed. unfold timed. rewrite add_time_delta_scan, delta_from_contract.
  simpl find. simpl option_map.
  split; [apply delta_chain_fields|].
  split.
  { intros t Ht.
    destruct (filter (fun r => contract_id r =? c) rows) as [|r rest];
      [discriminate|].
    simpl in Ht. inversion Ht. reflexivity. }
  split; [intros n p q; apply delta_chain_step|].
  split.
  - intros t d Ht Hd. apply delta_from_In in Ht.
    destruct Ht as [r [prev [_ [_ E]]]]. rewrite E in Hd.
    apply null_outlier_some in Hd. tauto.
  - intros Hsorted t d Ht Hd.
    apply (@delta_from_nonneg s rows [] t d Hsorted); auto.
    intros x r [].
Qed.

(* ------------------------------------------------------------------ *)
(** ** The average time delta *)

Lemma assign_group_numbers_In rows (p : Point) :
  In p (assign_group_numbers rows) ->
  exists r : Timed, In r rows /\ time_delta p = time_delta r.
Proof.
  unfold assign_group_numbers. rewrite groupby_contract_apply_groups.
  intros H. apply in_flat_map in H. destruct H as [k [_ H]].
  rewrite calculate_group_number_scan in H. apply number_from_In in H.
  destruct H as [r [Hr [_ [_ [_ E]]]]].
  apply (get_group_In _ _ Zeqb_spec) in Hr. destruct Hr as [Hr _].
  unfold sort_values in Hr. apply sort_rows_In in Hr.
  exists r. auto.
Qed.

(** In the frame that cells 5 to 7 return, every time delta lies between
    zero and [contract_gap_threshold]. *)
Lemma preprocess_time_delta s csv orig_df (p : Point) d :
  preprocess s csv = Ok orig_df -> In p orig_df -> time_delta p = Some d ->
  0 <= d <= contract_gap_threshold s.
Proof.
  intros H Hp Hd. apply preprocess_stages in H.
  destruct H as [recs [_ [_ ->]]].
  apply assign_group_numbers_In in Hp. destruct Hp as [r [Hr E]].
  rewrite E in Hd. rewrite add_time_delta_scan in Hr. split.
  - apply (@delta_from_nonneg s (sort_values msg_time recs) [] r d); auto.
    + apply sort_values_sorted.
    + intros x r' [].
  - apply delta_from_In in Hr. destruct Hr as [r0 [prev [_ [_ E']]]].
    rewrite E' in Hd. apply null_outlier_some in Hd. tauto.
Qed.

Lemma series_sum_bounds (col : list Z) hi :
  (forall x, In x col -> 0 <= x <= hi) ->
  0 <= series_sum col <= Z.of_nat (length col) * hi.
Proof.
  induction col as [|x col IH]; intros H.
  - unfold series_sum. simpl. lia.
  - rewrite series_sum_cons. simpl length. rewrite Nat2Z.inj_succ.
    specialize (H x (or_introl eq_refl)) as Hx.
    destruct IH as [IH1 IH2]; [intros y Hy; apply H; right; exact Hy|]. lia.
Qed.

Lemma series_mean_bounds (col : list Z) hi a :
  (forall x, In x col -> 0 <= x <= hi) ->
  series_mean col = Some a -> 0 <= a <= hi.
Proof.
  intros H. destruct col as [|x col]; [discriminate|].
  unfold series_mean. intros E. injection E as <-.
  pose proof (series_sum_bounds (x :: col) H) as [H1 H2].
  set (n := Z.of_nat (length (x :: col))) in *.
  assert (Hn : 0 < n) by (unfold n; simpl length; lia).
  rewrite Z.quot_div_nonneg by lia. split.
  - apply Z.div_pos; lia.
  - apply Z.div_le_upper_bound; [lia|]. unfold n in *. first [exact H2 | nia].
Qed.

Lemma interval_of_group_avg k df i :
  interval_of_group k df = [i] ->
  time_delta_avg i
  = series_mean (dropna (map (fun q : Point => time_delta q) df)).
Proof.
  destruct df as [|p ps]; [discriminate|]. unfold interval_of_group.
  intros H. injection H as <-. reflexivity.
Qed.

Lemma dropna_In (col : list (option Z)) x :
  In x (dropna col) <-> In (Some x) col.
Proof.
  unfold dropna. rewrite in_flat_map. split.
  - intros [o [Ho Hx]]. destruct o as [y|]; [|contradiction].
    destruct Hx as [<-|[]]. exact Ho.
  - intros H. exists (Some x). split; [exact H|left; reflexivity].
Qed.

Lemma series_mean_null (col : list Z) : series_mean col = None <-> col = [].
Proof.
  destruct col as [|x col]; simpl; split; intros H;
    first [reflexivity | discriminate].
Qed.

Lemma dropna_nil (col : list (option Z)) :
  dropna col = [] <-> forall c, In c col -> c = None.
Proof.
  induction col as [|c col IH]; simpl.
  - split; [intros _ c []|reflexivity].
  - destruct c as [x|]; simpl.
    + split; [discriminate|]. intros H.
      specialize (H (Some x) (or_introl eq_refl)). discriminate.
    + rewrite IH. split.
      * intros H c [<-|Hc]; [reflexivity|apply H; exact Hc].
      * intros H c Hc. apply H. right. exact Hc.
Qed.

(** The average of an interval is null exactly when there is no time delta
    to average. *)
Lemma interval_avg_null orig_df i :
  In i (make_intervals orig_df) ->
  (time_delta_avg i = None
   <-> forall p : Point, In p orig_df -> point_key p = interval_key i ->
                         time_delta p = None).
Proof.
  intros Hi.
  rewrite (@interval_of_group_avg _ _ _ (@make_intervals_In _ _ Hi)).
  rewrite series_mean_null, dropna_nil. split.
  - intros H p Hp Hk. apply H.
    apply (in_map (fun q : Point => time_delta q)).
    apply (get_group_In _ _ key_eqb_spec). auto.
  - intros H c Hc. apply in_map_iff in Hc. destruct Hc as [p [<- Hp]].
    apply (get_group_In _ _ key_eqb_spec) in Hp. apply H; tauto.
Qed.

(** X7.  In a run, the average time delta of an interval is null exactly
    when the time delta of every one of its points is null, and an average
    that is not null is not negative. *)
Theorem average_delta_null_with_its_points (s : Settings) (csv : list CsvRow)
    (orig_df : list Point) (i : Interval) :
  preprocess s csv = Ok orig_df ->
  In i (make_intervals orig_df) ->
  (time_delta_avg i = None
   <-> forall p : Point, In p orig_df -> point_key p = interval_key i ->
                         time_delta p = None)
  /\ (forall a, time_delta_avg i = Some a -> 0 <= a).
Proof.
  intros Hpre Hi. split; [apply interval_avg_null; exact Hi|].
  intros a Ha.
  rewrite (@interval_of_group_avg _ _ _ (@make_intervals_In _ _ Hi)) in Ha.
  refine (proj1 (@series_mean_bounds _ (contract_gap_threshold s) a _ Ha)).
  intros x Hx. apply dropna_In in Hx. apply in_map_iff in Hx.
  destruct Hx as [p [Ep Hp]]. apply (get_group_In _ _ key_eqb_spec) in Hp.
  apply (@preprocess_time_delta s csv orig_df p x Hpre); tauto.
Qed.

(* ================================================================== *)
(** * The overlap flag, both ways *)

Lemma itertuples_from_In_inv (A : Type) (l : list A) : forall start n x,
  In (n, x) (combine (seq start (length l)) l) ->
  (start <= n)%nat /\ nth_error l (n - start) = Some x.
Proof.
  induction l as [|a l IH]; intros start n x H; [contradiction|].
  simpl in H. destruct H as [H|H].
  - inversion H. subst. split; [lia|]. rewrite Nat.sub_diag. reflexivity.
  - apply IH in H. destruct H as [Hle Hn]. split; [lia|].
    replace (n - start)%nat with (S (n - S start)) by lia. exact Hn.
Qed.

Lemma itertuples_In_inv (A : Type) (l : list A) n x :
  In (n, x) (itertuples l) -> nth_error l n = Some x.
Proof.
  intros H. apply itertuples_from_In_inv in H. destruct H as [_ H].
  rewrite Nat.sub_0_r in H. exact H.
Qed.

(** The inner loop leaves in row [n] the flag it had, unless [n] is the
    row of [i] and some [j] hits. *)
Lemma inner_loop_exact (i : nat * Overlapped) js : forall df n r,
  nth_error df n = Some r ->
  exists r',
    nth_error
      (fold_left (fun df2 (j : nat * Overlapped) =>
                    if negb (fst i =? fst j)%nat && overlaps (snd i) (snd j)
                    then update_at (fst i) set_overlap df2
                    else df2) js df) n = Some r'
    /\ duped r' = duped r
    /\ invalid_load_overlap r'
       = if (n =? fst i)%nat && existsb (overlap_hit i) js
         then 1 else invalid_load_overlap r.
Proof.
  induction js as [|j js IH]; intros df n r Hn; simpl.
  - exists r. rewrite andb_false_r. auto.
  - fold (overlap_hit i j). destruct (overlap_hit i j) eqn:Hit.
    + set (r1 := if (n =? fst i)%nat then set_overlap r else r).
      assert (Hn1 : nth_error (update_at (fst i) set_overlap df) n = Some r1).
      { rewrite nth_error_update_at, Hn. reflexivity. }
      destruct (IH _ _ _ Hn1) as [r' [H1 [H2 H3]]].
      exists r'. split; [exact H1|].
      unfold r1 in *. destruct (n =? fst i)%nat; simpl in *.
      * split; [exact H2|]. rewrite H3.
        destruct (existsb (overlap_hit i) js); reflexivity.
      * split; [exact H2|exact H3].
    + destruct (IH _ _ _ Hn) as [r' [H1 [H2 H3]]].
      exists r'. simpl. auto.
Qed.

Lemma outer_loop_exact js rows_i : forall df n r,
  nth_error df n = Some r ->
  exists r',
    nth_error
      (fold_left (fun df1 (i : nat * Overlapped) =>
         fold_left (fun df2 (j : nat * Overlapped) =>
                      if negb (fst i =? fst j)%nat && overlaps (snd i) (snd j)
                      then update_at (fst i) set_overlap df2
                      else df2) js df1) rows_i df) n = Some r'
    /\ duped r' = duped r
    /\ invalid_load_overlap r'
       = if existsb (fun i => (n =? fst i)%nat && existsb (overlap_hit i) js)
                    rows_i
         then 1 else invalid_load_overlap r.
Proof.
  induction rows_i as [|i rows_i IH]; intros df n r Hn; simpl.
  - exists r. auto.
  - destruct (inner_loop_exact i js df n Hn) as [r1 [H1 [H2 H3]]].
    destruct (IH _ _ _ H1) as [r' [G1 [G2 G3]]].
    exists r'. split; [exact G1|]. split; [congruence|].
    rewrite G3, H3.
    destruct ((n =? fst i)%nat && existsb (overlap_hit i) js); simpl.
    + destruct (existsb _ rows_i); reflexivity.
    + reflexivity.
Qed.

(** [check_overlaps] on a frame whose flags are 0: row [n] comes out
    flagged exactly when another row of the frame has a closed range that
    meets its own. *)
Lemma check_overlaps_exact df n (r : Overlapped) :
  nth_error df n = Some r -> invalid_load_overlap r = 0 ->
  exists r',
    nth_error (check_overlaps df) n = Some r'
    /\ duped r' = duped r
    /\ (invalid_load_overlap r' = 0 \/ invalid_load_overlap r' = 1)
    /\ (invalid_load_overlap r' = 1 <->
        exists m r2, m <> n /\ nth_error df m = Some r2
                     /\ overlaps r r2 = true).
Proof.
  intros Hn Hzero. unfold check_overlaps.
  destruct (outer_loop_exact (itertuples df) (itertuples df) df n Hn)
    as [r' [H1 [H2 H3]]].
  exists r'. split; [exact H1|]. split; [exact H2|].
  rewrite Hzero in H3.
  destruct (existsb (fun i => (n =? fst i)%nat
                              && existsb (overlap_hit i) (itertuples df))
                    (itertuples df)) eqn:E.
  - split; [auto|]. split; [intros _|intros _; exact H3].
    apply existsb_exists in E. destruct E as [[k x] [Hi Hhit]].
    apply andb_true_iff in Hhit. destruct Hhit as [Hk Hhit].
    apply Nat.eqb_eq in Hk. simpl in Hk. subst k.
    apply itertuples_In_inv in Hi. rewrite Hn in Hi. inversion Hi; subst x.
    apply existsb_exists in Hhit. destruct Hhit as [[m r2] [Hj Hov]].
    apply itertuples_In_inv in Hj. unfold overlap_hit in Hov. simpl in Hov.
    apply andb_true_iff in Hov. destruct Hov as [Hne Hov].
    apply negb_true_iff, Nat.eqb_neq in Hne.
    exists m, r2. auto.
  - split; [auto|]. split; [intros H; lia|].
    intros [m [r2 [Hne [Hm Hov]]]]. exfalso.
    assert (Ht : existsb (fun i => (n =? fst i)%nat
                                   && existsb (overlap_hit i) (itertuples df))
                         (itertuples df) = true).
    { apply existsb_exists. exists (n, r). split.
      - apply itertuples_In. exact Hn.
      - simpl. rewrite Nat.eqb_refl. simpl.
        apply existsb_exists. exists (m, r2). split.
        + apply itertuples_In. exact Hm.
        + unfold overlap_hit. simpl. rewrite Hov.
          rewrite (proj2 (Nat.eqb_neq n m)) by auto. reflexivity. }
    congruence.
Qed.

Lemma map_nth_error_inv (A B : Type) (f : A -> B) l n b :
  nth_error (map f l) n = Some b ->
  exists a, nth_error l n = Some a /\ f a = b.
Proof.
  rewrite nth_error_map. destruct (nth_error l n) as [a|]; simpl;
    [|discriminate].
  intros H. inversion H. exists a. auto.
Qed.

(** The rows of one contract after cell 22, against the rows that went
    in. *)
Lemma cell22_row_exact (t : list Duped) c n (a : Overlapped) :
  nth_error (filter (fun r : Overlapped => contract r =? c) (cell22 t)) n = Some a ->
  exists r,
    nth_error (filter (fun r : Overlapped => contract r =? c)
                      (map (fun r => mkOverlapped r 0) t)) n = Some r
    /\ duped a = duped r
    /\ (invalid_load_overlap a = 0 \/ invalid_load_overlap a = 1)
    /\ (invalid_load_overlap a = 1 <->
        exists m r2,
          m <> n
          /\ nth_error (filter (fun r : Overlapped => contract r =? c)
                               (map (fun r => mkOverlapped r 0) t)) m = Some r2
          /\ overlaps r r2 = true).
Proof.
  rewrite cell22_contract.
  set (df := filter (fun r : Overlapped => contract r =? c)
                    (map (fun r => mkOverlapped r 0) t)).
  intros Ha.
  assert (E : nth_error (map duped (check_overlaps df)) n = Some (duped a))
    by (rewrite nth_error_map, Ha; reflexivity).
  rewrite check_overlaps_rows in E. apply map_nth_error_inv in E.
  destruct E as [r [Hr Ed]].
  assert (Hzero : invalid_load_overlap r = 0).
  { apply nth_error_In in Hr. unfold df in Hr.
    apply filter_In in Hr. destruct Hr as [Hr _].
    apply in_map_iff in Hr. destruct Hr as [d [<- _]]. reflexivity. }
  destruct (@check_overlaps_exact df n r Hr Hzero) as [r' [Hr' [_ [Hb Hiff]]]].
  rewrite Ha in Hr'. inversion Hr'; subst r'. exists r. auto.
Qed.

Lemma cell22_row_forward (t : list Duped) c m (r2 : Overlapped) :
  nth_error (filter (fun r : Overlapped => contract r =? c)
                    (map (fun r => mkOverlapped r 0) t)) m = Some r2 ->
  exists b,
    nth_error (filter (fun r : Overlapped => contract r =? c) (cell22 t)) m = Some b
    /\ duped b = duped r2.
Proof.
  rewrite cell22_contract. intros Hm.
  destruct (outer_loop_exact
              (itertuples (filter (fun r : Overlapped => contract r =? c)
                                  (map (fun r => mkOverlapped r 0) t)))
              (itertuples (filter (fun r : Overlapped => contract r =? c)
                                  (map (fun r => mkOverlapped r 0) t)))
              _ m Hm) as [b [Hb [Ed _]]].
  exists b. split; [exact Hb|exact Ed].
Qed.

(** X8.  Cell 22, on any interval table and for any contract.  The rows of
    the contract keep their order and their cells; every flag is 0 or 1;
    when the closed ranges of two different rows of the contract meet, both
    rows are flagged; and a flagged row always has another row of the
    contract whose range meets its own. *)
Theorem overlap_flag_marks_meeting_pairs (group_intervals : list Duped) (c : Z) :
  let out := filter (fun r : Overlapped => contract r =? c)
                    (cell22 group_intervals) in
  map duped out = filter (fun r : Duped => contract r =? c) group_intervals
  /\ (forall r : Overlapped, In r out ->
        invalid_load_overlap r = 0 \/ invalid_load_overlap r = 1)
  /\ (forall n m (a b : Overlapped),
        n <> m -> nth_error out n = Some a -> nth_error out m = Some b ->
        overlaps a b = true ->
        invalid_load_overlap a = 1 /\ invalid_load_overlap b = 1)
  /\ (forall n (a : Overlapped),
        nth_error out n = Some a -> invalid_load_overlap a = 1 ->
        exists m (b : Overlapped),
          m <> n /\ nth_error out m = Some b /\ overlaps a b = true).
Proof.
  intros out. unfold out.
  split.
  { rewrite cell22_contract, check_overlaps_rows.
    rewrite filter_map_comm, map_map. simpl. apply map_id. }
  split.
  { intros r Hr. apply In_nth_error in Hr. destruct Hr as [n Hn].
    destruct (@cell22_row_exact group_intervals c n r Hn) as [_ [_ [_ [Hb _]]]].
    exact Hb. }
  split.
  - intros n m a b Hnm Ha Hb Hov.
    destruct (@cell22_row_exact group_intervals c n a Ha)
      as [ra [Hra [Eda [_ Hiff_a]]]].
    destruct (@cell22_row_exact group_intervals c m b Hb)
      as [rb [Hrb [Edb [_ Hiff_b]]]].
    assert (Hov' : overlaps ra rb = true).
    { change (overlaps (duped ra) (duped rb) = true).
      rewrite <- Eda, <- Edb. exact Hov. }
    split.
    + apply Hiff_a. exists m, rb. auto.
    + apply Hiff_b. exists n, ra. split; [auto|]. split; [exact Hra|].
      unfold overlaps in *. rewrite andb_comm. exact Hov'.
  - intros n a Ha Hflag.
    destruct (@cell22_row_exact group_intervals c n a Ha)
      as [ra [Hra [Eda [_ Hiff_a]]]].
    destruct (proj1 Hiff_a Hflag) as [m [r2 [Hne [Hm Hov]]]].
    destruct (@cell22_row_forward group_intervals c m r2 Hm) as [b [Hb Edb]].
    exists m, b. split; [exact Hne|]. split; [exact Hb|].
    change (overlaps (duped a) (duped b) = true).
    rewrite Eda, Edb. exact Hov.
Qed.

(* ------------------------------------------------------------------ *)
(** ** The flagged table against the intervals *)

Lemma cell22_rows (t : list Duped) : Permutation (map duped (cell22 t)) t.
Proof.
  unfold cell22.
  rewrite (groupby_contract_apply_perm
             (fun r : Overlapped => contract r) check_overlaps duped duped).
  - rewrite map_map. simpl. rewrite map_id. reflexivity.
  - apply check_overlaps_rows.
Qed.

Lemma cell22_intervals s orig_df rated :
  rate_intervals s (make_intervals orig_df) = Ok rated ->
  Permutation (map (fun r : Overlapped => ivl r) (cell22 (cell21 rated)))
              (make_intervals orig_df).
Proof.
  intros Hrated. apply rate_intervals_rows in Hrated.
  rewrite <- (map_map duped (fun d : Duped => ivl d)).
  rewrite cell22_rows, cell21_rows. rewrite Hrated. reflexivity.
Qed.

(** The rows of the final table are the intervals of cell 9, one row
    each. *)
Lemma table_intervals s orig_df table :
  flag_intervals s orig_df = Ok table ->
  Permutation (map (fun v : Verdict => ivl v) table) (make_intervals orig_df).
Proof.
  intros Htable. apply flag_intervals_cell25 in Htable.
  destruct Htable as [rated [Hrated ->]].
  rewrite <- (cell22_intervals s orig_df Hrated).
  pose proof (later_cells_keep_overlap s (cell22 (cell21 rated))) as H.
  apply (Permutation_map fst) in H. rewrite !map_map in H. exact H.
Qed.

Lemma NoDup_map_filter (A B : Type) (f : A -> B) (g : A -> bool) l :
  NoDup (map f l) -> NoDup (map f (filter g l)).
Proof.
  induction l as [|x l IH]; simpl; intros H; [constructor|].
  inversion H as [|? ? Hx Hl]; subst.
  destruct (g x); simpl; [|auto].
  constructor; [|auto].
  intros Hin. apply Hx. apply in_map_iff in Hin.
  destruct Hin as [y [E Hy]]. apply filter_In in Hy.
  rewrite <- E. apply in_map. tauto.
Qed.

(** X9.  In a run, the overlap flag is set only on a timestamp tie: a row
    of the final table with [invalid_load_overlap = 1] has a partner row of
    the same contract and another group, flagged as well, such that one of
    the two intervals ends on the very timestamp on which the other
    begins. *)
Theorem overlap_flag_needs_shared_timestamp (s : Settings) (csv : list CsvRow)
    (orig_df : list Point) (table : list Verdict) (a : Verdict) :
  preprocess s csv = Ok orig_df ->
  flag_intervals s orig_df = Ok table ->
  In a table -> invalid_load_overlap a = 1 ->
  exists b : Verdict,
    In b table
    /\ contract b = contract a /\ group b <> group a
    /\ invalid_load_overlap b = 1
    /\ (msg_time_max a = msg_time_min b \/ msg_time_max b = msg_time_min a).
Proof.
  intros Hpre Htable Ha Hflag.
  destruct (flag_intervals_cell25 s orig_df Htable) as [rated [Hrated Etable]].
  set (T := cell21 rated) in *.
  pose proof (cell22_intervals s orig_df Hrated) as Hivl. fold T in Hivl.
  assert (Hlater : Permutation (map (fun v : Verdict => overlap_of v) table)
                               (map overlap_of (cell22 T))).
  { rewrite Etable. apply later_cells_keep_overlap. }
  set (c := contract a).
  set (df := filter (fun r : Overlapped => contract r =? c)
                    (map (fun r => mkOverlapped r 0) T)).
  set (out := filter (fun r : Overlapped => contract r =? c) (cell22 T)).
  (* the row of [a] after cell 22 *)
  assert (Ha22 : In (overlap_of a) (map overlap_of (cell22 T))).
  { apply (Permutation_in _ Hlater).
    apply (in_map (fun v : Verdict => overlap_of v)). exact Ha. }
  apply in_map_iff in Ha22. destruct Ha22 as [a' [Ea' Ha']].
  unfold overlap_of in Ea'. injection Ea' as Eivl Eflag.
  assert (Ha_out : In a' out).
  { apply filter_In. split; [exact Ha'|]. apply Z.eqb_eq.
    unfold c. change (contract a') with (contract (ivl a')). rewrite Eivl.
    reflexivity. }
  apply In_nth_error in Ha_out. destruct Ha_out as [n Hn].
  destruct (@cell22_row_exact T c n a' Hn) as [ra [Hra [Eda [_ Hiff]]]].
  fold df in Hra, Hiff.
  destruct (proj1 Hiff ltac:(congruence)) as [m [r2 [Hne [Hm Hov]]]].
  destruct (@cell22_row_forward T c m r2 Hm) as [b' [Hb' Edb]]. fold out in Hb'.
  destruct (@cell22_row_exact T c m b' Hb') as [rb [Hrb [Edb' [_ Hiff_b]]]].
  fold df in Hrb, Hiff_b.
  assert (rb = r2) by congruence. subst rb.
  assert (Hflag_b : invalid_load_overlap b' = 1).
  { apply Hiff_b. exists n, ra. split; [auto|]. split; [exact Hra|].
    unfold overlaps in *. rewrite andb_comm. exact Hov. }
  (* back to the final table *)
  assert (Hb_in : In b' (cell22 T)).
  { apply nth_error_In in Hb'. apply filter_In in Hb'. tauto. }
  assert (Hb_tab : In (overlap_of b') (map (fun v : Verdict => overlap_of v) table)).
  { apply (Permutation_in _ (Permutation_sym Hlater)).
    apply in_map. exact Hb_in. }
  apply in_map_iff in Hb_tab. destruct Hb_tab as [b [Eb Hb]].
  unfold overlap_of in Eb. injection Eb as Eb_ivl Eb_flag.
  (* the two intervals *)
  set (i := ivl a) in *. set (j := ivl b) in *.
  assert (Ei : ivl ra = i).
  { change (ivl (duped ra) = i). rewrite <- Eda. exact Eivl. }
  assert (Ej : ivl r2 = j).
  { change (ivl (duped r2) = j). rewrite <- Edb, Eb_ivl. reflexivity. }
  assert (Hi : In i (make_intervals orig_df)).
  { apply (Permutation_in _ Hivl). rewrite <- Eivl.
    apply (in_map (fun r : Overlapped => ivl r)). exact Ha'. }
  assert (Hj : In j (make_intervals orig_df)).
  { apply (Permutation_in _ Hivl). rewrite Eb_ivl.
    apply (in_map (fun r : Overlapped => ivl r)). exact Hb_in. }
  assert (Hcj : contract j = c).
  { rewrite <- Ej. apply nth_error_In in Hm. unfold df in Hm.
    apply filter_In in Hm. destruct Hm as [_ Hm]. apply Z.eqb_eq in Hm.
    exact Hm. }
  assert (Hov_ij : overlaps i j = true) by (rewrite <- Ei, <- Ej; exact Hov).
  assert (Hgroups : group j <> group i).
  { intros Eg.
    assert (Hnd : NoDup (map (fun r : Overlapped => interval_key r) df)).
    { unfold df. apply NoDup_map_filter. rewrite map_map. simpl.
      assert (Hp : Permutation
                (map (fun d : Duped => interval_key d) T)
                (map interval_key (make_intervals orig_df))).
      { rewrite <- (map_map (fun d : Duped => ivl d) interval_key).
        apply Permutation_map. unfold T. rewrite cell21_rows.
        rewrite (rate_intervals_rows s _ Hrated). reflexivity. }
      apply (Permutation_NoDup (Permutation_sym Hp)).
      rewrite make_intervals_keys. apply (group_keys_NoDup _ _ key_eqb_spec). }
    apply Hne. symmetry.
    apply (proj1 (NoDup_nth_error _) Hnd).
    - rewrite length_map. apply nth_error_Some. congruence.
    - rewrite !nth_error_map, Hra, Hm. simpl. f_equal.
      change (interval_key (ivl ra) = interval_key (ivl r2)).
      rewrite Ei, Ej. unfold interval_key. f_equal; [|congruence].
      rewrite Hcj. reflexivity. }
  exists b. split; [exact Hb|].
  change (contract b) with (contract j). change (group b) with (group j).
  change (group a) with (group i). change (contract a) with c.
  change (msg_time_max a) with (msg_time_max i).
  change (msg_time_min a) with (msg_time_min i).
  change (msg_time_max b) with (msg_time_max j).
  change (msg_time_min b) with (msg_time_min j).
  split; [exact Hcj|]. split; [exact Hgroups|].
  split; [congruence|].
  unfold overlaps in Hov_ij. apply andb_true_iff in Hov_ij.
  rewrite !Z.leb_le in Hov_ij.
  destruct (Z.lt_total (group i) (group j)) as [Hlt|[Heq|Hgt]].
  - left.
    pose proof (@interval_chain s csv orig_df i j Hpre Hi Hj
                  ltac:(unfold c in Hcj; symmetry; exact Hcj) Hlt). lia.
  - congruence.
  - right.
    pose proof (@interval_chain s csv orig_df j i Hpre Hj Hi
                  ltac:(unfold c in Hcj; exact Hcj) Hgt). lia.
Qed.

(* ================================================================== *)
(** * The backward join (cell 27) *)

(** Over a right frame sorted on the key, the backward search returns the
    last row whose key is not after [t], if there is one. *)
Lemma asof_backward_sorted t right :
  StronglySorted (fun a b => key_msg_time a <= key_msg_time b) right ->
  forall found,
    (forall f, found = Some f ->
       key_msg_time f <= t
       /\ forall r, In r right -> key_msg_time f <= key_msg_time r) ->
    match asof_backward right t found with
    | Some r =>
        (found = Some r \/ In r right)
        /\ key_msg_time r <= t
        /\ (forall r', In r' right -> key_msg_time r' <= t ->
                       key_msg_time r' <= key_msg_time r)
        /\ (forall f, found = Some f -> key_msg_time f <= key_msg_time r)
    | None => found = None /\ forall r', In r' right -> t < key_msg_time r'
    end.
Proof.
  induction 1 as [|x rest Hrest IH Hx]; intros found Hfound; simpl.
  - destruct found as [f|].
    + destruct (Hfound f eq_refl) as [Hf _].
      split; [auto|]. split; [exact Hf|]. split; [intros r' []|].
      intros f' E. inversion E. lia.
    + split; [reflexivity|intros r' []].
  - rewrite Forall_forall in Hx.
    destruct (key_msg_time x <=? t) eqn:E.
    + apply Z.leb_le in E.
      specialize (IH (Some x)).
      destruct (asof_backward rest t (Some x)) as [r|].
      * destruct IH as [Hin [Hr [Hmax Hf]]].
        { intros f Ef. inversion Ef; subst f. split; [exact E|exact Hx]. }
        split.
        { destruct Hin as [Hin|Hin]; [inversion Hin; right; left; reflexivity|].
          right. right. exact Hin. }
        split; [exact Hr|]. split.
        { intros r' [<-|Hr'] Hle; [apply Hf; reflexivity|apply Hmax; assumption]. }
        intros f Ef. destruct (Hfound f Ef) as [_ Hall].
        specialize (Hall x (or_introl eq_refl)).
        specialize (Hf x eq_refl). lia.
      * destruct IH as [IH _]; [|discriminate].
        intros f Ef. inversion Ef; subst f. split; [exact E|exact Hx].
    + apply Z.leb_gt in E.
      assert (Hall : forall r', In r' (x :: rest) -> t < key_msg_time r').
      { intros r' [<-|Hr']; [exact E|]. specialize (Hx r' Hr'). lia. }
      destruct found as [f|].
      * destruct (Hfound f eq_refl) as [Hf _].
        split; [auto|]. split; [exact Hf|]. split.
        { intros r' Hr' Hle. specialize (Hall r' Hr'). lia. }
        intros f' Ef. inversion Ef. lia.
      * split; [reflexivity|exact Hall].
Qed.

Lemma map_snd_combine (A B : Type) (l : list A) (m : list B) :
  length l = length m -> map snd (combine l m) = m.
Proof.
  revert m. induction l as [|a l IH]; intros [|b m] H; simpl in *;
    try discriminate; [reflexivity|].
  f_equal. apply IH. lia.
Qed.

Lemma group_intervals_out_sorted table :
  StronglySorted (fun a b => key_msg_time a <= key_msg_time b)
                 (group_intervals_out table).
Proof.
  unfold group_intervals_out.
  pose proof (sort_values_sorted (fun r : Verdict => msg_time_min r) table) as H.
  induction H as [|v l Hl IH Hv]; simpl; constructor; [exact IH|].
  rewrite Forall_forall in *. intros r Hr. apply in_map_iff in Hr.
  destruct Hr as [v' [<- Hv']]. simpl. apply Hv. exact Hv'.
Qed.

Lemma group_intervals_out_In table r :
  In r (group_intervals_out table) <->
  exists v : Verdict, In v table /\ r = select_flags v.
Proof.
  unfold group_intervals_out. rewrite in_map_iff. split.
  - intros [v [E Hv]]. exists v. split; [|auto].
    unfold sort_values in Hv. apply sort_rows_In in Hv. exact Hv.
  - intros [v [Hv E]]. exists v. split; [auto|].
    unfold sort_values. apply sort_rows_In. exact Hv.
Qed.

(** The row that the join attaches to a point: it exists, its key is the
    greatest key of the table that is not after the point's [msg_time]. *)
Lemma backfill_match s csv orig_df table (p : Point) :
  preprocess s csv = Ok orig_df ->
  flag_intervals s orig_df = Ok table ->
  In p orig_df ->
  exists v : Verdict,
    In v table
    /\ asof_backward (group_intervals_out table) (msg_time p) None
       = Some (select_flags v)
    /\ msg_time_min v <= msg_time p
    /\ (forall v' : Verdict, In v' table -> msg_time_min v' <= msg_time p ->
          msg_time_min v' <= msg_time_min v).
Proof.
  intros Hpre Htable Hp.
  destruct (@make_intervals_has_key orig_df p Hp) as [i [Hi Ki]].
  destruct (@interval_of_group_bounds _ _ _ (@make_intervals_In _ _ Hi))
    as [Hall _].
  assert (Hmin : msg_time_min i <= msg_time p).
  { apply Hall. apply (get_group_In _ _ key_eqb_spec). auto. }
  assert (Hown : exists v0 : Verdict, In v0 table /\ ivl v0 = i).
  { pose proof (table_intervals s orig_df Htable) as Hperm.
    apply (Permutation_in _ (Permutation_sym Hperm)) in Hi.
    apply in_map_iff in Hi. destruct Hi as [v0 [E Hv0]]. exists v0. auto. }
  destruct Hown as [v0 [Hv0 Ev0]].
  pose proof (@asof_backward_sorted (msg_time p) _
                (group_intervals_out_sorted table) None) as H.
  destruct (asof_backward (group_intervals_out table) (msg_time p) None)
    as [r|].
  - destruct H as [Hin [Hr [Hmax _]]]; [intros f E; discriminate|].
    destruct Hin as [Hin|Hin]; [discriminate|].
    apply group_intervals_out_In in Hin. destruct Hin as [v [Hv ->]].
    exists v. split; [exact Hv|]. split; [reflexivity|].
    split; [exact Hr|].
    intros v' Hv' Hle. apply (Hmax (select_flags v')); [|exact Hle].
    apply group_intervals_out_In. exists v'. auto.
  - destruct H as [_ Hnone]; [intros f E; discriminate|].
    specialize (Hnone (select_flags v0)).
    assert (Hin : In (select_flags v0) (group_intervals_out table))
      by (apply group_intervals_out_In; exists v0; auto).
    specialize (Hnone Hin). simpl in Hnone.
    change (msg_time_min v0) with (msg_time_min (ivl v0)) in Hnone.
    rewrite Ev0 in Hnone. lia.
Qed.

(* ------------------------------------------------------------------ *)
(** ** Every flag is 0 or 1 *)

Lemma np_where_binary b : np_where b = 0 \/ np_where b = 1.
Proof. destruct b; simpl; auto. Qed.

Lemma rate_interval_binary s row r :
  rate_interval s row = Ok r ->
  (invalid_load_duration_short r
   = np_where (total_time row <? duration_threshold_min s))
  /\ (invalid_load_duration_long r
      = np_where (duration_threshold_max s <? total_time row))
  /\ (invalid_load_point_count_low r
      = np_where (total_points row <? point_threshold_min s))
  /\ (invalid_load_point_count_high r
      = np_where (point_threshold_max s <? total_points row))
  /\ (invalid_load_reporting_gap r = 0 \/ invalid_load_reporting_gap r = 1)
  /\ (invalid_load_ping_rate r = 0 \/ invalid_load_ping_rate r = 1).
Proof.
  unfold rate_interval.
  destruct (flag_invalid_ping_rates row (ping_rate_threshold s)) as [z|e] eqn:E;
    simpl; [|discriminate].
  intros H. inversion H. simpl.
  repeat (split; [reflexivity|]).
  split; [apply np_where_binary|].
  unfold flag_invalid_ping_rates in E.
  destruct (py_div (total_seconds (total_time row)) (total_points row));
    simpl in E; [|discriminate].
  destruct (abs_diff_exceeds _ _ _); inversion E; auto.
Qed.

Lemma cell21_rated rated_l :
  Permutation (map rated (cell21 rated_l)) rated_l.
Proof.
  unfold cell21.
  rewrite (groupby_contract_apply_perm
             (fun r : Duped => contract r)
             (flag_duplicated_load_numbers (fun r : Duped => load r) duped_set_loads)
             rated rated).
  - rewrite map_map. simpl. rewrite map_id. reflexivity.
  - intros df. apply flag_duplicated_load_numbers_keeps. reflexivity.
Qed.

Lemma Forall2_In_r (A B : Type) (R : A -> B -> Prop) l m b :
  Forall2 R l m -> In b m -> exists a, In a l /\ R a b.
Proof.
  induction 1 as [|x y l m Hxy _ IH]; intros Hb; [contradiction|].
  destruct Hb as [<-|Hb].
  - exists x. split; [left; reflexivity|exact Hxy].
  - destruct (IH Hb) as [a [Ha HR]]. exists a. split; [right; exact Ha|exact HR].
Qed.

(** A row of the final table, traced back through the cells. *)
Lemma table_row_origin s orig_df table (v : Verdict) :
  flag_intervals s orig_df = Ok table -> In v table ->
  (exists i, In i (make_intervals orig_df) /\ rate_interval s i = Ok (rated v))
  /\ (invalid_load_overlap v = 0 \/ invalid_load_overlap v = 1)
  /\ (invalid_load_noncontiguous v = 0 \/ invalid_load_noncontiguous v = 1)
  /\ invalid_load_duplicate v = 0
  /\ (invalid_load v = 0 \/ invalid_load v = 1).
Proof.
  intros Htable Hv.
  destruct (flag_intervals_cell25 s orig_df Htable) as [rated_l [Hrated ->]].
  set (T1 := cell21 rated_l) in *. set (T2 := cell22 T1) in *.
  set (T3 := cell23 s T2) in *.
  unfold cell25 in Hv. apply in_map_iff in Hv. destruct Hv as [r [<- Hr]].
  cbn [contig invalid_load].
  set (quad := fun r : Contig =>
                 (rated r, invalid_load_overlap r,
                  invalid_load_noncontiguous r, invalid_load_duplicate r)).
  assert (H24 : Permutation (map quad (cell24 T3))
                            (map quad (map (contig_set_duplicate 0) T3))).
  { unfold cell24. apply groupby_contract_apply_perm.
    intros df. apply flag_duplicated_load_numbers_keeps. reflexivity. }
  assert (Hq : In (quad r) (map quad (map (contig_set_duplicate 0) T3))).
  { apply (Permutation_in _ H24). apply in_map. exact Hr. }
  rewrite map_map in Hq. apply in_map_iff in Hq.
  destruct Hq as [r3 [Eq Hr3]]. unfold quad in Eq. simpl in Eq.
  injection Eq as Erated Eov Enc Edup.
  (* cell 23 *)
  unfold T3 in Hr3. rewrite cell23_scan in Hr3.
  apply In_nth_error in Hr3. destruct Hr3 as [n Hn].
  destruct (@contig_from_nth s _ [] n r3 Hn) as [Hsorted [_ Hnc]].
  apply nth_error_In in Hsorted. apply sort_rows_In in Hsorted.
  (* cell 22 *)
  set (o := overlapped r3) in *.
  assert (Ho : In o (filter (fun x : Overlapped => contract x =? contract o) T2)).
  { apply filter_In. split; [exact Hsorted|apply Z.eqb_refl]. }
  apply In_nth_error in Ho. destruct Ho as [k Hk].
  destruct (@cell22_row_exact T1 (contract o) k o Hk) as [r0 [_ [_ [Hbin _]]]].
  assert (Hd : In (duped o) T1).
  { apply (Permutation_in _ (cell22_rows T1)). apply in_map. exact Hsorted. }
  (* cell 21 and the rating *)
  assert (Hrt : In (rated (duped o)) rated_l).
  { apply (Permutation_in _ (cell21_rated rated_l)). apply in_map. exact Hd. }
  pose proof (mapM_Forall2 _ _ (proj2 (rate_intervals_rows_of _ _ Hrated)))
    as HF.
  destruct (@Forall2_In_r _ _ _ _ _ _ HF Hrt) as [i [Hi Hrate]].
  split.
  { exists i. split; [exact Hi|].
    change (rated r) with (rated (duped (overlapped r))).
    rewrite Hrate. f_equal.
    change (rated (duped o)) with (rated r3). exact Erated. }
  split.
  { change (invalid_load_overlap r) with (invalid_load_overlap (overlapped r)).
    rewrite <- Eov. exact Hbin. }
  split.
  { rewrite <- Enc, Hnc. apply np_where_binary. }
  split; [symmetry; exact Edup|].
  unfold any_astype_int. destruct (existsb _ _); auto.
Qed.

Lemma table_row_flags_binary s orig_df table (v : Verdict) :
  flag_intervals s orig_df = Ok table -> In v table ->
  forall f, In f (flag_cells (select_flags v)) -> f = 0 \/ f = 1.
Proof.
  intros Htable Hv f Hf.
  destruct (@table_row_origin s orig_df table v Htable Hv)
    as [[i [_ Hrate]] [Hov [Hnc [Hdup Hinv]]]].
  destruct (@rate_interval_binary s i _ Hrate) as [H1 [H2 [H3 [H4 [H5 H6]]]]].
  change (invalid_load_duration_short (rated v))
    with (invalid_load_duration_short v) in H1.
  change (invalid_load_duration_long (rated v))
    with (invalid_load_duration_long v) in H2.
  change (invalid_load_point_count_low (rated v))
    with (invalid_load_point_count_low v) in H3.
  change (invalid_load_point_count_high (rated v))
    with (invalid_load_point_count_high v) in H4.
  change (invalid_load_reporting_gap (rated v))
    with (invalid_load_reporting_gap v) in H5.
  change (invalid_load_ping_rate (rated v))
    with (invalid_load_ping_rate v) in H6.
  unfold select_flags in Hf. cbn [flag_cells] in Hf.
  repeat (destruct Hf as [<-|Hf];
          [first [ rewrite H1; apply np_where_binary
                 | rewrite H2; apply np_where_binary
                 | rewrite H3; apply np_where_binary
                 | rewrite H4; apply np_where_binary
                 | assumption
                 | left; assumption ]|]).
  contradiction.
Qed.

Lemma backfill_row orig_df table (m : Merged) :
  In m (backfill orig_df table) ->
  exists p : Point,
    In p orig_df
    /\ m = merge_row p (asof_backward (group_intervals_out table)
                                      (msg_time p) None).
Proof.
  unfold backfill, merge_asof. intros H. apply in_map_iff in H.
  destruct H as [p [<- Hp]]. exists p. split; [|reflexivity].
  unfold sort_values in Hp. apply sort_rows_In in Hp. exact Hp.
Qed.

Lemma merge_row_cells (p : Point) r :
  length (flag_cells r) = length flag_columns ->
  map snd (right_cells (merge_row p (Some r))) = map Some (flag_cells r).
Proof.
  intros Hlen. unfold merge_row. cbn [right_cells].
  apply map_snd_combine. rewrite !length_map. symmetry. exact Hlen.
Qed.

(** X10.  In a run, the join always finds a row: every output row carries
    the ten flags of a row of the final interval table, namely of a row
    whose key [msg_time_min] is the greatest key of the table that is not
    after the record's [msg_time]; so no flag cell of the output is null,
    and each is 0 or 1. *)
Theorem every_output_row_carries_flags (s : Settings) (csv : list CsvRow)
    (out : list OutRow) (o : OutRow) :
  run s csv = Ok out -> In o out ->
  exists orig_df table (v : Verdict),
    preprocess s csv = Ok orig_df
    /\ flag_intervals s orig_df = Ok table
    /\ In v table
    /\ map snd (out_flags o) = map Some (flag_cells (select_flags v))
    /\ msg_time_min v <= msg_time (out_rec o)
    /\ (forall v' : Verdict, In v' table ->
          msg_time_min v' <= msg_time (out_rec o) ->
          msg_time_min v' <= msg_time_min v)
    /\ (forall cell, In cell (out_flags o) ->
          snd cell = Some 0 \/ snd cell = Some 1).
Proof.
  intros Hrun Ho.
  destruct (run_stages s csv Hrun) as [orig_df [table [Hpre [Htable ->]]]].
  apply in_map_iff in Ho. destruct Ho as [m [<- Hm]].
  destruct (@backfill_row orig_df table m Hm) as [p [Hp ->]].
  destruct (@backfill_match s csv orig_df table p Hpre Htable Hp)
    as [v [Hv [Easof [Hle Hmax]]]].
  exists orig_df, table, v.
  split; [exact Hpre|]. split; [exact Htable|]. split; [exact Hv|].
  rewrite Easof. unfold drop_working_columns. cbn [out_flags out_rec].
  assert (Hcells : map snd (right_cells (merge_row p (Some (select_flags v))))
                   = map Some (flag_cells (select_flags v))).
  { apply merge_row_cells. reflexivity. }
  split; [exact Hcells|].
  split; [exact Hle|]. split; [exact Hmax|].
  intros cell Hcell.
  assert (Hs : In (snd cell) (map Some (flag_cells (select_flags v)))).
  { rewrite <- Hcells. apply in_map. exact Hcell. }
  apply in_map_iff in Hs. destruct Hs as [f [<- Hf]].
  destruct (@table_row_flags_binary s orig_df table v Htable Hv f Hf) as [->| ->]; auto.
Qed.

(* ------------------------------------------------------------------ *)
(** ** One contract, no repeated timestamp *)

Lemma preprocess_keeps_core s csv orig_df :
  preprocess s csv = Ok orig_df ->
  Permutation (map (fun p : Point => (contract_id p, msg_time p)) orig_df)
              (map (fun r : CsvRow =>
                      (csv_contract_id r,
                       match csv_msg_time r with Stamp t => t | Garbage _ => 0 end))
                   csv).
Proof.
  intros Hpre. destruct (preprocess_recs s csv Hpre) as [recs [Hrecs Hperm]].
  apply (Permutation_map (fun r : Rec => (contract_id r, msg_time r))) in Hperm.
  rewrite !map_map in Hperm. simpl in Hperm. rewrite Hperm.
  apply to_datetime_rows in Hrecs.
  replace (map (fun x : Rec => (contract_id x, msg_time x)) recs)
    with (map (fun r : CsvRow =>
                 (csv_contract_id r,
                  match csv_msg_time r with Stamp t => t | Garbage _ => 0 end))
              csv); [reflexivity|].
  clear Hperm Hpre.
  induction Hrecs as [|x y l l' [Ht [Hc _]] _ IH]; simpl; [reflexivity|].
  rewrite IH, Ht, Hc. reflexivity.
Qed.

Lemma preprocess_one_contract s csv orig_df c (p : Point) :
  preprocess s csv = Ok orig_df ->
  (forall r, In r csv -> csv_contract_id r = c) ->
  In p orig_df -> contract_id p = c.
Proof.
  intros Hpre Hall Hp. pose proof (preprocess_keeps_core s csv Hpre) as H.
  assert (Hin : In (contract_id p, msg_time p)
                   (map (fun p : Point => (contract_id p, msg_time p)) orig_df)).
  { apply (in_map (fun p : Point => (contract_id p, msg_time p))). exact Hp. }
  apply (Permutation_in _ H) in Hin. apply in_map_iff in Hin.
  destruct Hin as [r [E Hr]]. injection E as Ec _. rewrite <- Ec. auto.
Qed.

Lemma preprocess_distinct_times s csv orig_df :
  preprocess s csv = Ok orig_df ->
  NoDup (map csv_msg_time csv) ->
  NoDup (map (fun p : Point => msg_time p) orig_df).
Proof.
  intros Hpre Hnd.
  destruct (preprocess_recs s csv Hpre) as [recs [Hrecs Hperm]].
  apply (Permutation_map msg_time) in Hperm. rewrite !map_map in Hperm.
  simpl in Hperm. apply (Permutation_NoDup (Permutation_sym Hperm)).
  apply to_datetime_rows in Hrecs.
  assert (E : map csv_msg_time csv = map Stamp (map msg_time recs)).
  { clear Hperm Hpre Hnd. induction Hrecs as [|x y l l' [Ht _] _ IH]; simpl; [reflexivity|].
    rewrite IH, Ht. reflexivity. }
  rewrite E in Hnd. apply NoDup_map_inv in Hnd. exact Hnd.
Qed.

Lemma NoDup_map_nth (A B : Type) (f : A -> B) l n m x y :
  NoDup (map f l) ->
  nth_error l n = Some x -> nth_error l m = Some y -> f x = f y -> n = m.
Proof.
  intros Hnd Hx Hy E.
  apply (proj1 (NoDup_nth_error _) Hnd).
  - rewrite length_map. apply nth_error_Some. congruence.
  - rewrite !nth_error_map, Hx, Hy. simpl. f_equal. exact E.
Qed.

(** X11.  In a run over one contract in which no timestamp occurs twice,
    the join is exact: every record comes out with the flags of the
    interval of its own (contract, group). *)
Theorem backfill_is_exact_for_one_contract_without_ties (s : Settings)
    (csv : list CsvRow) (orig_df : list Point) (table : list Verdict) (c : Z)
    (m : Merged) :
  preprocess s csv = Ok orig_df ->
  flag_intervals s orig_df = Ok table ->
  (forall r, In r csv -> csv_contract_id r = c) ->
  NoDup (map csv_msg_time csv) ->
  In m (backfill orig_df table) ->
  exists v : Verdict,
    In v table
    /\ interval_key v = point_key (left_row m)
    /\ map snd (right_cells m) = map Some (flag_cells (select_flags v)).
Proof.
  intros Hpre Htable Hone Hnd Hm.
  destruct (@backfill_row orig_df table m Hm) as [p [Hp ->]].
  destruct (@backfill_match s csv orig_df table p Hpre Htable Hp)
    as [v [Hv [Easof [Hle Hmax]]]].
  exists v. split; [exact Hv|]. rewrite Easof.
  split; [|apply merge_row_cells; reflexivity].
  change (point_key (left_row (merge_row p (Some (select_flags v)))))
    with (point_key p).
  (* the interval that was matched and the record's own interval *)
  pose proof (table_intervals s orig_df Htable) as Hperm.
  set (j := ivl v).
  assert (Hj : In j (make_intervals orig_df)).
  { apply (Permutation_in _ Hperm).
    apply (in_map (fun v : Verdict => ivl v)). exact Hv. }
  destruct (@make_intervals_has_key orig_df p Hp) as [i [Hi Ki]].
  assert (Hown : exists v0 : Verdict, In v0 table /\ ivl v0 = i).
  { apply (Permutation_in _ (Permutation_sym Hperm)) in Hi.
    apply in_map_iff in Hi. destruct Hi as [v0 [E Hv0]]. exists v0. auto. }
  destruct Hown as [v0 [Hv0 Ev0]].
  destruct (@interval_of_group_bounds _ _ _ (@make_intervals_In _ _ Hi))
    as [Hall_i [[xi [Hxi Exi]] _]].
  destruct (@interval_of_group_bounds _ _ _ (@make_intervals_In _ _ Hj))
    as [Hall_j [[xj [Hxj Exj]] [yj [Hyj Eyj]]]].
  assert (Hpi : msg_time_min i <= msg_time p).
  { apply Hall_i. apply (get_group_In _ _ key_eqb_spec). auto. }
  assert (Hij : msg_time_min i <= msg_time_min j).
  { specialize (Hmax v0 Hv0).
    change (msg_time_min v0) with (msg_time_min (ivl v0)) in Hmax.
    rewrite Ev0 in Hmax. apply Hmax. exact Hpi. }
  assert (Hjp : msg_time_min j <= msg_time p) by exact Hle.
  assert (Hjj : msg_time_min j <= msg_time_max j).
  { pose proof (Hall_j xj Hxj). lia. }
  (* everything lives in contract [c] *)
  destruct (pipeline_scan s csv c Hpre) as [grp [Hscan Hsorted]].
  assert (Hcp : contract_id p = c)
    by (apply (preprocess_one_contract s csv p Hpre Hone Hp)).
  assert (Hci : contract i = c).
  { apply (f_equal fst) in Ki. simpl in Ki. congruence. }
  assert (Hcj : contract j = c).
  { apply (get_group_In _ _ key_eqb_spec) in Hxj. destruct Hxj as [Hxj Kxj].
    apply (f_equal fst) in Kxj. simpl in Kxj. rewrite <- Kxj.
    apply (preprocess_one_contract s csv xj Hpre Hone Hxj). }
  assert (Hscan_i : filter (fun q : Point => contract_id q =? contract i) orig_df
                    = number_from 0 None grp) by (rewrite Hci; exact Hscan).
  assert (Hscan_j : filter (fun q : Point => contract_id q =? contract j) orig_df
                    = number_from 0 None grp) by (rewrite Hcj; exact Hscan).
  assert (Htimes : NoDup (map (fun q : Point => msg_time q)
                              (number_from 0 None grp))).
  { rewrite <- Hscan. apply NoDup_map_filter.
    apply (preprocess_distinct_times s csv Hpre Hnd). }
  assert (Hp_place : exists n, nth_error (number_from 0 None grp) n = Some p).
  { apply In_nth_error. rewrite <- Hscan. apply filter_In.
    split; [exact Hp|]. apply Z.eqb_eq. exact Hcp. }
  destruct Hp_place as [np Hnp].
  pose proof (number_from_sorted 0 None Hsorted) as Hs.
  assert (Hgi : group i = group_number p).
  { apply (f_equal snd) in Ki. exact Ki. }
  assert (Hgroup : group j = group_number p).
  { destruct (Z.lt_total (group j) (group_number p)) as [Hlt|[Heq|Hgt]];
      [exfalso|exact Heq|exfalso].
    - (* the matched interval is an earlier one *)
      pose proof (@interval_chain s csv orig_df j i Hpre Hj Hi
                    ltac:(congruence) ltac:(lia)) as Hchain.
      destruct (@interval_point_place orig_df grp j yj Hscan_j Hyj)
        as [_ [_ [Gy [ny Hny]]]].
      destruct (@interval_point_place orig_df grp i xi Hscan_i Hxi)
        as [_ [_ [Gx [nx Hnx]]]].
      assert (E : ny = nx).
      { apply (@NoDup_map_nth _ _ (fun q : Point => msg_time q)
                 (number_from 0 None grp) ny nx yj xi Htimes Hny Hnx). lia. }
      subst ny. rewrite Hny in Hnx. inversion Hnx. subst xi. lia.
    - (* the matched interval is a later one *)
      destruct (@interval_point_place orig_df grp j xj Hscan_j Hxj)
        as [_ [_ [Gx [nx Hnx]]]].
      destruct (Nat.lt_trichotomy np nx) as [Hlt|[Heq|Hgt']].
      + pose proof (StronglySorted_nth Hs Hlt Hnp Hnx) as Hle'. cbv beta in Hle'.
        assert (E : np = nx).
        { apply (@NoDup_map_nth _ _ (fun q : Point => msg_time q)
                   (number_from 0 None grp) np nx p xj Htimes Hnp Hnx). lia. }
        lia.
      + subst nx. rewrite Hnp in Hnx. inversion Hnx. subst xj. lia.
      + pose proof (@number_from_monotone 0 None grp nx np xj p
                      ltac:(lia) Hnx Hnp). lia. }
  change (interval_key v) with (interval_key j).
  unfold interval_key, point_key. f_equal; congruence.
Qed.

(* ================================================================== *)
(** * The duplicate mask (cells 21 and 24) *)

Lemma nth_error_zip_with (A B C : Type) (f : A -> B -> C) l m n c :
  nth_error (zip_with f l m) n = Some c ->
  exists a b, nth_error l n = Some a /\ nth_error m n = Some b /\ c = f a b.
Proof.
  revert m n. induction l as [|a l IH]; intros [|b m] n H;
    try (destruct n; discriminate).
  rewrite zip_with_cons in H. destruct n as [|n]; simpl in H.
  - inversion H. exists a, b. auto.
  - apply IH in H. exact H.
Qed.

Lemma flag_duplicated_contract (df : list Duped) k :
  (forall r : Duped, In r df -> contract r = k) ->
  forall r' : Duped,
    In r' (flag_duplicated_load_numbers (fun r : Duped => load r)
                                        duped_set_loads df) ->
    contract r' = k.
Proof.
  intros Hdf r' Hr'.
  assert (H : In (contract r')
                 (map (fun r : Duped => contract r)
                      (flag_duplicated_load_numbers (fun r : Duped => load r)
                                                    duped_set_loads df))).
  { apply (in_map (fun r : Duped => contract r)). exact Hr'. }
  rewrite flag_duplicated_load_numbers_keeps in H by reflexivity.
  apply in_map_iff in H. destruct H as [r [<- Hr]]. apply Hdf. exact Hr.
Qed.

Lemma count_loads_of_contract (l : option Z) c (rated_l : list Rated) :
  length (filter (cell_eqb l)
            (map (fun r : Duped => load r)
                 (filter (fun r : Duped => contract r =? c)
                         (map (fun r => mkDuped r 0 None) rated_l))))
  = length (filter (fun r : Rated => (contract r =? c) && cell_eqb l (load r))
                   rated_l).
Proof.
  induction rated_l as [|r rest IH]; [reflexivity|].
  simpl map. simpl filter.
  change (contract {| rated := r; invalid_load_duplicate := 0;
                      invalid_duplicate_loads := None |}) with (contract r).
  destruct (contract r =? c); simpl.
  - change (load {| rated := r; invalid_load_duplicate := 0;
                    invalid_duplicate_loads := None |}) with (load r).
    destruct (cell_eqb l (load r)); simpl; rewrite IH; reflexivity.
  - exact IH.
Qed.

(** X12.  Cell 21, on any interval table: every row that comes out is a row
    that went in; its [invalid_load_duplicate] is 0; and its
    [invalid_duplicate_loads] is 1 exactly when the table has two or more
    rows of its contract with its load (null loads count as equal to one
    another), and null otherwise.  The duplicate mask is computed; it lands
    in the other column. *)
Theorem duplicate_mask_lands_in_other_column (group_intervals : list Rated)
    (d : Duped) :
  In d (cell21 group_intervals) ->
  In (rated d) group_intervals
  /\ invalid_load_duplicate d = 0
  /\ invalid_duplicate_loads d
     = if Nat.ltb 1 (length (filter (fun r : Rated =>
                                       (contract r =? contract d)
                                       && cell_eqb (load d) (load r))
                                    group_intervals))
       then Some 1 else None.
Proof.
  intros Hd. set (c := contract d).
  assert (Hc : In d (filter (fun r : Duped => contract r =? c)
                            (cell21 group_intervals))).
  { apply filter_In. split; [exact Hd|apply Z.eqb_refl]. }
  unfold cell21 in Hc.
  rewrite (groupby_contract_apply_filter
             (fun r : Duped => contract r) (fun r : Duped => contract r)
             (flag_duplicated_load_numbers (fun r : Duped => load r)
                                           duped_set_loads)) in Hc.
  2:{ apply flag_duplicated_contract. }
  2:{ reflexivity. }
  set (df := filter (fun r : Duped => contract r =? c)
                    (map (fun r => mkDuped r 0 None) group_intervals)) in *.
  apply In_nth_error in Hc. destruct Hc as [n Hn].
  unfold flag_duplicated_load_numbers in Hn.
  apply nth_error_zip_with in Hn. destruct Hn as [r [m [Hr [Hm ->]]]].
  unfold duplicated_keep_false in Hm. apply map_nth_error_inv in Hm.
  destruct Hm as [l [Hl Em]].
  assert (El : l = load r).
  { assert (H : nth_error (map (fun r : Duped => load r) df) n = Some (load r))
      by (rewrite nth_error_map, Hr; reflexivity).
    congruence. }
  subst l.
  assert (Hr0 : exists r0, In r0 group_intervals /\ r = mkDuped r0 0 None).
  { apply nth_error_In in Hr. unfold df in Hr. apply filter_In in Hr.
    destruct Hr as [Hr _]. apply in_map_iff in Hr.
    destruct Hr as [r0 [E Hr0]]. exists r0. auto. }
  destruct Hr0 as [r0 [Hr0 ->]].
  unfold df in Em. rewrite count_loads_of_contract in Em.
  destruct m.
  - split; [exact Hr0|]. split; [reflexivity|].
    match goal with
    | |- _ = if ?b then _ else _ => replace b with true by (symmetry; exact Em)
    end.
    reflexivity.
  - split; [exact Hr0|]. split; [reflexivity|].
    match goal with
    | |- _ = if ?b then _ else _ => replace b with false by (symmetry; exact Em)
    end.
    reflexivity.
Qed.

(* ================================================================== *)
(** * Exceptions and order of the run *)

Lemma mapM_raised_In (A B : Type) (f : A -> result B) l e :
  mapM f l = Raised e -> exists a, In a l /\ f a = Raised e.
Proof.
  induction l as [|a l IH]; simpl; [discriminate|].
  destruct (f a) as [b|e'] eqn:Ea; simpl.
  - destruct (mapM f l) as [bs|e'']; simpl; [discriminate|].
    intros H. inversion H; subst e''.
    destruct (IH eq_refl) as [a' [Ha' Hf]]. exists a'. auto.
  - intros H. inversion H; subst e'. exists a. auto.
Qed.

(** Cells 5 to 7 once the timestamps are converted. *)
Lemma preprocess_of_recs s csv recs :
  to_datetime csv = Ok recs ->
  preprocess s csv
  = if diff_overflows (sort_values msg_time recs)
    then Raised OverflowError
    else Ok (assign_group_numbers
               (add_time_delta s (sort_values msg_time recs))).
Proof.
  intros H. unfold preprocess, cell6. rewrite H. cbn [bind].
  destruct (diff_overflows (sort_values msg_time recs)); reflexivity.
Qed.

(** What cells 9 to 25 do on a frame: one of four things. *)
Lemma flag_intervals_cases s orig_df :
  (orig_df = [] /\ flag_intervals s orig_df = Raised KeyError)
  \/ (orig_df <> []
      /\ (exists i, In i (make_intervals orig_df)
                    /\ fits_int64 (total_time i) = false)
      /\ flag_intervals s orig_df = Raised OutOfBoundsDatetime)
  \/ (orig_df <> []
      /\ (forall i, In i (make_intervals orig_df) ->
                    fits_int64 (total_time i) = true)
      /\ (forall i, In i (make_intervals orig_df) -> time_delta_avg i = None)
      /\ flag_intervals s orig_df = Raised TypeError)
  \/ (orig_df <> []
      /\ (forall i, In i (make_intervals orig_df) ->
                    fits_int64 (total_time i) = true)
      /\ (exists i, In i (make_intervals orig_df) /\ time_delta_avg i <> None)
      /\ exists table, flag_intervals s orig_df = Ok table).
Proof.
  destruct orig_df as [|p l]; [left; split; reflexivity|]. right.
  assert (Hne : p :: l <> []) by discriminate.
  unfold flag_intervals.
  change (cell9 (p :: l)) with (Ok (make_intervals (p :: l))).
  set (table := make_intervals (p :: l)). cbn [bind].
  unfold cell11.
  destruct (existsb (fun i => negb (fits_int64 (total_time i))) table) eqn:E11.
  { left. split; [exact Hne|]. split; [|reflexivity].
    apply existsb_exists in E11. destruct E11 as [i [Hi Hf]].
    exists i. split; [exact Hi|]. apply negb_true_iff. exact Hf. }
  right. cbn [bind].
  assert (Hfit : forall i, In i table -> fits_int64 (total_time i) = true).
  { intros i Hi. destruct (fits_int64 (total_time i)) eqn:F; [reflexivity|].
    assert (X : existsb (fun i => negb (fits_int64 (total_time i))) table
                = true).
    { apply existsb_exists. exists i. rewrite F.
      split; [exact Hi|reflexivity]. }
    congruence. }
  destruct (holds_nat_alone (map time_delta_avg table)) eqn:E19.
  { left. split; [exact Hne|]. split; [exact Hfit|].
    pose proof (proj1 (holds_nat_alone_spec time_delta_avg table) E19) as Hnull.
    split; [exact Hnull|].
    rewrite (rate_intervals_untyped s table Hnull). reflexivity. }
  right. split; [exact Hne|]. split; [exact Hfit|].
  assert (Hsome : exists i, In i table /\ time_delta_avg i <> None).
  { destruct (existsb (fun i : Interval =>
                         negb (is_null (time_delta_avg i))) table) eqn:X.
    - apply existsb_exists in X. destruct X as [i [Hi Hn]]. exists i.
      split; [exact Hi|]. destruct (time_delta_avg i); [discriminate|].
      discriminate.
    - assert (Hall : forall i, In i table -> time_delta_avg i = None).
      { intros i Hi. destruct (time_delta_avg i) as [a|] eqn:Ea;
          [|reflexivity].
        assert (Y : existsb (fun i : Interval =>
                               negb (is_null (time_delta_avg i))) table = true).
        { apply existsb_exists. exists i. rewrite Ea.
          split; [exact Hi|reflexivity]. }
        congruence. }
      apply (proj2 (holds_nat_alone_spec time_delta_avg table)) in Hall.
      congruence. }
  split; [exact Hsome|].
  destruct (@rate_intervals_typed s table Hsome) as [rated Hrated].
  { intros i Hi. apply make_intervals_point_count in Hi. lia. }
  rewrite Hrated. cbn [bind]. eexists. reflexivity.
Qed.

(** A frame that cells 5 to 7 return has as many rows as the file. *)
Lemma preprocess_length s csv orig_df :
  preprocess s csv = Ok orig_df -> length orig_df = length csv.
Proof.
  intros Hpre.
  destruct (preprocess_recs s csv Hpre) as [recs [Hrecs Hperm]].
  apply Permutation_length in Hperm. rewrite !length_map in Hperm.
  rewrite Hperm. unfold to_datetime in Hrecs. apply mapM_length in Hrecs.
  exact Hrecs.
Qed.

Lemma to_datetime_raises csv r :
  In r csv -> parses r = false -> to_datetime csv = Raised ParseError.
Proof.
  intros Hr Hp. unfold to_datetime. apply mapM_raises with (a := r); auto.
  - apply parses_false. exact Hp.
  - intros a' e' _. apply parse_row_raises.
Qed.

(** What the run does on a file: it stops in cell 5, or in cell 6, or goes
    on to cell 9 with the frame of cell 7. *)
Lemma run_cases s csv :
  ((exists r, In r csv /\ parses r = false)
   /\ run s csv = Raised ParseError)
  \/ ((forall r, In r csv -> parses r = true)
      /\ ((preprocess s csv = Raised OverflowError
           /\ run s csv = Raised OverflowError)
          \/ exists orig_df,
               preprocess s csv = Ok orig_df
               /\ run s csv
                  = (group_intervals <- flag_intervals s orig_df ;;
                     Ok (map drop_working_columns
                             (backfill orig_df group_intervals))))).
Proof.
  destruct (forallb parses csv) eqn:E.
  - right. rewrite forallb_forall in E. split; [exact E|].
    destruct (to_datetime_total csv E) as [recs Hrecs].
    pose proof (preprocess_of_recs s csv Hrecs) as Hpre.
    destruct (diff_overflows (sort_values msg_time recs)).
    + left. split; [exact Hpre|]. unfold run. rewrite Hpre. reflexivity.
    + right. eexists. split; [exact Hpre|]. unfold run. rewrite Hpre.
      reflexivity.
  - left.
    assert (Hn : existsb (fun r => negb (parses r)) csv = true).
    { clear s. induction csv as [|r l IH]; [discriminate|].
      simpl in *. destruct (parses r); simpl in *; auto. }
    apply existsb_exists in Hn. destruct Hn as [r [Hr Hp]].
    apply negb_true_iff in Hp.
    split; [exists r; split; [exact Hr|exact Hp]|].
    unfold run, preprocess. rewrite (to_datetime_raises csv r Hr Hp).
    reflexivity.
Qed.

(** X13.  What the run raises, and when.  It raises the parse error of
    cell 5 exactly when some timestamp does not parse, and the KeyError of
    cell 9 exactly on a file without rows.  It raises the TypeError of cell
    19 only when every interval of cell 9 has a null average.  It never
    raises a division by zero.  It returns only when every timestamp
    parses and some interval has an average; and it does return then,
    provided no passthrough column carries a name of the notebook's own
    and the timestamps lie within 2^62 ns of the epoch, so that no
    difference of two of them overflows. *)
Theorem run_exceptions_have_causes (s : Settings) (csv : list CsvRow) :
  (run s csv = Raised ParseError <-> exists r, In r csv /\ parses r = false)
  /\ (run s csv = Raised KeyError <-> csv = [])
  /\ (run s csv = Raised TypeError ->
      exists orig_df,
        preprocess s csv = Ok orig_df /\ orig_df <> []
        /\ forall i, In i (make_intervals orig_df) -> time_delta_avg i = None)
  /\ run s csv <> Raised ZeroDivisionError
  /\ ((exists out, run s csv = Ok out) ->
      (forall r, In r csv -> parses r = true)
      /\ exists orig_df i,
           preprocess s csv = Ok orig_df
           /\ In i (make_intervals orig_df) /\ time_delta_avg i <> None)
  /\ (forall orig_df i,
        no_reserved_column csv ->
        preprocess s csv = Ok orig_df ->
        (forall p : Point, In p orig_df -> Z.abs (msg_time p) < 2 ^ 62) ->
        In i (make_intervals orig_df) -> time_delta_avg i <> None ->
        exists out, run s csv = Ok out).
Proof.
  assert (Hparsed : forall r, In r csv -> parses r = false ->
            (forall r', In r' csv -> parses r' = true) -> False).
  { intros r Hr Hp Hall. rewrite (Hall r Hr) in Hp. discriminate. }
  assert (Hflag : forall orig_df e,
            (group_intervals <- flag_intervals s orig_df ;;
             Ok (map drop_working_columns (backfill orig_df group_intervals)))
            = Raised e -> flag_intervals s orig_df = Raised e).
  { intros orig_df e. destruct (flag_intervals s orig_df) as [t|e'];
      cbn [bind]; intros H; [discriminate H|].
    injection H as ->. reflexivity. }
  split; [|split; [|split; [|split; [|split]]]].
  - split.
    + intros Hrun.
      destruct (run_cases s csv) as [[Hex _]|[_ [[_ Hr]|[df [_ Hr]]]]];
        [exact Hex|congruence|].
      rewrite Hr in Hrun. apply Hflag in Hrun.
      destruct (flag_intervals_cases s df)
        as [[_ H]|[[_ [_ H]]|[[_ [_ [_ H]]]|[_ [_ [_ [t H]]]]]]]; congruence.
    + intros [r [Hr Hp]].
      destruct (run_cases s csv) as [[_ H]|[Hall _]]; [exact H|].
      elim (Hparsed r Hr Hp Hall).
  - split.
    + intros Hrun.
      destruct (run_cases s csv) as [[_ H]|[_ [[_ H]|[df [Hpre Hr]]]]];
        [congruence|congruence|].
      rewrite Hr in Hrun. apply Hflag in Hrun.
      destruct (flag_intervals_cases s df)
        as [[E _]|[[_ [_ H]]|[[_ [_ [_ H]]]|[_ [_ [_ [t H]]]]]]];
        [|congruence|congruence|congruence].
      apply preprocess_length in Hpre. rewrite E in Hpre.
      destruct csv; [reflexivity|discriminate].
    + intros ->. reflexivity.
  - intros Hrun.
    destruct (run_cases s csv) as [[_ H]|[_ [[_ H]|[df [Hpre Hr]]]]];
      [congruence|congruence|].
    rewrite Hr in Hrun. apply Hflag in Hrun.
    destruct (flag_intervals_cases s df)
      as [[_ H]|[[_ [_ H]]|[[Hne [_ [Hnull _]]]|[_ [_ [_ [t H]]]]]]];
      [congruence|congruence| |congruence].
    exists df. auto.
  - intros Hrun.
    destruct (run_cases s csv) as [[_ H]|[_ [[_ H]|[df [Hpre Hr]]]]];
      [congruence|congruence|].
    rewrite Hr in Hrun. apply Hflag in Hrun.
    destruct (flag_intervals_cases s df)
      as [[_ H]|[[_ [_ H]]|[[_ [_ [_ H]]]|[_ [_ [_ [t H]]]]]]]; congruence.
  - intros [out Hrun].
    destruct (run_cases s csv) as [[_ H]|[Hall [[_ H]|[df [Hpre Hr]]]]];
      [congruence| congruence|].
    split; [exact Hall|].
    rewrite Hr in Hrun.
    destruct (flag_intervals_cases s df)
      as [[_ H]|[[_ [_ H]]|[[_ [_ [_ H]]]|[_ [_ [[i [Hi Ha]] _]]]]]];
      try (rewrite H in Hrun; discriminate).
    exists df, i. auto.
  - intros orig_df i _ Hpre Hwin Hi Havg.
    destruct (run_cases s csv) as [[[r [Hr Hp]] _]|[_ [[H _]|[df [Hpre' Hr]]]]].
    + unfold preprocess in Hpre.
      rewrite (to_datetime_raises csv r Hr Hp) in Hpre. discriminate.
    + congruence.
    + assert (df = orig_df) by congruence. subst df. rewrite Hr.
      destruct (flag_intervals_cases s orig_df)
        as [[E _]|[[_ [[j [Hj Hf]] _]]|[[_ [_ [Hnull _]]]|[_ [_ [_ [t H]]]]]]].
      * rewrite E in Hi. contradiction.
      * exfalso.
        pose proof (@make_intervals_In orig_df j Hj) as Ej.
        destruct (interval_of_group_bounds _ _ Ej) as [_ [[x [Hx Ex]] [y [Hy Ey]]]].
        apply (get_group_In _ _ key_eqb_spec) in Hx.
        apply (get_group_In _ _ key_eqb_spec) in Hy.
        pose proof (Hwin x (proj1 Hx)) as Wx.
        pose proof (Hwin y (proj1 Hy)) as Wy.
        unfold fits_int64, total_time, int64_max in Hf.
        rewrite <- Ex, <- Ey in Hf.
        apply andb_false_iff in Hf.
        assert (P : 2 ^ 62 = 4611686018427387904) by reflexivity.
        rewrite P in Wx, Wy.
        destruct Hf as [Hf|Hf]; [apply Z.leb_gt in Hf|apply Z.leb_gt in Hf];
          lia.
      * elim Havg. apply Hnull. exact Hi.
      * rewrite H. cbn [bind]. eexists. reflexivity.
Qed.

Lemma StronglySorted_of_map (A B : Type) (f : A -> B) (R : B -> B -> Prop) l :
  StronglySorted R (map f l) ->
  StronglySorted (fun a b => R (f a) (f b)) l.
Proof.
  induction l as [|x l IH]; simpl; intros H; [constructor|].
  inversion H as [|? ? Hl Hx]; subst. constructor; [apply IH; exact Hl|].
  rewrite Forall_forall in *. intros y Hy. apply Hx. apply in_map. exact Hy.
Qed.

Lemma to_csv_index frame :
  map line_index (to_csv frame) = map Z.of_nat (seq 0 (length frame)).
Proof.
  unfold to_csv. rewrite <- (map_id (map Z.of_nat (seq 0 (length frame)))) at 2.
  apply map_zip_with_l.
  - reflexivity.
  - rewrite length_map, length_seq. reflexivity.
Qed.

(** X14.  The output is written in time order, not in the order of the
    input: the lines of the file are numbered 0, 1, 2, ... and their
    [msg_time] never goes down from one line to the next. *)
Theorem output_is_in_time_order (s : Settings) (csv : list CsvRow)
    (written : list CsvLine) :
  emit s csv = Ok written ->
  StronglySorted (fun a b : CsvLine =>
                    msg_time (out_rec (line_row a))
                    <= msg_time (out_rec (line_row b))) written
  /\ map line_index written = map Z.of_nat (seq 0 (length csv)).
Proof.
  intros Hemit.
  destruct (emit_run s csv Hemit) as [out [Hrun ->]].
  destruct (run_stages s csv Hrun) as [orig_df [table [Hpre [_ Eout]]]].
  assert (Hsorted : StronglySorted
            (fun a b : OutRow => msg_time (out_rec a) <= msg_time (out_rec b))
            out).
  { rewrite Eout. unfold backfill, merge_asof. rewrite map_map.
    pose proof (sort_values_sorted (fun p : Point => msg_time p) orig_df) as H.
    induction H as [|p l Hl IH Hp]; simpl; constructor; [exact IH|].
    rewrite Forall_forall in *. intros o Ho. apply in_map_iff in Ho.
    destruct Ho as [q [<- Hq]]. simpl. apply Hp. exact Hq. }
  split.
  - apply (@StronglySorted_of_map _ _ line_row
             (fun a b : OutRow => msg_time (out_rec a) <= msg_time (out_rec b))).
    rewrite to_csv_rows. exact Hsorted.
  - rewrite to_csv_index. f_equal. f_equal.
    assert (Hlen : length out = length orig_df).
    { rewrite Eout. unfold backfill, merge_asof. rewrite !length_map.
      unfold sort_values. apply sort_rows_length. }
    rewrite Hlen.
    destruct (preprocess_recs s csv Hpre) as [recs [Hrecs Hperm]].
    apply Permutation_length in Hperm. rewrite !length_map in Hperm.
    rewrite Hperm. unfold to_datetime in Hrecs. apply mapM_length in Hrecs.
    exact Hrecs.
Qed.

(** X15.  On any frame on which cells 9 to 25 return, the four threshold
    flags of a row of the final table are decided by its duration and its
    point count: the too-short flag is 1 when the duration is below
    [duration_threshold_min] and 0 when it is not, the too-long flag is 1
    when the duration is above [duration_threshold_max] and 0 when it is
    not, and the same for the point count and its two thresholds.  An
    interval of a single point has duration zero. *)
Theorem threshold_flags_on_the_table (s : Settings) (orig_df : list Point)
    (table : list Verdict) (v : Verdict) :
  flag_intervals s orig_df = Ok table ->
  In v table ->
  (total_time v < duration_threshold_min s ->
   invalid_load_duration_short v = 1)
  /\ (duration_threshold_min s <= total_time v ->
      invalid_load_duration_short v = 0)
  /\ (duration_threshold_max s < total_time v ->
      invalid_load_duration_long v = 1)
  /\ (total_time v <= duration_threshold_max s ->
      invalid_load_duration_long v = 0)
  /\ (total_points v < point_threshold_min s ->
      invalid_load_point_count_low v = 1)
  /\ (point_threshold_min s <= total_points v ->
      invalid_load_point_count_low v = 0)
  /\ (point_threshold_max s < total_points v ->
      invalid_load_point_count_high v = 1)
  /\ (total_points v <= point_threshold_max s ->
      invalid_load_point_count_high v = 0)
  /\ (total_points v = 1 -> total_time v = 0).
Proof.
  intros Htable Hv.
  destruct (@table_row_origin s orig_df table v Htable Hv)
    as [[i [Hi Hrate]] _].
  destruct (@rate_interval_binary s i _ Hrate) as [H1 [H2 [H3 [H4 _]]]].
  destruct (@rate_interval_fields s i _ Hrate) as [Eivl _].
  change (ivl (rated v)) with (ivl v) in Eivl.
  change (invalid_load_duration_short (rated v))
    with (invalid_load_duration_short v) in H1.
  change (invalid_load_duration_long (rated v))
    with (invalid_load_duration_long v) in H2.
  change (invalid_load_point_count_low (rated v))
    with (invalid_load_point_count_low v) in H3.
  change (invalid_load_point_count_high (rated v))
    with (invalid_load_point_count_high v) in H4.
  change (total_points v) with (total_points (ivl v)).
  change (total_time v) with (total_time (ivl v)).
  rewrite Eivl, H1, H2, H3, H4. unfold np_where.
  repeat split.
  - intros H. apply Z.ltb_lt in H. rewrite H. reflexivity.
  - intros H. apply Z.ltb_ge in H. rewrite H. reflexivity.
  - intros H. apply Z.ltb_lt in H. rewrite H. reflexivity.
  - intros H. apply Z.ltb_ge in H. rewrite H. reflexivity.
  - intros H. apply Z.ltb_lt in H. rewrite H. reflexivity.
  - intros H. apply Z.ltb_ge in H. rewrite H. reflexivity.
  - intros H. apply Z.ltb_lt in H. rewrite H. reflexivity.
  - intros H. apply Z.ltb_ge in H. rewrite H. reflexivity.
  - intros Hone.
    pose proof (@make_intervals_In orig_df i Hi) as Ei.
    destruct (interval_of_group_fields _ _ Ei) as [_ Ecount].
    destruct (get_group key_eqb point_key orig_df (interval_key i))
      as [|p [|q ps]] eqn:Eg.
    + discriminate.
    + unfold interval_of_group in Ei. injection Ei as <-.
      unfold total_time. simpl. lia.
    + rewrite Ecount in Hone. simpl length in Hone. lia.
Qed.

(** X16.  Cells 13 to 20 on any interval table that has a row and no row
    with a zero point count.  They return when some row has an average and
    raise TypeError when none has.  When they return, the rows keep their
    order and cells, and a row whose average is null carries 0 as its
    reporting-gap flag and 0 as its ping-rate flag. *)
Theorem null_average_is_not_flagged (s : Settings) (table : list Interval) :
  table <> [] ->
  (forall i, In i table -> 1 <= total_points i) ->
  ((exists i, In i table /\ time_delta_avg i <> None) ->
   exists rated, rate_intervals s table = Ok rated)
  /\ ((forall i, In i table -> time_delta_avg i = None) ->
      rate_intervals s table = Raised TypeError)
  /\ (forall rated, rate_intervals s table = Ok rated ->
        map ivl rated = table
        /\ forall r : Rated, In r rated -> time_delta_avg r = None ->
             invalid_load_reporting_gap r = 0 /\ invalid_load_ping_rate r = 0).
Proof.
  intros _ Hpos. split; [|split].
  - intros Hsome. apply rate_intervals_typed; [exact Hsome|].
    intros i Hi. specialize (Hpos i Hi). lia.
  - apply rate_intervals_untyped.
  - intros rated Hrated. split; [apply (rate_intervals_rows s _ Hrated)|].
    apply rate_intervals_rows_of in Hrated. destruct Hrated as [_ Hrated].
    apply mapM_Forall2 in Hrated. intros r Hr Havg.
    destruct (@Forall2_In_r _ _ _ _ _ _ Hrated Hr) as [i [Hi Hrate]].
    apply rate_interval_fields in Hrate. destruct Hrate as [Ei [Hgap Hping]].
    rewrite Ei in Havg. split.
    + rewrite Hgap. apply flag_reporting_gap_null. exact Havg.
    + rewrite (flag_invalid_ping_rates_null i (ping_rate_threshold s)) in Hping;
        [inversion Hping; reflexivity| |exact Havg].
      specialize (Hpos i Hi). lia.
Qed.

(* ================================================================== *)
(** * The further theorems at sample inputs *)

(** X1 at the tie input. *)
Lemma interval_spans_its_points_witness :
  exists i, In i (make_intervals tie_points)
            /\ msg_time_min i <= msg_time_max i /\ 0 <= total_time i.
Proof.
  eexists. assert (H : In (hd lone_interval (make_intervals tie_points))
                          (make_intervals tie_points))
    by (vm_compute; left; reflexivity).
  split; [exact H|].
  destruct (interval_spans_its_points tie_points _ H) as [H1 [H2 _]]. auto.
Defined.


(** X3 at the tie input: the two intervals meet at 10 s. *)
Lemma intervals_follow_in_time_witness :
  exists i j,
    preprocess notebook_settings tie_csv = Ok tie_points
    /\ In i (make_intervals tie_points) /\ In j (make_intervals tie_points)
    /\ contract i = contract j /\ group i < group j
    /\ msg_time_max i <= msg_time_min j.
Proof.
  assert (Hpre : preprocess notebook_settings tie_csv = Ok tie_points)
    by (vm_compute; reflexivity).
  assert (Hi : In (nth 0 (make_intervals tie_points) lone_interval)
                  (make_intervals tie_points))
    by (vm_compute; left; reflexivity).
  assert (Hj : In (nth 1 (make_intervals tie_points) lone_interval)
                  (make_intervals tie_points))
    by (vm_compute; right; left; reflexivity).
  assert (Hc : contract (nth 0 (make_intervals tie_points) lone_interval)
               = contract (nth 1 (make_intervals tie_points) lone_interval))
    by (vm_compute; reflexivity).
  assert (Hg : group (nth 0 (make_intervals tie_points) lone_interval)
               < group (nth 1 (make_intervals tie_points) lone_interval))
    by (vm_compute; reflexivity).
  do 2 eexists. split; [exact Hpre|]. split; [exact Hi|]. split; [exact Hj|].
  split; [exact Hc|]. split; [exact Hg|].
  apply (@intervals_follow_in_time notebook_settings tie_csv tie_points _ _
           Hpre Hi Hj Hc Hg).
Defined.

(** X4 at the tie input. *)
Lemma interval_groups_have_no_gap_witness :
  exists i,
    preprocess notebook_settings tie_csv = Ok tie_points
    /\ In i (make_intervals tie_points)
    /\ 1 <= group i.
Proof.
  assert (Hpre : preprocess notebook_settings tie_csv = Ok tie_points)
    by (vm_compute; reflexivity).
  assert (H : In (nth 1 (make_intervals tie_points) lone_interval)
                 (make_intervals tie_points))
    by (vm_compute; right; left; reflexivity).
  eexists. split; [exact Hpre|]. split; [exact H|].
  apply (@interval_groups_have_no_gap notebook_settings tie_csv tie_points _
           Hpre H).
Defined.

(** X5 at the tie input. *)
Lemma neighbouring_intervals_differ_in_load_witness :
  exists i j,
    preprocess notebook_settings tie_csv = Ok tie_points
    /\ In i (make_intervals tie_points) /\ In j (make_intervals tie_points)
    /\ contract i = contract j /\ group j = group i + 1
    /\ ne (load j) (load i) = true.
Proof.
  assert (Hpre : preprocess notebook_settings tie_csv = Ok tie_points)
    by (vm_compute; reflexivity).
  assert (Hi : In (nth 0 (make_intervals tie_points) lone_interval)
                  (make_intervals tie_points))
    by (vm_compute; left; reflexivity).
  assert (Hj : In (nth 1 (make_intervals tie_points) lone_interval)
                  (make_intervals tie_points))
    by (vm_compute; right; left; reflexivity).
  assert (Hc : contract (nth 0 (make_intervals tie_points) lone_interval)
               = contract (nth 1 (make_intervals tie_points) lone_interval))
    by (vm_compute; reflexivity).
  assert (Hg : group (nth 1 (make_intervals tie_points) lone_interval)
               = group (nth 0 (make_intervals tie_points) lone_interval) + 1)
    by (vm_compute; reflexivity).
  do 2 eexists. split; [exact Hpre|]. split; [exact Hi|]. split; [exact Hj|].
  split; [exact Hc|]. split; [exact Hg|].
  apply (@neighbouring_intervals_differ_in_load notebook_settings tie_csv
           tie_points _ _ Hpre Hi Hj Hc Hg).
Defined.

(** X6 at the tie input: the second row of contract 7 is 10 s after the
    first. *)
Lemma time_delta_is_gap_to_previous_witness :
  exists p q : Timed,
    nth_error (filter (fun t : Timed => contract_id t =? 7)
                      (add_time_delta notebook_settings tie_recs)) 0 = Some p
    /\ nth_error (filter (fun t : Timed => contract_id t =? 7)
                         (add_time_delta notebook_settings tie_recs)) 1 = Some q
    /\ time_delta p = None
    /\ time_delta q
       = if contract_gap_threshold notebook_settings <? msg_time q - msg_time p
         then None else Some (msg_time q - msg_time p).
Proof.
  do 2 eexists.
  split; [vm_compute; reflexivity|]. split; [vm_compute; reflexivity|].
  destruct (time_delta_is_gap_to_previous notebook_settings tie_recs 7)
    as [_ [Hfirst [Hstep _]]].
  split.
  - apply Hfirst. vm_compute. reflexivity.
  - apply (Hstep 0%nat); vm_compute; reflexivity.
Defined.

(** X7 at the tie input: the first interval has an average, so one of its
    points has a time delta. *)
Lemma average_delta_null_with_its_points_witness :
  exists i,
    preprocess notebook_settings tie_csv = Ok tie_points
    /\ In i (make_intervals tie_points)
    /\ time_delta_avg i = Some (seconds 10)
    /\ 0 <= seconds 10
    /\ ~ (forall p : Point, In p tie_points -> point_key p = interval_key i ->
                            time_delta p = None).
Proof.
  assert (Hpre : preprocess notebook_settings tie_csv = Ok tie_points)
    by (vm_compute; reflexivity).
  assert (H : In (hd lone_interval (make_intervals tie_points))
                 (make_intervals tie_points))
    by (vm_compute; left; reflexivity).
  assert (Ha : time_delta_avg (hd lone_interval (make_intervals tie_points))
               = Some (seconds 10)) by (vm_compute; reflexivity).
  eexists. split; [exact Hpre|]. split; [exact H|]. split; [exact Ha|].
  destruct (@average_delta_null_with_its_points notebook_settings tie_csv
              tie_points _ Hpre H) as [Hnull Hpos].
  split; [exact (Hpos _ Ha)|].
  intros Hall. apply (proj2 Hnull) in Hall. rewrite Ha in Hall. discriminate.
Defined.

(** X8 at the tie input: the two rows of contract 7 meet and both come out
    flagged. *)
Lemma overlap_flag_marks_meeting_pairs_witness :
  exists a b : Overlapped,
    nth_error (filter (fun r : Overlapped => contract r =? 7)
                      (cell22 (map duped tie_overlapped))) 0 = Some a
    /\ nth_error (filter (fun r : Overlapped => contract r =? 7)
                         (cell22 (map duped tie_overlapped))) 1 = Some b
    /\ overlaps a b = true
    /\ invalid_load_overlap a = 1 /\ invalid_load_overlap b = 1.
Proof.
  do 2 eexists.
  split; [vm_compute; reflexivity|]. split; [vm_compute; reflexivity|].
  split; [vm_compute; reflexivity|].
  destruct (overlap_flag_marks_meeting_pairs (map duped tie_overlapped) 7)
    as [_ [_ [Hpair _]]].
  apply (Hpair 0%nat 1%nat).
  - discriminate.
  - vm_compute. reflexivity.
  - vm_compute. reflexivity.
  - vm_compute. reflexivity.
Defined.

(** X9 at the tie input. *)
Lemma overlap_flag_needs_shared_timestamp_witness :
  exists a : Verdict,
    preprocess notebook_settings tie_csv = Ok tie_points
    /\ flag_intervals notebook_settings tie_points = Ok tie_table
    /\ In a tie_table /\ invalid_load_overlap a = 1
    /\ exists b : Verdict,
         In b tie_table /\ group b <> group a
         /\ (msg_time_max a = msg_time_min b \/ msg_time_max b = msg_time_min a).
Proof.
  assert (Hpre : preprocess notebook_settings tie_csv = Ok tie_points)
    by (vm_compute; reflexivity).
  assert (Ht : flag_intervals notebook_settings tie_points = Ok tie_table)
    by (vm_compute; reflexivity).
  eexists. split; [exact Hpre|]. split; [exact Ht|].
  split; [left; reflexivity|]. split; [reflexivity|].
  destruct (@overlap_flag_needs_shared_timestamp notebook_settings tie_csv
              tie_points tie_table _ Hpre Ht (or_introl eq_refl) eq_refl)
    as [b [Hb [_ [Hg [_ Htouch]]]]].
  exists b. auto.
Defined.

(** X10 at the tie input. *)
Lemma every_output_row_carries_flags_witness :
  exists out o,
    run notebook_settings tie_csv = Ok out /\ In o out
    /\ forall cell, In cell (out_flags o) ->
                    snd cell = Some 0 \/ snd cell = Some 1.
Proof.
  do 2 eexists.
  assert (Hrun : run notebook_settings tie_csv
                 = Ok (value_of (run notebook_settings tie_csv)))
    by (vm_compute; reflexivity).
  assert (Ho : In (nth 0 (value_of (run notebook_settings tie_csv))
                       (mkOutRow (mkRec 0 0 None []) []))
                  (value_of (run notebook_settings tie_csv)))
    by (vm_compute; left; reflexivity).
  split; [exact Hrun|]. split; [exact Ho|].
  destruct (@every_output_row_carries_flags notebook_settings tie_csv _ _
              Hrun Ho) as [df [t [v [_ [_ [_ [_ [_ [_ H]]]]]]]]].
  exact H.
Defined.

(** X11 at the input with load numbers 1, 1, 2, 2, 1, 1: one contract, six
    different timestamps. *)
Lemma backfill_is_exact_for_one_contract_without_ties_witness :
  exists m : Merged,
    preprocess notebook_settings repeated_label_csv = Ok repeated_points
    /\ flag_intervals notebook_settings repeated_points = Ok repeated_table
    /\ (forall r, In r repeated_label_csv -> csv_contract_id r = 7)
    /\ NoDup (map csv_msg_time repeated_label_csv)
    /\ In m (backfill repeated_points repeated_table)
    /\ exists v : Verdict,
         In v repeated_table /\ interval_key v = point_key (left_row m).
Proof.
  assert (Hpre : preprocess notebook_settings repeated_label_csv
                 = Ok repeated_points) by (vm_compute; reflexivity).
  assert (Ht : flag_intervals notebook_settings repeated_points
               = Ok repeated_table) by (vm_compute; reflexivity).
  assert (Hone : forall r, In r repeated_label_csv -> csv_contract_id r = 7).
  { intros r Hr. simpl in Hr.
    destruct Hr as [<-|[<-|[<-|[<-|[<-|[<-|[]]]]]]]; reflexivity. }
  assert (Hnd : NoDup (map csv_msg_time repeated_label_csv)).
  { vm_compute.
    repeat (constructor; [simpl; intuition discriminate|]). constructor. }
  assert (Hm : In (hd (mkMerged (mkPoint (mkTimed (mkRec 0 0 None []) None) 0) [])
                      (backfill repeated_points repeated_table))
                  (backfill repeated_points repeated_table))
    by (vm_compute; left; reflexivity).
  eexists. split; [exact Hpre|]. split; [exact Ht|]. split; [exact Hone|].
  split; [exact Hnd|]. split; [exact Hm|].
  destruct (@backfill_is_exact_for_one_contract_without_ties notebook_settings
              repeated_label_csv repeated_points repeated_table 7 _
              Hpre Ht Hone Hnd Hm) as [v [Hv [Hk _]]].
  exists v. auto.
Defined.

(** X12 at the table with loads 1, 2, 1. *)
Lemma duplicate_mask_lands_in_other_column_witness :
  exists d : Duped,
    In d (cell21 repeated_rated)
    /\ invalid_load_duplicate d = 0
    /\ invalid_duplicate_loads d = Some 1.
Proof.
  assert (H : In (hd (mkDuped (mkRated lone_interval 0 0 0 0 0 0) 0 None)
                     (cell21 repeated_rated))
                 (cell21 repeated_rated))
    by (vm_compute; left; reflexivity).
  eexists. split; [exact H|].
  destruct (duplicate_mask_lands_in_other_column repeated_rated _ H)
    as [_ [H0 H1]].
  split; [exact H0|]. rewrite H1. vm_compute. reflexivity.
Defined.

(** X13 at the garbled input, which ends in cell 5, and at the tie input,
    which runs through. *)
Lemma run_exceptions_have_causes_witness :
  (exists r, In r garbled_csv /\ parses r = false)
  /\ run notebook_settings garbled_csv = Raised ParseError
  /\ no_reserved_column tie_csv
  /\ preprocess notebook_settings tie_csv = Ok tie_points
  /\ (forall p : Point, In p tie_points -> Z.abs (msg_time p) < 2 ^ 62)
  /\ exists out, run notebook_settings tie_csv = Ok out.
Proof.
  assert (H : exists r, In r garbled_csv /\ parses r = false).
  { eexists. split; [right; left; reflexivity|reflexivity]. }
  split; [exact H|].
  split.
  { apply (proj2 (proj1 (run_exceptions_have_causes notebook_settings
                           garbled_csv)) H). }
  assert (Hfree : no_reserved_column tie_csv).
  { intros r name Hr Hname. simpl in Hr.
    destruct Hr as [<-|[<-|[<-|[<-|[]]]]]; simpl in Hname; contradiction. }
  assert (Hpre : preprocess notebook_settings tie_csv = Ok tie_points)
    by (vm_compute; reflexivity).
  assert (Hwin : forall p : Point, In p tie_points ->
                                   Z.abs (msg_time p) < 2 ^ 62).
  { intros p Hp. simpl in Hp.
    destruct Hp as [<-|[<-|[<-|[<-|[]]]]]; vm_compute; reflexivity. }
  split; [exact Hfree|]. split; [exact Hpre|]. split; [exact Hwin|].
  destruct (run_exceptions_have_causes notebook_settings tie_csv)
    as [_ [_ [_ [_ [_ Hret]]]]].
  apply (Hret tie_points (hd lone_interval (make_intervals tie_points))
              Hfree Hpre Hwin).
  - vm_compute. left. reflexivity.
  - vm_compute. discriminate.
Defined.

(** X14 at the two-contract input: the lines are numbered 0, 1, 2. *)
Lemma output_is_in_time_order_witness :
  exists written,
    emit notebook_settings two_contracts_csv = Ok written
    /\ map line_index written = [0; 1; 2].
Proof.
  assert (H : emit notebook_settings two_contracts_csv
              = Ok (value_of (emit notebook_settings two_contracts_csv)))
    by (vm_compute; reflexivity).
  eexists. split; [exact H|].
  apply (proj2 (output_is_in_time_order notebook_settings two_contracts_csv H)).
Defined.

(** X15 at the tie input: the first interval lasts 10 s, which is below
    the hour of [duration_threshold_min] and not above the day of
    [duration_threshold_max]. *)
Lemma threshold_flags_on_the_table_witness :
  exists v : Verdict,
    flag_intervals notebook_settings tie_points = Ok tie_table
    /\ In v tie_table
    /\ total_time v < duration_threshold_min notebook_settings
    /\ total_time v <= duration_threshold_max notebook_settings
    /\ invalid_load_duration_short v = 1
    /\ invalid_load_duration_long v = 0.
Proof.
  assert (Ht : flag_intervals notebook_settings tie_points = Ok tie_table)
    by (vm_compute; reflexivity).
  eexists. split; [exact Ht|]. split; [left; reflexivity|].
  split; [vm_compute; reflexivity|].
  split; [vm_compute; discriminate|].
  destruct (@threshold_flags_on_the_table notebook_settings tie_points
              tie_table _ Ht (or_introl eq_refl))
    as [Hshort [_ [_ [Hlong _]]]].
  split; [apply Hshort; vm_compute; reflexivity|].
  apply Hlong. vm_compute. discriminate.
Defined.

(** X16 at the intervals of the two-contract input: the interval of
    contract 1 has an average, that of contract 2 has none and comes back
    with 0 in both columns. *)
Lemma null_average_is_not_flagged_witness :
  two_contracts_intervals <> []
  /\ (forall i, In i two_contracts_intervals -> 1 <= total_points i)
  /\ exists rated (r : Rated),
       rate_intervals notebook_settings two_contracts_intervals = Ok rated
       /\ In r rated /\ time_delta_avg r = None
       /\ invalid_load_reporting_gap r = 0 /\ invalid_load_ping_rate r = 0.
Proof.
  assert (Hne : two_contracts_intervals <> []) by discriminate.
  assert (Hpos : forall i, In i two_contracts_intervals -> 1 <= total_points i).
  { intros i Hi. simpl in Hi. destruct Hi as [<-|[<-|[]]]; simpl; lia. }
  split; [exact Hne|]. split; [exact Hpos|].
  assert (Hrated : rate_intervals notebook_settings two_contracts_intervals
                   = Ok (value_of (rate_intervals notebook_settings
                                     two_contracts_intervals)))
    by (vm_compute; reflexivity).
  do 2 eexists. split; [exact Hrated|].
  assert (Hr : In (nth 1 (value_of (rate_intervals notebook_settings
                                      two_contracts_intervals))
                       (mkRated lone_interval 0 0 0 0 0 0))
                  (value_of (rate_intervals notebook_settings
                               two_contracts_intervals)))
    by (vm_compute; right; left; reflexivity).
  split; [exact Hr|]. split; [vm_compute; reflexivity|].
  destruct (null_average_is_not_flagged notebook_settings Hne Hpos)
    as [_ [_ Hrows]].
  apply (proj2 (Hrows _ Hrated) _ Hr). vm_compute. reflexivity.
Defined.
